(** * Analysis Engine of freelens-ai: a shallow embedding and its properties

    The development follows the TypeScript sources of the renderer services:
    - [BoundedCache]           services/bounded-cache.ts
    - [Retry]                  services/retry.ts
    - [Config]                 services/config.ts
    - [SafeRegex]              utils/safe-regex.ts
    - [PatternStorage]         services/pattern-storage.ts
    - [LogAnalyze]             services/log-analyze.ts
    - [RelationshipDiscovery]  services/relationship-discovery.ts

    Strings are [string]; a JavaScript [Map] (insertion ordered) is an
    association list with distinct keys; a plain object used as a dictionary
    is a [gmap string _]; numbers that the code only counts or compares are
    [Z] or [nat]. *)

From Stdlib Require Import ZArith QArith Qround String Ascii List Lia Bool.
From stdpp Require Import gmap strings list pretty sorting.
Import ListNotations.

Local Open Scope string_scope.
Local Open Scope list_scope.
Local Open Scope Z_scope.

(* ===================================================================== *)
(** ** String methods of the host language *)
(* ===================================================================== *)

(** A string is read as its sequence of code units, one [ascii] each: the
    texts handled here (resource kinds, paths, log lines) are taken in the
    ASCII range. *)
Module JsString.

(** [toLowerCase] *)
Definition lower (c : ascii) : ascii :=
  let n := nat_of_ascii c in
  if (65 <=? n)%nat && (n <=? 90)%nat then ascii_of_nat (n + 32) else c.

Fixpoint lowercase (s : string) : string :=
  match s with
  | EmptyString => EmptyString
  | String c s' => String (lower c) (lowercase s')
  end.

Fixpoint allChars (f : ascii -> bool) (s : string) : bool :=
  match s with
  | EmptyString => true
  | String c s' => f c && allChars f s'
  end.

Fixpoint isPrefix (p s : string) : bool :=
  match p, s with
  | EmptyString, _ => true
  | String a p', String b s' => Ascii.eqb a b && isPrefix p' s'
  | String _ _, EmptyString => false
  end.

Fixpoint occursIn (p s : string) : bool :=
  isPrefix p s
  || match s with
     | EmptyString => false
     | String _ s' => occursIn p s'
     end.

(** [s.includes(p)], [s.startsWith(p)], [s.endsWith(p)] *)
Definition includes (s p : string) : bool := occursIn p s.
Definition startsWith (s p : string) : bool := isPrefix p s.

Fixpoint endsWith (s p : string) : bool :=
  String.eqb s p
  || match s with
     | EmptyString => false
     | String _ s' => endsWith s' p
     end.

(** [s.slice(0, -1)] *)
Definition dropLast (s : string) : string :=
  String.substring 0 (String.length s - 1) s.

(** A string as a condition: the empty string is falsy. *)
Definition truthy (s : string) : bool := negb (String.eqb s "").

(** [o || d] for a string that may be [undefined]. *)
Definition orElse (o : option string) (d : string) : string :=
  match o with
  | Some s => if truthy s then s else d
  | None => d
  end.

(** [xs.join(sep)] *)
Fixpoint join (sep : string) (xs : list string) : string :=
  match xs with
  | [] => ""
  | [x] => x
  | x :: xs' => x +:+ sep +:+ join sep xs'
  end.

End JsString.

(* ===================================================================== *)
(** ** services/bounded-cache.ts *)
(* ===================================================================== *)

Module BoundedCache.

Section Cache.
Context {T : Type}.

(** [interface CacheEntry<T>] *)
Record CacheEntry := mkEntry { timestamp : Z; data : T }.

(** The JavaScript [Map<string, CacheEntry<T>>]: entries in insertion
    order, one entry per key. *)
Definition JsMap := list (string * CacheEntry).

Definition keys (m : JsMap) : list string := List.map fst m.

Definition Map_wf (m : JsMap) : Prop := NoDup (keys m).

Fixpoint Map_get (k : string) (m : JsMap) : option CacheEntry :=
  match m with
  | [] => None
  | (k', e) :: m' => if String.eqb k' k then Some e else Map_get k m'
  end.

Definition Map_has (k : string) (m : JsMap) : bool :=
  match Map_get k m with Some _ => true | None => false end.

Fixpoint Map_delete (k : string) (m : JsMap) : JsMap :=
  match m with
  | [] => []
  | (k', e) :: m' =>
      if String.eqb k' k then Map_delete k m' else (k', e) :: Map_delete k m'
  end.

(** [Map.prototype.set]: an existing key keeps its position and gets the
    new value; a new key goes to the end. *)
Fixpoint Map_set (k : string) (e : CacheEntry) (m : JsMap) : JsMap :=
  match m with
  | [] => [(k, e)]
  | (k', e') :: m' =>
      if String.eqb k' k then (k', e) :: m' else (k', e') :: Map_set k e m'
  end.

Definition Map_size (m : JsMap) : Z := Z.of_nat (List.length m).

(** [this.map.keys().next().value] *)
Definition firstKey (m : JsMap) : option string :=
  match m with [] => None | (k, _) :: _ => Some k end.

(** [class BoundedCache<T>]: the map and the constructor's [maxSize]
    (default 200).  The TTL provider and the clock are passed to the
    methods that read them. *)
Record t := mkCache { map : JsMap; maxSize : Z }.

Definition new (maxSize : Z) : t := {| map := []; maxSize := maxSize |}.
Definition default_maxSize : Z := 200.

Definition size (c : t) : Z := Map_size (map c).

(** [scopedKey]: [`${getActiveClusterId()}:${key}`]; the active cluster
    identifier is the argument [cluster]. *)
Definition scopedKey (cluster key : string) : string :=
  cluster +:+ ":" +:+ key.

(** [get(key)]; [ttl] is the value of [getTtlMs()] and [now] of
    [Date.now()] at the call.  Returns the result and the cache after. *)
Definition get (cluster : string) (ttl now : Z) (key : string) (c : t)
  : option (T * Z) * t :=
  let sk := scopedKey cluster key in
  match Map_get sk (map c) with
  | None => (None, c)
  | Some entry =>
      if ttl <? now - timestamp entry
      then (None, {| map := Map_delete sk (map c); maxSize := maxSize c |})
      else (Some (data entry, timestamp entry), c)
  end.

(** The eviction loop of [set]:
    [while (map.size >= maxSize) { firstKey !== undefined ? delete : break }].
    Each turn deletes an entry, so [length m] turns are enough
    ([evict_fuel] below). *)
Fixpoint evictLoop (fuel : nat) (maxSize : Z) (m : JsMap) : JsMap :=
  match fuel with
  | O => m
  | S fuel' =>
      if maxSize <=? Map_size m then
        match firstKey m with
        | Some k => evictLoop fuel' maxSize (Map_delete k m)
        | None => m
        end
      else m
  end.

Definition evict (maxSize : Z) (m : JsMap) : JsMap :=
  evictLoop (List.length m) maxSize m.

(** [set(key, data)] *)
Definition set (cluster : string) (now : Z) (key : string) (d : T) (c : t) : t :=
  let sk := scopedKey cluster key in
  let m := evict (maxSize c) (map c) in
  {| map := Map_set sk {| timestamp := now; data := d |} m;
     maxSize := maxSize c |}.

(** [delete(key)], [clear()] *)
Definition delete (cluster key : string) (c : t) : t :=
  {| map := Map_delete (scopedKey cluster key) (map c); maxSize := maxSize c |}.
Definition clear (c : t) : t := {| map := []; maxSize := maxSize c |}.

(** A run of [set] calls, one per triple (key, data, clock). *)
Definition setAll (cluster : string) (ops : list (string * T * Z)) (c : t) : t :=
  fold_left (fun c op => set cluster (snd op) (fst (fst op)) (snd (fst op)) c) ops c.

End Cache.

Arguments CacheEntry : clear implicits.
Arguments JsMap : clear implicits.
Arguments t : clear implicits.

End BoundedCache.

(* ===================================================================== *)
(** ** services/retry.ts *)
(* ===================================================================== *)

Module Retry.

(** What the code reads of a thrown value: [err.name], [err.status],
    [err.statusCode], [err.code]. *)
Record JsError := mkError {
  err_name : string;
  err_status : option Z;
  err_statusCode : option Z;
  err_code : option string
}.

(** [new DOMException("Aborted", "AbortError")] and [new Error("Retry failed")] *)
Definition AbortError : JsError :=
  {| err_name := "AbortError"; err_status := None; err_statusCode := None;
     err_code := None |}.
Definition RetryFailed : JsError :=
  {| err_name := "Error"; err_status := None; err_statusCode := None;
     err_code := None |}.

(** The settlement of an awaited promise. *)
Inductive Outcome (A : Type) : Type :=
| Resolved (a : A)
| Rejected (e : JsError).
Arguments Resolved {A} a.
Arguments Rejected {A} e.

Definition RETRYABLE_STATUS_CODES : list Z := [429; 503; 529].
Definition NON_RETRYABLE_STATUS_CODES : list Z := [400; 403].
Definition BACKOFF_DELAYS : list Z := [2000; 6000].

Definition has (codes : list Z) (status : Z) : bool :=
  existsb (Z.eqb status) codes.

(** Truthiness of a possibly missing number: [undefined] and [0] are falsy. *)
Definition truthy (o : option Z) : bool :=
  match o with Some n => negb (n =? 0) | None => false end.

(** [err.status || err.statusCode] *)
Definition statusOf (err : JsError) : option Z :=
  if truthy (err_status err) then err_status err else err_statusCode err.

(** [BACKOFF_DELAYS[attempt] || BACKOFF_DELAYS[BACKOFF_DELAYS.length - 1]] *)
Definition delayFor (attempt : nat) : Z :=
  let last := nth (List.length BACKOFF_DELAYS - 1) BACKOFF_DELAYS 0 in
  match nth_error BACKOFF_DELAYS attempt with
  | Some d => if d =? 0 then last else d
  | None => last
  end.

(** What a call has done so far: how many times the operation and the
    refresh callback were invoked, the backoff delays waited in order, and
    a logical clock that advances at every suspension point. *)
Record Trace := mkTrace {
  invocations : nat;
  refreshes : nat;
  waits : list Z;
  tick : nat
}.

Definition start : Trace :=
  {| invocations := 0; refreshes := 0; waits := []; tick := 0 |}.

Section Call.
Context {T : Type}.

(** The arguments of [retryWithBackoff].  [fn k] is how the operation
    settles at its invocation number [k] (from 0); [signal], when supplied,
    tells at each logical time whether it is aborted; [onUnauthorized k] is
    how the refresh callback settles at its call number [k]. *)
Variable fn : nat -> Outcome T.
Variable signal : option (nat -> bool).
Variable maxRetries : Z.
Variable onUnauthorized : option (nat -> Outcome bool).

(** [signal?.aborted] *)
Definition aborted (tr : Trace) : bool :=
  match signal with Some s => s (tick tr) | None => false end.

(** [await fn(signal)] *)
Definition invoke (tr : Trace) : Outcome T * Trace :=
  (fn (invocations tr),
   {| invocations := S (invocations tr); refreshes := refreshes tr;
      waits := waits tr; tick := S (tick tr) |}).

(** [await onUnauthorized()] *)
Definition refresh (cb : nat -> Outcome bool) (tr : Trace) : Outcome bool * Trace :=
  (cb (refreshes tr),
   {| invocations := invocations tr; refreshes := S (refreshes tr);
      waits := waits tr; tick := S (tick tr) |}).

(** The cancellable wait: the timer resolves after [delay] unless the abort
    event fires first.  The listener is added when the wait starts, so only
    an abort that happens during the wait rejects it.  The result is [true]
    when the wait was rejected. *)
Definition wait (delay : Z) (tr : Trace) : bool * Trace :=
  let tr' := {| invocations := invocations tr; refreshes := refreshes tr;
                waits := waits tr ++ [delay]; tick := S (tick tr) |} in
  match signal with
  | Some s => (negb (s (tick tr)) && s (S (tick tr)), tr')
  | None => (false, tr')
  end.

(** [isRetryable] *)
Definition isRetryable (err : JsError) : bool :=
  let status := statusOf err in
  (truthy status && match status with Some n => has RETRYABLE_STATUS_CODES n | None => false end)
  || negb (truthy status)
  || match err_code err with
     | Some c => String.eqb c "ECONNRESET" || String.eqb c "ETIMEDOUT"
     | None => false
     end.

(** The [for (attempt = 0; attempt <= maxRetries; attempt++)] loop, by
    recursion on the number [n] of turns left; [n = 0] is the exit of the
    loop, [throw lastError || new Error("Retry failed")]. *)
Fixpoint attempts (n : nat) (attempt : nat) (lastError : option JsError) (tr : Trace)
  : Outcome T * Trace :=
  match n with
  | O => (Rejected (match lastError with Some e => e | None => RetryFailed end), tr)
  | S n' =>
      let '(r, tr1) :=
        if aborted tr then (Rejected AbortError, tr) else invoke tr in
      match r with
      | Resolved v => (Resolved v, tr1)
      | Rejected err =>
          if String.eqb (err_name err) "AbortError" then (Rejected err, tr1) else
          let status := statusOf err in
          if truthy status
             && match status with Some c => has NON_RETRYABLE_STATUS_CODES c | None => false end
          then (Rejected err, tr1) else
          match status, onUnauthorized, Z.of_nat attempt <? maxRetries with
          | Some 401, Some cb, true =>
              match refresh cb tr1 with
              | (Resolved true, tr2) => attempts n' (S attempt) (Some err) tr2
              | (Resolved false, tr2) => (Rejected err, tr2)
              | (Rejected e', tr2) => (Rejected e', tr2)
              end
          | _, _, _ =>
              if negb (isRetryable err) || (maxRetries <=? Z.of_nat attempt)
              then (Rejected err, tr1)
              else
                match wait (delayFor attempt) tr1 with
                | (true, tr2) => (Rejected AbortError, tr2)
                | (false, tr2) => attempts n' (S attempt) (Some err) tr2
                end
          end
      end
  end.

(** [retryWithBackoff(fn, signal, maxRetries, onUnauthorized)]: the loop
    runs for [attempt = 0 .. maxRetries], that is [maxRetries + 1] turns
    (none when [maxRetries] is negative). *)
Definition retryWithBackoff : Outcome T * Trace :=
  attempts (Z.to_nat (maxRetries + 1)) 0 None start.

End Call.

(** A signal that is absent, or supplied and never aborted. *)
Definition neverAborted (signal : option (nat -> bool)) : Prop :=
  match signal with Some s => forall t, s t = false | None => True end.

(** The operation fails with HTTP status [code] at invocation [k]: it
    rejects with an error, not an abort, whose status reads [code]. *)
Definition failsWithStatus {T} (fn : nat -> Outcome T) (k : nat) (code : Z) : Prop :=
  exists err, fn k = Rejected err
              /\ statusOf err = Some code
              /\ err_name err <> "AbortError".

End Retry.

(* ===================================================================== *)
(** ** services/config.ts *)
(* ===================================================================== *)

Module Config.

(** A value of the parsed configuration file as [clampInt] looks at it: a
    finite number (every double is a rational), a number that is not finite
    ([JSON.parse] yields [Infinity] on overflow), or anything that is not a
    number (string, boolean, null, object, array). *)
Inductive JsValue :=
| VNumber (q : Q)
| VNonFinite
| VNotNumber.

(** [interface FreeLensAIConfig] *)
Record FreeLensAIConfig := mkConfig {
  logTailLines : Z;
  analysisMaxTokens : Z;
  apiTimeoutMs : Z;
  resourceCacheTtlMs : Z;
  logCacheTtlMs : Z;
  maxRelationshipChildren : Z
}.

Definition DEFAULTS : FreeLensAIConfig :=
  {| logTailLines := 500;
     analysisMaxTokens := 4096;
     apiTimeoutMs := 45000;
     resourceCacheTtlMs := 5 * 60 * 1000;
     logCacheTtlMs := 3 * 60 * 1000;
     maxRelationshipChildren := 50 |}.

(** [Math.round]: the nearest integer, halves going up. *)
Definition Math_round (q : Q) : Z := Qfloor (q + (1 # 2))%Q.

(** [clampInt(value, min, max, fallback)]; [None] is [undefined]. *)
Definition clampInt (value : option JsValue) (min max fallback : Z) : Z :=
  match value with
  | Some (VNumber q) => Z.max min (Z.min max (Math_round q))
  | _ => fallback
  end.

(** [DEFAULTS] as the object that is spread into [merged]. *)
Definition defaultsObject : gmap string JsValue :=
  list_to_map
    [("logTailLines", VNumber (inject_Z (logTailLines DEFAULTS)));
     ("analysisMaxTokens", VNumber (inject_Z (analysisMaxTokens DEFAULTS)));
     ("apiTimeoutMs", VNumber (inject_Z (apiTimeoutMs DEFAULTS)));
     ("resourceCacheTtlMs", VNumber (inject_Z (resourceCacheTtlMs DEFAULTS)));
     ("logCacheTtlMs", VNumber (inject_Z (logCacheTtlMs DEFAULTS)));
     ("maxRelationshipChildren", VNumber (inject_Z (maxRelationshipChildren DEFAULTS)))].

(** [validateConfig(raw)]; [{ ...DEFAULTS, ...raw }] is the union in which
    the keys of [raw] win. *)
Definition validateConfig (raw : gmap string JsValue) : FreeLensAIConfig :=
  let merged := raw ∪ defaultsObject in
  {| logTailLines :=
       clampInt (merged !! "logTailLines") 10 10000 (logTailLines DEFAULTS);
     analysisMaxTokens :=
       clampInt (merged !! "analysisMaxTokens") 256 16384 (analysisMaxTokens DEFAULTS);
     apiTimeoutMs :=
       clampInt (merged !! "apiTimeoutMs") 5000 120000 (apiTimeoutMs DEFAULTS);
     resourceCacheTtlMs :=
       clampInt (merged !! "resourceCacheTtlMs") 0 (30 * 60000) (resourceCacheTtlMs DEFAULTS);
     logCacheTtlMs :=
       clampInt (merged !! "logCacheTtlMs") 0 (30 * 60000) (logCacheTtlMs DEFAULTS);
     maxRelationshipChildren :=
       clampInt (merged !! "maxRelationshipChildren") 10 500
                (maxRelationshipChildren DEFAULTS) |}.

(** [getConfig()] on first access: the file's parsed content, or [None]
    when reading or parsing it throws. *)
Definition getConfig (file : option (gmap string JsValue)) : FreeLensAIConfig :=
  match file with
  | Some parsed => validateConfig parsed
  | None => DEFAULTS
  end.

(** The six tunables: key, field, documented range and fallback. *)
Record Tunable := mkTunable {
  key : string;
  field : FreeLensAIConfig -> Z;
  lo : Z;
  hi : Z;
  fallback : Z
}.

Definition tunables : list Tunable :=
  [ mkTunable "logTailLines" logTailLines 10 10000 500;
    mkTunable "analysisMaxTokens" analysisMaxTokens 256 16384 4096;
    mkTunable "apiTimeoutMs" apiTimeoutMs 5000 120000 45000;
    mkTunable "resourceCacheTtlMs" resourceCacheTtlMs 0 1800000 300000;
    mkTunable "logCacheTtlMs" logCacheTtlMs 0 1800000 180000;
    mkTunable "maxRelationshipChildren" maxRelationshipChildren 10 500 50 ].

End Config.

(* ===================================================================== *)
(** ** The RegExp built-in *)
(* ===================================================================== *)

(** The sources use the host's regular expressions through two operations
    only: [new RegExp(pattern, flags)], which throws on a pattern that is
    not well formed, and [regex.test(text)].  No regex is built with the
    [g] or [y] flag, so [test] has no state.  The definitions and theorems
    below are stated for any engine with these two operations. *)
Module RegExp.
Import JsString.

Record Engine := mkEngine {
  RegExp : Type;
  (** [new RegExp(pattern, flags)]; [None] when it throws. *)
  compile : string -> string -> option RegExp;
  (** [regex.test(text)] *)
  test : RegExp -> string -> bool
}.

(** An instance for the patterns that have no metacharacter apart from
    [|]: letters, digits, spaces and a few punctuation marks, in
    alternatives separated by [|].  With the flag [i] such a pattern
    matches a text exactly when one of its alternatives occurs in it,
    letter case apart.  Patterns outside this fragment are not covered by
    the instance and do not compile in it. *)

Definition isLiteralChar (c : ascii) : bool :=
  let n := nat_of_ascii c in
  ((48 <=? n)%nat && (n <=? 57)%nat)        (* 0-9 *)
  || ((65 <=? n)%nat && (n <=? 90)%nat)     (* A-Z *)
  || ((97 <=? n)%nat && (n <=? 122)%nat)    (* a-z *)
  || (n =? 32)%nat || (n =? 95)%nat || (n =? 58)%nat || (n =? 61)%nat
  || (n =? 45)%nat.                           (* space _ : = - *)

(** Split at each [|]. *)
Fixpoint alternatives (s : string) (cur : string) : list string :=
  match s with
  | EmptyString => [cur]
  | String c s' =>
      if Ascii.eqb c "|" then cur :: alternatives s' EmptyString
      else alternatives s' (cur +:+ String c EmptyString)
  end.

Definition literalEngine : Engine :=
  {| RegExp := list string;
     compile := fun pattern flags =>
       if String.eqb flags "i"
          && allChars (fun c => isLiteralChar c || Ascii.eqb c "|") pattern
       then Some (List.map lowercase (alternatives pattern EmptyString))
       else None;
     test := fun alts text =>
       existsb (fun a => occursIn a (lowercase text)) alts |}.

End RegExp.

(* ===================================================================== *)
(** ** utils/safe-regex.ts *)
(* ===================================================================== *)

Module SafeRegex.
Import RegExp.

Definition MAX_REGEX_LENGTH : nat := 500.

Definition isQuantifier (c : ascii) : bool := Ascii.eqb c "+" || Ascii.eqb c "*".

(** The text after an opening parenthesis, read as [[^)]*\)]: the
    characters up to the first closing parenthesis.  Gives whether one of
    them satisfies [mark], and the text after that parenthesis; [None] when
    no parenthesis closes. *)
Fixpoint groupBody (mark : ascii -> bool) (s : string) (seen : bool)
  : option (bool * string) :=
  match s with
  | EmptyString => None
  | String c s' =>
      if Ascii.eqb c ")" then Some (seen, s')
      else groupBody mark s' (seen || mark c)
  end.

(** A match of [(\([^)]*[+*][^)]*\))[+*]] that starts at the head of [s]. *)
Definition nestedQuantifierAt (s : string) : bool :=
  match s with
  | String c s' =>
      Ascii.eqb c "("
      && match groupBody isQuantifier s' false with
         | Some (true, String q _) => isQuantifier q
         | _ => false
         end
  | EmptyString => false
  end.

(** A match of [(\([^)]*\|[^)]*\))[+*]{2,}] that starts at the head of [s]. *)
Definition quantifiedAlternationAt (s : string) : bool :=
  match s with
  | String c s' =>
      Ascii.eqb c "("
      && match groupBody (fun x => Ascii.eqb x "|") s' false with
         | Some (true, String q1 (String q2 _)) => isQuantifier q1 && isQuantifier q2
         | _ => false
         end
  | EmptyString => false
  end.

(** [heuristic.test(pattern)]: a match starting anywhere. *)
Fixpoint anywhere (at_head : string -> bool) (s : string) : bool :=
  at_head s
  || match s with
     | EmptyString => false
     | String _ s' => anywhere at_head s'
     end.

(** The two heuristics: a group that holds a quantifier and is itself
    quantified, and a group that holds an alternation and is followed by
    two or more quantifiers. *)
Definition REDOS_HEURISTICS : list (string -> bool) :=
  [ anywhere nestedQuantifierAt; anywhere quantifiedAlternationAt ].

Section WithEngine.
Variable E : Engine.

(** [safeRegex(pattern, flags = "i")]; [None] is [null]. *)
Definition safeRegex (pattern : string) : option (RegExp E) :=
  if String.eqb pattern "" || (MAX_REGEX_LENGTH <? String.length pattern)%nat
  then None
  else if existsb (fun heuristic => heuristic pattern) REDOS_HEURISTICS
  then None
  else compile E pattern "i".

(** [safeRegexTest(regex, input, maxInputLength = 5000)] *)
Definition safeRegexTest (regex : RegExp E) (input : string) : bool :=
  let maxInputLength := 5000%nat in
  let text := if (maxInputLength <? String.length input)%nat
              then String.substring 0 maxInputLength input
              else input in
  test E regex text.

End WithEngine.

End SafeRegex.

(* ===================================================================== *)
(** ** services/pattern-storage.ts *)
(* ===================================================================== *)

Module PatternStorage.
Import RegExp.

Inductive Level := error | warning | info | critical.

(** [interface StoredPattern] *)
Record StoredPattern := mkStored {
  sp_id : string;
  sp_label : string;
  sp_regex : string;
  sp_level : Level;
  sp_discoveredAt : Z;
  sp_hitCount : Z;
  sp_description : string;
  sp_example : string
}.

(** [interface PatternStore]; [scopes] is a dictionary from scope key to the
    patterns of that scope. *)
Record PatternStore := mkStore {
  version : Z;
  updatedAt : Z;
  scopes : gmap string (list StoredPattern)
}.

(** [interface PatternRegex] *)
Record PatternRegex := mkPatternRegex {
  pr_regex : string;
  pr_level : Level;
  pr_label : string;
  pr_description : string
}.

Definition MAX_PATTERNS_PER_SCOPE : nat := 50.

Definition defaultStore : PatternStore :=
  {| version := 1; updatedAt := 0; scopes := ∅ |}.

(** [exactMatch.hitCount += 1; exactMatch.label = ...; exactMatch.description = ...] *)
Definition refresh (np : PatternRegex) (e : StoredPattern) : StoredPattern :=
  {| sp_id := sp_id e; sp_label := pr_label np; sp_regex := sp_regex e;
     sp_level := sp_level e; sp_discoveredAt := sp_discoveredAt e;
     sp_hitCount := sp_hitCount e + 1; sp_description := pr_description np;
     sp_example := sp_example e |}.

(** [ep.hitCount += 1] *)
Definition bump (e : StoredPattern) : StoredPattern :=
  {| sp_id := sp_id e; sp_label := sp_label e; sp_regex := sp_regex e;
     sp_level := sp_level e; sp_discoveredAt := sp_discoveredAt e;
     sp_hitCount := sp_hitCount e + 1; sp_description := sp_description e;
     sp_example := sp_example e |}.

(** [existing.find((e) => e.regex === np.regex)] followed by the update of
    the element found, which the array shares: the first element with that
    regex is replaced by [f] of it.  [None] when [find] finds nothing. *)
Fixpoint updateFirst (p : StoredPattern -> bool) (f : StoredPattern -> StoredPattern)
    (l : list StoredPattern) : option (list StoredPattern) :=
  match l with
  | [] => None
  | e :: l' =>
      if p e then Some (f e :: l')
      else match updateFirst p f l' with
           | Some l'' => Some (e :: l'')
           | None => None
           end
  end.

Section WithEngine.
Variable E : Engine.

(** [overlap / newMatches.length >= 0.8], with [overlap] and the length
    natural numbers and the length positive.  The quotient of two such
    numbers below 2^50, computed in double precision, is at least the
    double 0.8 exactly when five times the first is at least four times the
    second. *)
Definition overlaps (overlap total : nat) : bool :=
  (4 * Z.of_nat total <=? 5 * Z.of_nat overlap).

(** The test made on one existing pattern [ep] in the overlap loop:
    [new RegExp(ep.regex, "i")] does not throw and the overlap reaches the
    threshold. *)
Definition isNearDuplicateOf (newMatches : list string) (ep : StoredPattern) : bool :=
  match compile E (sp_regex ep) "i" with
  | Some existingRegex =>
      overlaps (List.length (List.filter (test E existingRegex) newMatches))
               (List.length newMatches)
  | None => false
  end.

(** What the calls of [generateId()] and [Date.now()] return, by the number
    of patterns pushed so far in the call, and the optional arguments
    [examples] and [logLines]. *)
Variable generateId : nat -> string.
Variable Date_now : nat -> Z.
Variable examples : option (gmap string string).
Variable logLines : option (list string).

(** [examples?.get(np.regex) || ""] *)
Definition exampleFor (np : PatternRegex) : string :=
  match examples with
  | Some m => match m !! pr_regex np with Some ex => ex | None => "" end
  | None => ""
  end.

(** The body of [for (const np of newPatterns)]: the array [existing] and
    the number of patterns pushed so far, before and after. *)
Definition mergeOne (np : PatternRegex) (st : list StoredPattern * nat)
  : list StoredPattern * nat :=
  let '(existing, pushed) := st in
  match compile E (pr_regex np) "i" with
  | None => st                                      (* skip invalid regex *)
  | Some newRegex =>
      match updateFirst (fun e => String.eqb (sp_regex e) (pr_regex np))
                        (refresh np) existing with
      | Some existing' => (existing', pushed)       (* exact regex match *)
      | None =>
          let push :=
            (existing ++
               [{| sp_id := generateId pushed;
                   sp_label := pr_label np;
                   sp_regex := pr_regex np;
                   sp_level := pr_level np;
                   sp_discoveredAt := Date_now pushed;
                   sp_hitCount := 1;
                   sp_description := pr_description np;
                   sp_example := exampleFor np |}],
             S pushed) in
          match logLines with
          | Some (l :: ls) =>
              let newMatches := List.filter (test E newRegex) (l :: ls) in
              match newMatches with
              | [] => push
              | _ :: _ =>
                  match updateFirst (isNearDuplicateOf newMatches) bump existing with
                  | Some existing' => (existing', pushed)   (* isDuplicate *)
                  | None => push
                  end
              end
          | _ => push
          end
      end
  end.

Definition mergeLoop (newPatterns : list PatternRegex) (st : list StoredPattern * nat)
  : list StoredPattern * nat :=
  fold_left (fun st np => mergeOne np st) newPatterns st.

(** The comparator of the cap,
    [b.hitCount - a.hitCount || b.discoveredAt - a.discoveredAt]: negative
    when [a] goes first. *)
Definition compareForCap (a b : StoredPattern) : Z :=
  let d := sp_hitCount b - sp_hitCount a in
  if d =? 0 then sp_discoveredAt b - sp_discoveredAt a else d.

(** [Array.prototype.sort] is stable: an element is put after those that do
    not compare greater than it. *)
Fixpoint insertSorted (x : StoredPattern) (l : list StoredPattern) : list StoredPattern :=
  match l with
  | [] => [x]
  | y :: l' => if 0 <? compareForCap y x then x :: l else y :: insertSorted x l'
  end.

Definition sortForCap (l : list StoredPattern) : list StoredPattern :=
  fold_left (fun acc x => insertSorted x acc) l [].

(** [if (existing.length > MAX) { existing.sort(...); scopes[scope] = existing.slice(0, MAX) }] *)
Definition cap (existing : list StoredPattern) : list StoredPattern :=
  if (MAX_PATTERNS_PER_SCOPE <? List.length existing)%nat
  then firstn MAX_PATTERNS_PER_SCOPE (sortForCap existing)
  else existing.

(** [mergeAIPatterns(store, scope, newPatterns, examples, logLines)]: the
    store after the call.  The write queued by [savePatterns] is not part
    of the model. *)
Definition mergeAIPatterns (store : PatternStore) (scope : string)
    (newPatterns : list PatternRegex) : PatternStore :=
  let existing := match scopes store !! scope with Some l => l | None => [] end in
  let '(existing', _) := mergeLoop newPatterns (existing, 0%nat) in
  {| version := version store; updatedAt := updatedAt store;
     scopes := <[scope := cap existing']> (scopes store) |}.

End WithEngine.

(** [removePattern(store, scope, patternId)] *)
Definition removePattern (store : PatternStore) (scope patternId : string) : PatternStore :=
  match scopes store !! scope with
  | None => store
  | Some patterns =>
      {| version := version store; updatedAt := updatedAt store;
         scopes := <[scope := List.filter (fun p => negb (String.eqb (sp_id p) patternId))
                                          patterns]> (scopes store) |}
  end.

(** *** Workload scope helpers *)

(** What the helpers read of a pod: [metadata.labels] and, of each entry of
    [metadata.ownerReferences], [kind], [name] and [controller]. *)
Record PodOwner := mkPodOwner {
  po_kind : option string;
  po_name : option string;
  po_controller : bool
}.

Record Pod := mkPod {
  labels : gmap string string;
  podOwners : list PodOwner
}.

(** [WORKLOAD_ABBREV[kind]], for a kind that is not the name of a member
    of every object (such as [constructor]). *)
Definition WORKLOAD_ABBREV (kind : string) : option string :=
  if String.eqb kind "Deployment" then Some "deploy"
  else if String.eqb kind "StatefulSet" then Some "sts"
  else if String.eqb kind "DaemonSet" then Some "ds"
  else if String.eqb kind "ReplicaSet" then Some "rs"
  else if String.eqb kind "Job" then Some "job"
  else if String.eqb kind "CronJob" then Some "cronjob"
  else None.

(** A label that is present and not empty. *)
Definition label (pod : Pod) (k : string) : option string :=
  match labels pod !! k with
  | Some v => if JsString.truthy v then Some v else None
  | None => None
  end.

(** [extractAppIdentity(pod)] *)
Definition extractAppIdentity (pod : Pod) : option string :=
  match label pod "helm.sh/chart" with
  | Some helmChart => Some ("chart:" +:+ helmChart)
  | None =>
      match label pod "chart" with
      | Some chart => Some ("chart:" +:+ chart)
      | None =>
          match label pod "app.kubernetes.io/name" with
          | Some k8sName => Some ("app:" +:+ k8sName)
          | None =>
              match label pod "app" with
              | Some appLabel => Some ("app:" +:+ appLabel)
              | None => None
              end
          end
      end
  end.

(** [s.lastIndexOf(c)], [None] for -1: the scan keeps the last index seen. *)
Fixpoint lastIndexFrom (c : ascii) (s : string) (i : nat) (found : option nat)
  : option nat :=
  match s with
  | EmptyString => found
  | String x s' => lastIndexFrom c s' (S i) (if Ascii.eqb x c then Some i else found)
  end.

Definition lastIndexOf (c : ascii) (s : string) : option nat :=
  lastIndexFrom c s 0 None.

(** [owners.find((o) => o.controller) || owners[0]] *)
Definition pickOwner (owners : list PodOwner) : option PodOwner :=
  match List.find po_controller owners with
  | Some o => Some o
  | None => List.head owners
  end.

(** [extractWorkloadScope(pod)] *)
Definition extractWorkloadScope (pod : Pod) : option string :=
  match pickOwner (podOwners pod) with
  | None => None
  | Some owner =>
      match po_kind owner, po_name owner with
      | Some kind, Some name =>
          if negb (JsString.truthy kind) || negb (JsString.truthy name) then None
          else if String.eqb kind "ReplicaSet" then
            match lastIndexOf "-" name with
            | Some lastDash =>
                if (0 <? lastDash)%nat
                then Some ("deploy:" +:+ String.substring 0 lastDash name)
                else Some ("rs:" +:+ name)
            | None => Some ("rs:" +:+ name)
            end
          else
            match WORKLOAD_ABBREV kind with
            | Some abbrev => Some (abbrev +:+ ":" +:+ name)
            | None => Some (JsString.lowercase kind +:+ ":" +:+ name)
            end
      | _, _ => None
      end
  end.

(** [resolveScopeKey(namespace, workloadScope, appIdentity)] *)
Definition resolveScopeKey (namespace : string) (workloadScope appIdentity : option string)
  : string :=
  JsString.orElse appIdentity (JsString.orElse workloadScope ("ns:" +:+ namespace)).

(** [getPatternsForScope(store, namespace, workloadScope, appIdentity)];
    [seen] is the set of the regexes of the scope's own patterns. *)
Definition getPatternsForScope (store : PatternStore) (namespace : string)
    (workloadScope appIdentity : option string) : list StoredPattern :=
  let key := resolveScopeKey namespace workloadScope appIdentity in
  let appPatterns := match scopes store !! key with Some l => l | None => [] end in
  let globalPatterns := match scopes store !! "global" with Some l => l | None => [] end in
  let seen : gset string :=
    fold_left (fun seen p => {[ sp_regex p ]} ∪ seen) appPatterns ∅ in
  appPatterns
  ++ List.filter (fun p => negb (bool_decide (sp_regex p ∈ seen))) globalPatterns.

End PatternStorage.

(* ===================================================================== *)
(** ** services/log-analyze.ts *)
(* ===================================================================== *)

Module LogAnalyze.
Import JsString RegExp SafeRegex.
Import Retry (Outcome, Resolved, Rejected, JsError).

Inductive Severity := sev_error | sev_warning | sev_info.
Inductive AnomalySeverity := an_critical | an_high | an_medium | an_low.
Inductive Health := healthy | health_warning | health_critical | unknown.

(** [interface LogPattern], [interface LogAnomaly] *)
Record LogPattern := mkLogPattern {
  pattern : string; count : Z; severity : Severity; example : string
}.
Record LogAnomaly := mkLogAnomaly {
  an_description : string; an_severity : AnomalySeverity;
  timeRange : option string; detail : string
}.

(** [interface LogPatternRegex] has the fields of [PatternRegex], as which
    its values are handed to [mergeAIPatterns]. *)
Definition LogPatternRegex : Type := PatternStorage.PatternRegex.

(** [interface LogAnalysis] *)
Record LogAnalysis := mkLogAnalysis {
  summary : string;
  health : Health;
  patterns : list LogPattern;
  anomalies : list LogAnomaly;
  recommendations : list string;
  errorCount : Z;
  warningCount : Z;
  patternRegexes : option (list LogPatternRegex)
}.

(** [interface LogCacheData] *)
Record LogCacheData := mkLogCacheData {
  analysis : LogAnalysis;
  logLines : list string
}.

(** [getCacheKey]; an absent or empty [container] adds nothing. *)
Definition getCacheKey (namespace podName : string) (container : option string) : string :=
  "logs/" +:+ namespace +:+ "/" +:+ podName
  +:+ match container with
      | Some c => if String.eqb c "" then "" else "/" +:+ c
      | None => ""
      end.

Definition MIN_PATTERN_MATCHES : nat := 3.

(** [logs.split("\n")] *)
Fixpoint splitLines (s : string) (cur : string) : list string :=
  match s with
  | EmptyString => [cur]
  | String c s' =>
      if Ascii.eqb c "010" then cur :: splitLines s' EmptyString
      else splitLines s' (cur +:+ String c EmptyString)
  end.

(** [!logs.trim()]: the text holds white space only (on the characters of
    the ASCII range: tab, line feed, vertical tab, form feed, carriage
    return, space). *)
Definition isWhiteSpace (c : ascii) : bool :=
  let n := nat_of_ascii c in
  ((9 <=? n)%nat && (n <=? 13)%nat) || (n =? 32)%nat.

Definition isBlank (s : string) : bool := allChars isWhiteSpace s.

(** *** Log truncation *)

Definition MAX_LOG_CHARS : Z := 120000.
Definition MAX_LINE_LENGTH : Z := 2000.

(** [s.length] *)
Definition len (s : string) : Z := Z.of_nat (String.length s).

(** The line feed, as a separator. *)
Definition NL : string := String "010" EmptyString.

(** [s.slice(n)] for [0 <= n]. *)
Fixpoint sliceFrom (n : nat) (s : string) : string :=
  match n, s with
  | O, _ => s
  | S n', String _ s' => sliceFrom n' s'
  | S _, EmptyString => EmptyString
  end.

(** [s.indexOf(c)], [None] for -1. *)
Fixpoint indexOf (c : ascii) (s : string) : option nat :=
  match s with
  | EmptyString => None
  | String x s' => if Ascii.eqb x c then Some 0%nat else S <$> indexOf c s'
  end.

(** The notice put before truncated logs.  Its dash is one character of the
    source and three bytes here; the length of the notice plays no role. *)
Definition TRUNCATED_NOTICE : string :=
  "...[truncated — older logs exceeded size limit]" +:+ NL.

(** The function mapped over the lines. *)
Definition truncateLine (line : string) : string :=
  if MAX_LINE_LENGTH <? len line
  then String.substring 0 (Z.to_nat MAX_LINE_LENGTH) line +:+ " ...[truncated]"
  else line.

(** [truncateLogs(logs)].  [firstNL < MAX_LOG_CHARS * 0.2] is written
    [5 * firstNL < MAX_LOG_CHARS]: the product of the source is 24000
    exactly. *)
Definition truncateLogs (logs : string) : string :=
  let lines := splitLines logs EmptyString in
  let lines := List.map truncateLine lines in
  let result := join NL lines in
  if MAX_LOG_CHARS <? len result then
    let result := sliceFrom (String.length result - Z.to_nat MAX_LOG_CHARS) result in
    let result :=
      match indexOf "010" result with
      | Some firstNL =>
          if (0 <? Z.of_nat firstNL) && (5 * Z.of_nat firstNL <? MAX_LOG_CHARS)
          then sliceFrom (firstNL + 1) result
          else result
      | None => result
      end in
    TRUNCATED_NOTICE +:+ result
  else result.

(** [fetchPodLogs]: what [getLogs] settles to is given. *)
Definition fetchPodLogs (response : Outcome (option string)) : Outcome string :=
  match response with
  | Resolved logs => Resolved (truncateLogs (orElse logs ""))
  | Rejected e => Rejected e
  end.

(** The analysis returned when there are no logs. *)
Definition noLogs : LogAnalysis :=
  {| summary := "No logs available for this container.";
     health := unknown;
     patterns := [];
     anomalies := [];
     recommendations := ["Check if the container is running and producing output."];
     errorCount := 0;
     warningCount := 0;
     patternRegexes := None |}.

Section WithEngine.
Variable E : Engine.

(** The counting loop of [validatePatternRegexes], which returns [true] as
    soon as [matchCount] reaches [MIN_PATTERN_MATCHES] and [false] at the
    end of the lines. *)
Fixpoint countMatches (regex : RegExp E) (lines : list string) (matchCount : nat) : bool :=
  match lines with
  | [] => false
  | line :: lines' =>
      if safeRegexTest E regex line
      then if (MIN_PATTERN_MATCHES <=? S matchCount)%nat then true
           else countMatches regex lines' (S matchCount)
      else countMatches regex lines' matchCount
  end.

(** The predicate of the filter. *)
Definition keeps (lines : list string) (p : LogPatternRegex) : bool :=
  match safeRegex E (PatternStorage.pr_regex p) with
  | None => false
  | Some regex => countMatches regex lines 0
  end.

(** [validatePatternRegexes(patterns, logLines)] *)
Definition validatePatternRegexes (patterns : option (list LogPatternRegex))
    (lines : list string) : list LogPatternRegex :=
  match patterns with
  | None | Some [] => []
  | Some ps => List.filter (keeps lines) ps
  end.

(** [data.patternRegexes = validatePatternRegexes(...)] under its guard. *)
Definition withValidatedRegexes (data : LogAnalysis) (lines : list string) : LogAnalysis :=
  match patternRegexes data with
  | Some (p :: ps) =>
      {| summary := summary data; health := health data; patterns := patterns data;
         anomalies := anomalies data; recommendations := recommendations data;
         errorCount := errorCount data; warningCount := warningCount data;
         patternRegexes := Some (validatePatternRegexes (Some (p :: ps)) lines) |}
  | _ => data
  end.

(** [analyzeLogsFn(namespace, podName, container, model, force, signal)].
    What the awaited calls settle to is given: [logs] for [fetchPodLogs]
    and [backend] for the [retryWithBackoff] call that asks the model and
    parses its answer.  [cluster] is the active cluster, [ttl] the
    configured [logCacheTtlMs], [nowGet] and [nowSet] the clock at the
    cache read and write.  The result is paired with the cache after. *)
Definition analyzeLogsFn (cluster : string) (ttl nowGet nowSet : Z)
    (namespace podName : string) (container : option string) (force : bool)
    (logs : Outcome string) (backend : Outcome LogAnalysis)
    (cache : BoundedCache.t LogCacheData)
  : Outcome LogAnalysis * BoundedCache.t LogCacheData :=
  let cacheKey := getCacheKey namespace podName container in
  let '(cached, cache1) :=
    if force then (None, cache)
    else BoundedCache.get cluster ttl nowGet cacheKey cache in
  match cached with
  | Some (entry, _) => (Resolved (analysis entry), cache1)
  | None =>
      match logs with
      | Rejected e => (Rejected e, cache1)
      | Resolved logs =>
          if isBlank logs then (Resolved noLogs, cache1)
          else
            match backend with
            | Rejected e => (Rejected e, cache1)
            | Resolved data =>
                let lines := splitLines logs EmptyString in
                let data' := withValidatedRegexes data lines in
                (Resolved data',
                 BoundedCache.set cluster nowSet cacheKey
                   {| analysis := data'; logLines := lines |} cache1)
            end
      end
  end.

End WithEngine.

(** [getCachedLogLines(namespace, podName, container)], with the cache
    after the read. *)
Definition getCachedLogLines (cluster : string) (ttl now : Z)
    (namespace podName : string) (container : option string)
    (cache : BoundedCache.t LogCacheData)
  : list string * BoundedCache.t LogCacheData :=
  let key := getCacheKey namespace podName container in
  let '(entry, cache') := BoundedCache.get cluster ttl now key cache in
  (match entry with Some (d, _) => logLines d | None => [] end, cache').

End LogAnalyze.

(* ===================================================================== *)
(** ** stores/pattern-manager-store.ts *)
(* ===================================================================== *)

Module PatternManagerStore.
Import JsString RegExp PatternStorage LogAnalyze.

(** The predicate of [analysis.patterns.find] for the regex [pr]. *)
Definition describes (pr : LogPatternRegex) (p : LogPattern) : bool :=
  includes (lowercase (pattern p)) (lowercase (pr_label pr))
  || includes (lowercase (pr_label pr)) (lowercase (pattern p)).

(** The loop that builds the map of examples. *)
Definition buildExamples (analysis : LogAnalysis) (prs : list LogPatternRegex)
  : gmap string string :=
  fold_left (fun examples pr =>
               match List.find (describes pr) (patterns analysis) with
               | Some m => <[pr_regex pr := example m]> examples
               | None => examples
               end) prs ∅.

Section WithEngine.
Variable E : Engine.
Variable generateId : nat -> string.
Variable Date_now : nat -> Z.

(** [getStoredPatterns] *)
Definition getStoredPatterns (patternStore : PatternStore) (namespace : string)
    (workloadScope appIdentity : option string) : list StoredPattern :=
  getPatternsForScope patternStore namespace workloadScope appIdentity.

(** [updatePatternsFromAnalysis(namespace, analysis, workloadScope,
    appIdentity, podName, container)]: the pattern store and the log cache
    after the call. *)
Definition updatePatternsFromAnalysis (cluster : string) (ttl now : Z)
    (patternStore : PatternStore) (namespace : string) (analysis : LogAnalysis)
    (workloadScope appIdentity podName container : option string)
    (cache : BoundedCache.t LogCacheData)
  : PatternStore * BoundedCache.t LogCacheData :=
  match patternRegexes analysis with
  | None | Some [] => (patternStore, cache)
  | Some prs =>
      let scope := resolveScopeKey namespace workloadScope appIdentity in
      let examples := buildExamples analysis prs in
      let '(logLines, cache') :=
        match podName with
        | Some p => if truthy p
                    then getCachedLogLines cluster ttl now namespace p container cache
                    else ([], cache)
        | None => ([], cache)
        end in
      (mergeAIPatterns E generateId Date_now (Some examples) (Some logLines)
         patternStore scope prs, cache')
  end.

(** [removePattern(namespace, patternId, workloadScope, appIdentity)] *)
Definition removePattern (patternStore : PatternStore) (namespace patternId : string)
    (workloadScope appIdentity : option string) : PatternStore :=
  PatternStorage.removePattern patternStore
    (resolveScopeKey namespace workloadScope appIdentity) patternId.

End WithEngine.

End PatternManagerStore.

(* ===================================================================== *)
(** ** services/relationship-discovery.ts *)
(* ===================================================================== *)

Module RelationshipDiscovery.
Import JsString.
Import Retry (Outcome, Resolved, Rejected, JsError).

(** *** Cluster objects

    The functions take [any].  The objects are modelled as the Kubernetes
    API serves them, with the fields the code reads: an owner reference has
    a kind, a name and a uid; what the code guards with [?.] or [||] is
    optional. *)

Record OwnerReference := mkRef {
  ref_apiVersion : option string;
  ref_kind : string;
  ref_name : string;
  ref_uid : string
}.

Record Condition := mkCondition {
  cond_type : string;
  cond_status : string;
  cond_reason : option string
}.

Record KubeObject := mkObject {
  kind : option string;
  apiVersion : option string;
  name : option string;                      (* metadata.name *)
  namespace : option string;                 (* metadata.namespace *)
  uid : option string;                       (* metadata.uid *)
  ownerReferences : list OwnerReference;     (* metadata.ownerReferences *)
  phase : option string;                     (* status.phase *)
  conditions : list Condition;               (* status.conditions *)
  readyReplicas : option Z;                  (* status.readyReplicas *)
  replicas : option Z                        (* spec.replicas *)
}.

(** An object with none of these fields. *)
Definition bareObject : KubeObject :=
  {| kind := None; apiVersion := None; name := None; namespace := None;
     uid := None; ownerReferences := []; phase := None; conditions := [];
     readyReplicas := None; replicas := None |}.

(** [interface RelatedResource], [interface ResourceRelationships] *)
Record RelatedResource := mkRelated {
  rr_kind : string;
  rr_apiVersion : string;
  rr_name : option string;
  rr_namespace : option string;
  relationship : string;
  status : option string;
  detail : option string
}.

Record ResourceRelationships := mkRelationships {
  owners : list RelatedResource;
  children : list RelatedResource;
  selectorTargets : list RelatedResource;
  specReferences : list RelatedResource
}.

(** [interface APIResource] *)
Record APIResource := mkAPIResource {
  res_name : string;
  res_kind : option string;
  namespaced : bool
}.

(** What a GET answers: an object, a list with [items], a discovery
    document with [resources], or a falsy value. *)
Inductive Response :=
| RObject (o : KubeObject)
| RList (items : list KubeObject)
| RResources (resources : list APIResource)
| RNull.

(** The answer as the owner walk uses it: [None] when falsy; a list or a
    discovery document is an object without metadata or status. *)
Definition asObject (r : Response) : option KubeObject :=
  match r with
  | RObject o => Some o
  | RList _ | RResources _ => Some bareObject
  | RNull => None
  end.

(** [result?.items] *)
Definition itemsOf (r : Response) : option (list KubeObject) :=
  match r with RList items => Some items | _ => None end.

(** [result?.resources || []] *)
Definition resourcesOf (r : Response) : list APIResource :=
  match r with RResources rs => rs | _ => [] end.

(** *** Requests and their trace

    Every GET is recorded with the place that issued it: the owner walk,
    a batch of the child search (with the number of the batch), the group
    discovery of the supplemental pass, or a list request of that pass. *)

Inductive Site :=
| OwnerLookup
| ChildBatch (batch : nat)
| GroupDiscovery
| GroupList.

Record Request := mkRequest { site : Site; path : string }.

Definition Log := list Request.

(** A computation that issues requests. *)
Definition M (A : Type) : Type := Log -> A * Log.

Definition ret {A} (a : A) : M A := fun log => (a, log).
Definition bind {A B} (m : M A) (f : A -> M B) : M B :=
  fun log => let '(a, log') := m log in f a log'.

Declare Scope api_scope.
Delimit Scope api_scope with api.
Notation "x <- m ;; f" := (bind m (fun x => f))
  (at level 100, m at level 99, f at level 200, right associativity,
   only parsing) : api_scope.
Local Open Scope api_scope.

(** *** Status summarizers *)

Definition emDash : string := String "226" (String "128" (String "148" "")).

Definition isTrue (o : option string) : bool :=
  match o with Some s => truthy s | None => false end.

Definition summarizeStatus (obj : KubeObject) : string :=
  if (match kind obj with Some k => String.eqb k "Pod" | None => false end)
     || isTrue (phase obj)
  then orElse (phase obj) "Unknown"
  else
    match conditions obj with
    | _ :: _ =>
        match List.find (fun c => String.eqb (cond_type c) "Ready"
                                  || String.eqb (cond_type c) "Available")
                        (conditions obj) with
        | Some ready =>
            if String.eqb (cond_status ready) "True" then "Ready"
            else "NotReady (" +:+ orElse (cond_reason ready) "" +:+ ")"
        | None =>
            join ", " (List.map (fun c => cond_type c +:+ "=" +:+ cond_status c)
                                (conditions obj))
        end
    | [] =>
        match readyReplicas obj with
        | Some ready =>
            pretty ready +:+ "/"
            +:+ match replicas obj with Some d => pretty d | None => "?" end
            +:+ " ready"
        | None => emDash
        end
    end.

(** *** API path builder *)

Definition guessPluralName (kind : string) : string :=
  if String.eqb kind "Ingress" then "ingresses"
  else if String.eqb kind "NetworkPolicy" then "networkpolicies"
  else if String.eqb kind "Endpoints" then "endpoints"
  else if String.eqb kind "EndpointSlice" then "endpointslices"
  else
    let lower := lowercase kind in
    if endsWith lower "s" then lower
    else if endsWith lower "y" then dropLast lower +:+ "ies"
    else lower +:+ "s".

Definition buildResourcePath (apiVersion kind : string) (namespace : option string)
    (name : option string) : string :=
  let plural := guessPluralName kind in
  let basePath :=
    if negb (includes apiVersion "/") then "/api/" +:+ apiVersion
    else "/apis/" +:+ apiVersion in
  if isTrue namespace then
    if isTrue name
    then basePath +:+ "/namespaces/" +:+ orElse namespace "" +:+ "/" +:+ plural
         +:+ "/" +:+ orElse name ""
    else basePath +:+ "/namespaces/" +:+ orElse namespace "" +:+ "/" +:+ plural
  else
    if isTrue name
    then basePath +:+ "/" +:+ plural +:+ "/" +:+ orElse name ""
    else basePath +:+ "/" +:+ plural.

(** Well-known resource types that commonly have ownerReferences. *)
Record SearchPath := mkPath { groupVersion : string; resource : string; sp_kind : string }.

Definition CHILD_SEARCH_PATHS : list SearchPath :=
  [ (* Core *)
    mkPath "v1" "pods" "Pod";
    mkPath "v1" "services" "Service";
    mkPath "v1" "configmaps" "ConfigMap";
    mkPath "v1" "secrets" "Secret";
    mkPath "v1" "persistentvolumeclaims" "PersistentVolumeClaim";
    mkPath "v1" "events" "Event";
    (* Apps *)
    mkPath "apps/v1" "replicasets" "ReplicaSet";
    mkPath "apps/v1" "deployments" "Deployment";
    mkPath "apps/v1" "statefulsets" "StatefulSet";
    mkPath "apps/v1" "daemonsets" "DaemonSet";
    mkPath "apps/v1" "controllerrevisions" "ControllerRevision";
    (* Batch *)
    mkPath "batch/v1" "jobs" "Job";
    mkPath "batch/v1" "cronjobs" "CronJob";
    (* Networking *)
    mkPath "networking.k8s.io/v1" "ingresses" "Ingress";
    (* Autoscaling *)
    mkPath "autoscaling/v2" "horizontalpodautoscalers" "HorizontalPodAutoscaler";
    (* Policy *)
    mkPath "policy/v1" "poddisruptionbudgets" "PodDisruptionBudget";
    (* cert-manager *)
    mkPath "cert-manager.io/v1" "certificates" "Certificate";
    mkPath "cert-manager.io/v1" "certificaterequests" "CertificateRequest";
    mkPath "cert-manager.io/v1" "orders" "Order";
    mkPath "acme.cert-manager.io/v1" "orders" "Order";
    mkPath "acme.cert-manager.io/v1" "challenges" "Challenge" ].

Definition batchSize : nat := 5.

Section WithCluster.

(** The cluster: what [api.request.get(path)] answers, given the paths
    requested before ([None] when the request fails), and whether the 10 s
    timer of a batch fires before the batch is answered, given the paths
    requested up to the end of the batch. *)
Variable cluster : list string -> string -> option Response.
Variable batchTimeout : list string -> bool.

(** [getConfig()] *)
Variable config : Config.FreeLensAIConfig.

(** [apiGet(path)], [apiGetSafe(path)] *)
Definition apiGet (s : Site) (p : string) : M (option Response) :=
  fun log => (cluster (List.map path log) p, log ++ [mkRequest s p]).

Definition apiGetSafe (s : Site) (p : string) : M Response :=
  r <- apiGet s p ;;
  ret (match r with Some x => x | None => RNull end).

(** *** 1. Walk ownerReferences up *)

Definition resolveOwnerRef (ref : OwnerReference) (namespace : option string)
  : M Response :=
  let apiVersion := orElse (ref_apiVersion ref) "v1" in
  apiGetSafe OwnerLookup
    (buildResourcePath apiVersion (ref_kind ref) namespace (Some (ref_name ref))).

(** The state of the walk: the object [current]; whether it is still the
    very object the walk started from ([current === object], which no
    fetched object is); the owners pushed. *)
Record Walk := mkWalk {
  current : KubeObject;
  atStart : bool;
  pushed : list RelatedResource
}.

(** [for (const ref of refs)], [idx] being the position of [ref] in [refs]. *)
Fixpoint walkRefs (refs : list OwnerReference) (idx depth : nat) (w : Walk) : M Walk :=
  match refs with
  | [] => ret w
  | ref :: refs' =>
      let owner status :=
        {| rr_kind := ref_kind ref;
           rr_apiVersion := orElse (ref_apiVersion ref) "";
           rr_name := Some (ref_name ref);
           rr_namespace := namespace (current w);
           relationship :=
             if (depth =? 0)%nat then "direct owner"
             else "owner (depth " +:+ pretty (S depth) +:+ ")";
           status := status;
           detail := None |} in
      ownerObj <- resolveOwnerRef ref (namespace (current w)) ;;
      match asObject ownerObj with
      | Some o =>
          walkRefs refs' (S idx) depth
            {| current := if (idx =? 0)%nat then o else current w;
               atStart := if (idx =? 0)%nat then false else atStart w;
               pushed := pushed w ++ [owner (Some (summarizeStatus o))] |}
      | None =>
          walkRefs refs' (S idx) depth
            {| current := current w; atStart := atStart w;
               pushed := pushed w ++ [owner None] |}
      end
  end.

(** [for (let depth = 0; depth < maxDepth; depth++)], by recursion on the
    number of turns left. *)
Fixpoint walkDepths (turns depth : nat) (w : Walk) : M (list RelatedResource) :=
  match turns with
  | O => ret (pushed w)
  | S turns' =>
      match ownerReferences (current w) with
      | [] => ret (pushed w)
      | refs =>
          w' <- walkRefs refs 0 depth w ;;
          (* If we couldn't fetch the owner, stop walking *)
          if atStart w' && (depth =? 0)%nat then ret (pushed w')
          else walkDepths turns' (S depth) w'
      end
  end.

Definition walkOwnersUp (object : KubeObject) : M (list RelatedResource) :=
  let maxDepth := 5%nat in
  walkDepths maxDepth 0 {| current := object; atStart := true; pushed := [] |}.

(** *** 2. Find children *)

(** [(item.metadata?.ownerReferences || []).some((ref) => ref.uid === uid)] *)
Definition ownedBy (uid : string) (item : KubeObject) : bool :=
  existsb (fun ref => String.eqb (ref_uid ref) uid) (ownerReferences item).

Definition listPathOf (basePath : string) (namespace : option string) (resource : string)
  : string :=
  if isTrue namespace
  then basePath +:+ "/namespaces/" +:+ orElse namespace "" +:+ "/" +:+ resource
       +:+ "?limit=100"
  else basePath +:+ "/" +:+ resource +:+ "?limit=100".

(** One entry of a batch. *)
Definition searchOne (batch : nat) (uid : string) (ns : option string)
    (sp : SearchPath) : M (list RelatedResource) :=
  let basePath :=
    if includes (groupVersion sp) "/" then "/apis/" +:+ groupVersion sp
    else "/api/" +:+ groupVersion sp in
  result <- apiGetSafe (ChildBatch batch) (listPathOf basePath ns (resource sp)) ;;
  match itemsOf result with
  | None => ret []
  | Some items =>
      ret (List.map
             (fun item =>
                {| rr_kind := orElse (kind item) (sp_kind sp);
                   rr_apiVersion := groupVersion sp;
                   rr_name := name item;
                   rr_namespace := namespace item;
                   relationship := "child (owned)";
                   status := Some (summarizeStatus item);
                   detail := None |})
             (List.filter (ownedBy uid) items))
  end.

(** [Promise.all(batch.map(...))]: the requests of the batch are issued in
    the order of the batch. *)
Fixpoint searchAll (batch : nat) (uid : string) (ns : option string)
    (sps : list SearchPath) : M (list (list RelatedResource)) :=
  match sps with
  | [] => ret []
  | sp :: sps' =>
      r <- searchOne batch uid ns sp ;;
      rs <- searchAll batch uid ns sps' ;;
      ret (r :: rs)
  end.

(** The race of a batch against its timer: when the timer wins the results
    of the batch are dropped; its requests have been issued all the same. *)
Definition searchBatch (batch : nat) (uid : string) (ns : option string)
    (sps : list SearchPath) : M (list (list RelatedResource)) :=
  fun log =>
    let '(results, log') := searchAll batch uid ns sps log in
    if batchTimeout (List.map path log') then ([], log') else (results, log').

(** [for (let i = 0; i < CHILD_SEARCH_PATHS.length; i += batchSize)], by
    recursion on the number of turns left. *)
Fixpoint searchBatches (turns i : nat) (uid : string) (ns : option string)
    (children : list RelatedResource) : M (list RelatedResource) :=
  match turns with
  | O => ret children
  | S turns' =>
      if (i <? List.length CHILD_SEARCH_PATHS)%nat then
        let batch := firstn batchSize (skipn i CHILD_SEARCH_PATHS) in
        results <- searchBatch (i / batchSize) uid ns batch ;;
        let children' := children ++ List.concat results in
        if Config.maxRelationshipChildren config <=? Z.of_nat (List.length children')
        then ret children'
        else searchBatches turns' (i + batchSize) uid ns children'
      else ret children
  end.

(** [discoverGroupResources(groupVersion)] *)
Definition discoverGroupResources (groupVersion : string) : M (list APIResource) :=
  let basePath :=
    if includes groupVersion "/" then "/apis/" +:+ groupVersion
    else "/api/" +:+ groupVersion in
  result <- apiGet GroupDiscovery basePath ;;
  ret (match result with Some r => resourcesOf r | None => [] end).

(** [for (const res of namespacedResources.slice(0, 10))] *)
Fixpoint searchGroup (objApiVersion uid : string) (ns : option string)
    (resources : list APIResource) (children : list RelatedResource)
  : M (list RelatedResource) :=
  match resources with
  | [] => ret children
  | res :: resources' =>
      result <- apiGetSafe GroupList
                  (listPathOf ("/apis/" +:+ objApiVersion) ns (res_name res)) ;;
      match itemsOf result with
      | None => searchGroup objApiVersion uid ns resources' children
      | Some items =>
          let children' :=
            children ++
            List.map
              (fun item =>
                 {| rr_kind := orElse (res_kind res) (orElse (kind item) (res_name res));
                    rr_apiVersion := objApiVersion;
                    rr_name := name item;
                    rr_namespace := namespace item;
                    relationship := "child (owned)";
                    status := Some (summarizeStatus item);
                    detail := None |})
              (List.filter (ownedBy uid) items) in
          if Config.maxRelationshipChildren config <=? Z.of_nat (List.length children')
          then ret children'
          else searchGroup objApiVersion uid ns resources' children'
      end
  end.

Definition findChildren (object : KubeObject) : M (list RelatedResource) :=
  match uid object with
  | None => ret []
  | Some uid =>
      if negb (truthy uid) then ret [] else
      children <- searchBatches (List.length CHILD_SEARCH_PATHS) 0 uid
                    (namespace object) [] ;;
      let objApiVersion := orElse (apiVersion object) "" in
      if includes objApiVersion "/"
         && negb (startsWith objApiVersion "apps/")
         && negb (startsWith objApiVersion "batch/")
      then
        resources <- discoverGroupResources objApiVersion ;;
        let namespacedResources :=
          List.filter (fun r => namespaced r && negb (includes (res_name r) "/"))
                      resources in
        searchGroup objApiVersion uid (namespace object)
                    (firstn 10 namespacedResources) children
      else ret children
  end.

End WithCluster.

(** *** Main entry point *)

(** A promise that may reject, with the requests it issues. *)
Definition Async (A : Type) : Type := Log -> Outcome A * Log.

(** [p.catch(() => fallback)] *)
Definition catch {A} (p : Async A) (fallback : A) : Async A :=
  fun log =>
    match p log with
    | (Resolved a, log') => (Resolved a, log')
    | (Rejected _, log') => (Resolved fallback, log')
    end.

(** [await Promise.all([p1, p2, p3, p4])]: every promise runs; the result
    rejects when one of them does.  The four are taken one after the other;
    the order in which their requests interleave is not modelled. *)
Definition all4 {A} (p1 p2 p3 p4 : Async A) : Async (A * A * A * A) :=
  fun log =>
    let '(r1, log1) := p1 log in
    let '(r2, log2) := p2 log1 in
    let '(r3, log3) := p3 log2 in
    let '(r4, log4) := p4 log3 in
    match r1, r2, r3, r4 with
    | Resolved a1, Resolved a2, Resolved a3, Resolved a4 =>
        (Resolved (a1, a2, a3, a4), log4)
    | Rejected e, _, _, _
    | _, Rejected e, _, _
    | _, _, Rejected e, _
    | _, _, _, Rejected e => (Rejected e, log4)
    end.

(** The four discovery strategies as [discoverRelationships] sees them:
    functions of the object that return a promise.  They are left open
    here, so that the entry point is described for strategies that reject
    as well as for those that resolve, on any argument. *)
Record Strategies (Object : Type) := mkStrategies {
  s_walkOwnersUp : Object -> Async (list RelatedResource);
  s_findChildren : Object -> Async (list RelatedResource);
  s_resolveSelectorTargets : Object -> Async (list RelatedResource);
  s_resolveSpecReferences : Object -> Async (list RelatedResource)
}.
Arguments s_walkOwnersUp {Object}.
Arguments s_findChildren {Object}.
Arguments s_resolveSelectorTargets {Object}.
Arguments s_resolveSpecReferences {Object}.

Definition discoverRelationships {Object : Type} (S : Strategies Object)
    (object : Object) : Async ResourceRelationships :=
  fun log =>
    match all4 (catch (s_walkOwnersUp S object) [])
               (catch (s_findChildren S object) [])
               (catch (s_resolveSelectorTargets S object) [])
               (catch (s_resolveSpecReferences S object) []) log with
    | (Resolved (owners, children, selectorTargets, specReferences), log') =>
        (Resolved {| owners := owners; children := children;
                     selectorTargets := selectorTargets;
                     specReferences := specReferences |}, log')
    | (Rejected e, log') => (Rejected e, log')
    end.

(** A computation that cannot reject, as a promise. *)
Definition resolves {A} (m : M A) : Async A :=
  fun log => let '(a, log') := m log in (Resolved a, log').

End RelationshipDiscovery.

(* ===================================================================== *)
(** * Vocabulary of the properties and sample runs *)
(* ===================================================================== *)

Module BoundedCacheRuns.
Import BoundedCache.

(** The key of a [set] call given as (key, data, clock). *)
Definition opKey {T : Type} (op : string * T * Z) : string := fst (fst op).

(** Three insertions, and a cache of capacity 2 filled by two. *)
Definition three_sets : list (string * nat * Z) :=
  [("a", 1%nat, 100); ("b", 2%nat, 101); ("c", 3%nat, 102)].

Definition full_cache : t nat :=
  setAll "kind" [("a", 1%nat, 100); ("b", 2%nat, 101)] (new 2).

(** A call on the shared cache, with the cluster that is active when it is
    made: [set(key, data)] at a clock, [get(key)] at a TTL and a clock,
    [delete(key)], [clear()]. *)
Inductive Call (T : Type) :=
| CallSet (cluster key : string) (d : T) (now : Z)
| CallGet (cluster key : string) (ttl now : Z)
| CallDelete (cluster key : string)
| CallClear.
Arguments CallSet {T}.
Arguments CallGet {T}.
Arguments CallDelete {T}.
Arguments CallClear {T}.

Definition call {T : Type} (c : t T) (op : Call T) : t T :=
  match op with
  | CallSet cluster key d now => set cluster now key d c
  | CallGet cluster key ttl now => snd (get cluster ttl now key c)
  | CallDelete cluster key => delete cluster key c
  | CallClear => clear c
  end.

Definition calls {T : Type} (ops : list (Call T)) (c : t T) : t T :=
  fold_left call ops c.

(** A cluster identifier without a colon. *)
Definition colonFree (s : string) : bool :=
  JsString.allChars (fun ch => negb (Ascii.eqb ch ":")) s.

(** The two invariants of the cache: no key twice, and no more entries
    than the capacity. *)
Definition bounded {T : Type} (c : t T) : Prop :=
  Map_wf (map c) /\ size c <= maxSize c.

End BoundedCacheRuns.

Module RetryRuns.
Import Retry.

(** The trace after one invocation of the operation followed by a wait. *)
Definition advance (tr : Trace) (delay : Z) : Trace :=
  {| invocations := S (invocations tr); refreshes := refreshes tr;
     waits := waits tr ++ [delay]; tick := S (S (tick tr)) |}.

(** Errors with an HTTP status, and operations that fail with them: [flaky]
    rejects twice with 503 and then yields 42, [denied] always rejects with
    403, [expiredOnce] rejects once with 401 and then yields 7. *)
Definition overloaded : JsError :=
  {| err_name := "Error"; err_status := Some 503; err_statusCode := None;
     err_code := None |}.

Definition forbidden : JsError :=
  {| err_name := "Error"; err_status := Some 403; err_statusCode := None;
     err_code := None |}.

Definition flaky (k : nat) : Outcome Z :=
  match k with
  | 0%nat | 1%nat => Rejected overloaded
  | _ => Resolved 42
  end.

Definition denied (k : nat) : Outcome Z := Rejected forbidden.

Definition unauthorized : JsError :=
  {| err_name := "Error"; err_status := Some 401; err_statusCode := None;
     err_code := None |}.

Definition expiredOnce (k : nat) : Outcome Z :=
  match k with 0%nat => Rejected unauthorized | _ => Resolved 7 end.

(** An error that the retry loop takes as transient: not an abort, and with
    a status of 429, 503 or 529 or with no status at all. *)
Definition transient (err : JsError) : Prop :=
  err_name err <> "AbortError"
  /\ (statusOf err = Some 429 \/ statusOf err = Some 503 \/ statusOf err = Some 529
      \/ statusOf err = None).

(** The trace after [k] failed attempts with a backoff wait after each. *)
Fixpoint backedOff (k : nat) : Trace :=
  match k with
  | O => start
  | S k' => advance (backedOff k') (delayFor k')
  end.

Definition alwaysOverloaded (k : nat) : Outcome Z := Rejected overloaded.

Definition serverError : JsError :=
  {| err_name := "Error"; err_status := Some 500; err_statusCode := None;
     err_code := None |}.

End RetryRuns.

Module ConfigRuns.
Import Config.

(** A persisted [logTailLines] of 5 is below the range [10, 10000]. *)
Definition tail5 : gmap string JsValue := {[ "logTailLines" := VNumber (inject_Z 5) ]}.

End ConfigRuns.

Module SafeRegexRuns.
Import RegExp SafeRegex.


End SafeRegexRuns.

Module PatternStorageRuns.
Import RegExp SafeRegex PatternStorage.

(** An identifier generator and a clock. *)
Definition ids (k : nat) : string := "id" +:+ String (ascii_of_nat (48 + k)) "".

Definition clock (k : nat) : Z := 1000 + Z.of_nat k.

Fixpoint repeatChar (n : nat) (c : ascii) : string :=
  match n with O => "" | S n' => String c (repeatChar n' c) end.

(** A candidate of 501 letters: longer than [MAX_REGEX_LENGTH], and a
    well-formed regex. *)
Definition longCandidate : PatternRegex :=
  {| pr_regex := repeatChar 501 "a"; pr_level := error;
     pr_label := "long"; pr_description := "d" |}.

(** A candidate that is not a well-formed regex. *)
Definition brokenCandidate : PatternRegex :=
  {| pr_regex := "(oom"; pr_level := critical;
     pr_label := "broken"; pr_description := "d" |}.

(** The candidate of the spec's example. *)
Definition oomCandidate : PatternRegex :=
  {| pr_regex := "OOM"; pr_level := critical; pr_label := "OOM"; pr_description := "d" |}.

(** A stored pattern with a given regex and hit count, and three log lines. *)
Definition stored (rx : string) (hits : Z) : StoredPattern :=
  {| sp_id := "p-" +:+ rx; sp_label := rx; sp_regex := rx; sp_level := error;
     sp_discoveredAt := 1; sp_hitCount := hits; sp_description := "";
     sp_example := "" |}.

Definition recentLines : list string :=
  ["12:00 OOM killed process 1"; "12:01 oom again"; "12:02 all good"].

(** A stored pattern after further merges: the same pattern (identifier,
    regex, level, discovery time, example), with at least as many hits. *)
Definition evolves (old new : StoredPattern) : Prop :=
  sp_id new = sp_id old /\ sp_regex new = sp_regex old
  /\ sp_level new = sp_level old /\ sp_discoveredAt new = sp_discoveredAt old
  /\ sp_example new = sp_example old
  /\ sp_hitCount old <= sp_hitCount new.

(** The regexes of a scope of a store, none when the scope is missing. *)
Definition scopeOf (store : PatternStore) (scope : string) : list StoredPattern :=
  match scopes store !! scope with Some l => l | None => [] end.

(** [a] goes before [b], or ties with it, in the order of the cap: more
    hits first, and among equal hits the later discovery first. *)
Definition ranksBefore (a b : StoredPattern) : Prop :=
  sp_hitCount b < sp_hitCount a
  \/ (sp_hitCount a = sp_hitCount b /\ sp_discoveredAt b <= sp_discoveredAt a).

(** A text without a hyphen. *)
Definition noDash (s : string) : bool :=
  JsString.allChars (fun c => negb (Ascii.eqb c "-")) s.

(** A store with two scopes, and candidates that repeat a regex. *)
Definition sampleStore : PatternStore :=
  {| version := 1; updatedAt := 0;
     scopes := {[ "deploy:web" := [stored "timeout" 4; stored "OOM" 2];
                  "global" := [stored "OOM" 9; stored "panic" 1] ]} |}.

Definition diskCandidate : PatternRegex :=
  {| pr_regex := "disk full"; pr_level := error; pr_label := "disk";
     pr_description := "d" |}.

(** Fifty-one patterns with hit counts 0 to 50. *)
Definition manyPatterns : list StoredPattern :=
  List.map (fun k => stored (repeatChar (S k) "a") (Z.of_nat k)) (seq 0 51).

(** A pod owned by a ReplicaSet, as its controller, and by something else. *)
Definition ownedPod : Pod :=
  {| labels := ∅;
     podOwners := [ mkPodOwner (Some "Widget") (Some "w-1") false;
                    mkPodOwner (Some "ReplicaSet") (Some "web-api-7f9c8d6b5") true ] |}.

End PatternStorageRuns.

Module LogAnalyzeRuns.
Import RegExp SafeRegex PatternStorage LogAnalyze.
Import Retry (Outcome, Resolved, Rejected).

(** The regexes an analysis carries, none when the field is missing. *)
Definition regexesOf (data : LogAnalysis) : list LogPatternRegex :=
  match patternRegexes data with Some ps => ps | None => [] end.

(** Four log lines, and a backend answer with three regexes. *)
Definition fourLines : string :=
  "timeout a" +:+ String "010" "Timeout b" +:+ String "010" "oom"
  +:+ String "010" "read TIMEOUT".

Definition rx (r : string) : LogPatternRegex :=
  {| pr_regex := r; pr_level := error; pr_label := r; pr_description := "" |}.

Definition answer : LogAnalysis :=
  {| summary := "s"; health := health_warning; patterns := []; anomalies := [];
     recommendations := []; errorCount := 3; warningCount := 0;
     patternRegexes := Some [rx "timeout"; rx "oom"; rx "(a+)+"] |}.

End LogAnalyzeRuns.

Module RelationshipDiscoveryRuns.
Import JsString RelationshipDiscovery.
Import Retry (Outcome, Resolved, Rejected, JsError).

(** What a settled strategy contributes to its category. *)
Definition orEmpty (o : Outcome (list RelatedResource)) : list RelatedResource :=
  match o with Resolved l => l | Rejected _ => [] end.

(** A pod owned by a ReplicaSet that is owned by a Deployment. *)
Definition deploymentRef : OwnerReference :=
  {| ref_apiVersion := Some "apps/v1"; ref_kind := "Deployment";
     ref_name := "web"; ref_uid := "uid-deploy" |}.

Definition replicaSetRef : OwnerReference :=
  {| ref_apiVersion := Some "apps/v1"; ref_kind := "ReplicaSet";
     ref_name := "web-7f9c8d6b5"; ref_uid := "uid-rs" |}.

Definition replicaSet : KubeObject :=
  {| kind := Some "ReplicaSet"; apiVersion := Some "apps/v1";
     name := Some "web-7f9c8d6b5"; namespace := Some "default";
     uid := Some "uid-rs"; ownerReferences := [deploymentRef];
     phase := None; conditions := []; readyReplicas := Some 3; replicas := Some 3 |}.

Definition pod : KubeObject :=
  {| kind := Some "Pod"; apiVersion := Some "v1";
     name := Some "web-7f9c8d6b5-x2x4q"; namespace := Some "default";
     uid := Some "uid-pod"; ownerReferences := [replicaSetRef];
     phase := Some "Running"; conditions := []; readyReplicas := None;
     replicas := None |}.

(** A cluster that serves the ReplicaSet and fails every other request (the
    Deployment cannot be read, say for lack of permission). *)
Definition onlyReplicaSet (before : list string) (p : string) : option Response :=
  if String.eqb p "/apis/apps/v1/namespaces/default/replicasets/web-7f9c8d6b5"
  then Some (RObject replicaSet) else None.

(** The entry the walk pushes for a reference of that chain. *)
Definition ownerEntry (ref : OwnerReference) (label : string) (st : option string)
  : RelatedResource :=
  {| rr_kind := ref_kind ref; rr_apiVersion := "apps/v1";
     rr_name := Some (ref_name ref); rr_namespace := Some "default";
     relationship := label; status := st; detail := None |}.

(** The batch a request belongs to, if it is one of the child search over
    the well-known list. *)
Definition batchOf (s : Site) : option nat :=
  match s with ChildBatch b => Some b | _ => None end.

Definition isGroupList (s : Site) : bool :=
  match s with GroupList => true | _ => false end.

Definition isGroupDiscovery (s : Site) : bool :=
  match s with GroupDiscovery => true | _ => false end.

(** The batches of the well-known list that issued a request, the number
    of requests of one batch, of all batches, and of the supplemental pass
    over the object's API group. *)
Definition batchesIssued (sites : list Site) : list nat :=
  remove_dups (omap batchOf sites).

Definition requestsInBatch (b : nat) (sites : list Site) : nat :=
  length (List.filter (fun s => match batchOf s with
                                | Some b' => (b' =? b)%nat
                                | None => false
                                end) sites).

Definition builtinRequests (sites : list Site) : nat :=
  length (omap batchOf sites).

Definition groupListRequests (sites : list Site) : nat :=
  length (List.filter isGroupList sites).

Definition groupDiscoveryRequests (sites : list Site) : nat :=
  length (List.filter isGroupDiscovery sites).

(** The sites of the requests of batch [j], and of [k] batches from [j] on. *)
Definition batchSites (j : nat) : list Site :=
  repeat (ChildBatch j)
         (length (firstn batchSize (skipn (batchSize * j) CHILD_SEARCH_PATHS))).

Definition sitesOfBatches (j k : nat) : list Site :=
  flat_map batchSites (seq j k).

(** The sites of the supplemental pass: a discovery request and [n] list
    requests, or nothing. *)
Definition supplementalSites (discovered : bool) (n : nat) : list Site :=
  if discovered then GroupDiscovery :: repeat GroupList n else [].

(** Strategies for a sample call of the entry point: the owner walk of the
    model on the cluster above, a child search that rejects, and two
    strategies that find nothing. *)
Definition typeError : JsError :=
  {| Retry.err_name := "TypeError"; Retry.err_status := None;
     Retry.err_statusCode := None; Retry.err_code := None |}.

Definition sampleStrategies : Strategies KubeObject :=
  {| s_walkOwnersUp := fun o => resolves (walkOwnersUp onlyReplicaSet o);
     s_findChildren := fun _ log => (Rejected typeError, log);
     s_resolveSelectorTargets := fun _ => resolves (ret []);
     s_resolveSpecReferences := fun _ => resolves (ret []) |}.

(** A Deployment with a uid. *)
Definition deployment : KubeObject :=
  {| kind := Some "Deployment"; apiVersion := Some "apps/v1";
     name := Some "web"; namespace := Some "default";
     uid := Some "uid-deploy"; ownerReferences := [];
     phase := None; conditions := []; readyReplicas := Some 3; replicas := Some 3 |}.

(** A cluster in which every list is empty, and no timer fires. *)
Definition emptyCluster (before : list string) (p : string) : option Response :=
  Some (RList []).

Definition noTimeout (before : list string) : bool := false.

(** A chain of owners as a cluster serves it: each object has one owner
    reference, which the cluster resolves to the next object, up to an
    object without owner. *)
Inductive Chain (cluster : list string -> string -> option Response)
  : KubeObject -> list (OwnerReference * KubeObject) -> Prop :=
| Chain_top (o : KubeObject) :
    ownerReferences o = [] -> Chain cluster o []
| Chain_step (o : KubeObject) (ref : OwnerReference) (owner : KubeObject)
    (rest : list (OwnerReference * KubeObject)) :
    ownerReferences o = [ref] ->
    (forall before,
       cluster before
         (buildResourcePath (orElse (ref_apiVersion ref) "v1") (ref_kind ref)
            (namespace o) (Some (ref_name ref)))
       = Some (RObject owner)) ->
    Chain cluster owner rest ->
    Chain cluster o ((ref, owner) :: rest).

(** The label of an owner found at [depth]. *)
Definition levelLabel (depth : nat) : string :=
  if (depth =? 0)%nat then "direct owner"
  else "owner (depth " +:+ pretty (S depth) +:+ ")".

(** The entries and the requests of a walk up a chain from [child]. *)
Fixpoint chainEntries (child : KubeObject) (chain : list (OwnerReference * KubeObject))
    (depth : nat) : list RelatedResource :=
  match chain with
  | [] => []
  | (ref, owner) :: rest =>
      {| rr_kind := ref_kind ref; rr_apiVersion := orElse (ref_apiVersion ref) "";
         rr_name := Some (ref_name ref); rr_namespace := namespace child;
         relationship := levelLabel depth; status := Some (summarizeStatus owner);
         detail := None |}
      :: chainEntries owner rest (S depth)
  end.

Fixpoint chainRequests (child : KubeObject) (chain : list (OwnerReference * KubeObject))
  : list Request :=
  match chain with
  | [] => []
  | (ref, owner) :: rest =>
      mkRequest OwnerLookup
        (buildResourcePath (orElse (ref_apiVersion ref) "v1") (ref_kind ref)
           (namespace child) (Some (ref_name ref)))
      :: chainRequests owner rest
  end.

(** A cluster that serves the ReplicaSet and the Deployment. *)
Definition bothOwners (before : list string) (p : string) : option Response :=
  if String.eqb p "/apis/apps/v1/namespaces/default/replicasets/web-7f9c8d6b5"
  then Some (RObject replicaSet)
  else if String.eqb p "/apis/apps/v1/namespaces/default/deployments/web"
  then Some (RObject deployment)
  else None.

(** A child as the cluster serves it: an item of a list answered by the
    cluster that names [uid] among its owner references, with the name,
    namespace and status of that item. *)
Definition servedChild (cluster : list string -> string -> option Response)
    (uid : string) (c : RelatedResource) : Prop :=
  exists before path items item,
    cluster before path = Some (RList items)
    /\ item ∈ items /\ ownedBy uid item = true
    /\ rr_name c = name item /\ rr_namespace c = namespace item
    /\ relationship c = "child (owned)"
    /\ status c = Some (summarizeStatus item).

(** A second pod, of another owner, and a cluster whose pod list holds both
    pods; its other lists are empty. *)
Definition otherPod : KubeObject :=
  {| kind := Some "Pod"; apiVersion := Some "v1";
     name := Some "db-0"; namespace := Some "default";
     uid := Some "uid-db"; ownerReferences := [];
     phase := Some "Pending"; conditions := []; readyReplicas := None;
     replicas := None |}.

Definition twoPods (before : list string) (p : string) : option Response :=
  if String.eqb p "/api/v1/namespaces/default/pods?limit=100"
  then Some (RList [otherPod; pod]) else Some (RList []).

End RelationshipDiscoveryRuns.

(* ===================================================================== *)
(** * Properties *)
(* ===================================================================== *)

(** ** Strings *)

Lemma append_inj_r (p a b : string) : p +:+ a = p +:+ b -> a = b.
Proof.
  induction p as [|c p IH]; simpl; intros H; [exact H|].
  injection H as H. exact (IH H).
Qed.

(** ** Bounded cache *)

Module BoundedCacheSpec.
Import BoundedCache.
Import BoundedCacheRuns.

Section Facts.
Context {T : Type}.
Implicit Types (m : JsMap T) (c : t T) (k : string) (e : CacheEntry T).

Lemma scopedKey_inj cluster k1 k2 :
  scopedKey cluster k1 = scopedKey cluster k2 -> k1 = k2.
Proof.
  unfold scopedKey. intros H.
  apply append_inj_r in H. simpl in H. now injection H.
Qed.

Lemma Map_get_None m k : Map_get k m = None <-> k ∉ keys m.
Proof.
  induction m as [|[k' e'] m IH]; simpl.
  - split; [intros _; apply not_elem_of_nil | reflexivity].
  - destruct (String.eqb_spec k' k) as [->|Hne].
    + split; [discriminate | intros H; exfalso; apply H; left].
    + rewrite IH, not_elem_of_cons. split; [intros H; split; congruence | tauto].
Qed.

Lemma Map_delete_absent m k : k ∉ keys m -> Map_delete k m = m.
Proof.
  induction m as [|[k' e'] m IH]; simpl; [reflexivity|].
  rewrite not_elem_of_cons. intros [Hne Hni].
  destruct (String.eqb_spec k' k); [congruence|]. now rewrite IH.
Qed.

(** Deleting the first key of a well-formed map drops exactly the head. *)
Lemma Map_delete_head m k e : Map_wf ((k, e) :: m) -> Map_delete k ((k, e) :: m) = m.
Proof.
  unfold Map_wf. simpl. rewrite NoDup_cons. intros [Hni _].
  rewrite String.eqb_refl. now apply Map_delete_absent.
Qed.

Lemma Map_set_fresh m k e : k ∉ keys m -> Map_set k e m = m ++ [(k, e)].
Proof.
  induction m as [|[k' e'] m IH]; simpl; [reflexivity|].
  rewrite not_elem_of_cons. intros [Hne Hni].
  destruct (String.eqb_spec k' k); [congruence|]. now rewrite IH.
Qed.

Lemma Map_set_keys_present m k e : k ∈ keys m -> keys (Map_set k e m) = keys m.
Proof.
  induction m as [|[k' e'] m IH]; simpl; [intros H; inversion H|].
  destruct (String.eqb_spec k' k) as [->|Hne]; [reflexivity|].
  rewrite elem_of_cons. intros [Heq|Hin]; [congruence|].
  simpl. now rewrite IH.
Qed.

Lemma Map_get_set_same m k e : Map_get k (Map_set k e m) = Some e.
Proof.
  induction m as [|[k' e'] m IH]; simpl.
  - now rewrite String.eqb_refl.
  - destruct (String.eqb_spec k' k) as [->|Hne]; simpl.
    + now rewrite String.eqb_refl.
    + destruct (String.eqb_spec k' k); [congruence|exact IH].
Qed.

(** Below capacity the loop does not run. *)
Lemma evict_below maxSize m : Map_size m < maxSize -> evict maxSize m = m.
Proof.
  unfold evict. intros H. destruct (length m); simpl; [reflexivity|].
  destruct (Z.leb_spec maxSize (Map_size m)); [lia|reflexivity].
Qed.

(** At capacity (and with a positive capacity) exactly one turn runs: the
    first-inserted entry goes and the loop stops. *)
Lemma evict_at_capacity maxSize m k e :
  Map_wf ((k, e) :: m) -> Map_size ((k, e) :: m) = maxSize ->
  evict maxSize ((k, e) :: m) = m.
Proof.
  intros Hwf Hsz. unfold evict.
  change (length ((k, e) :: m)) with (S (length m)).
  cbn [evictLoop firstKey].
  destruct (Z.leb_spec maxSize (Map_size ((k, e) :: m))); [|lia].
  rewrite (Map_delete_head _ _ _ Hwf).
  assert (Hlt : Map_size m < maxSize).
  { unfold Map_size in *. simpl length in Hsz. lia. }
  destruct (length m); simpl; [reflexivity|].
  destruct (Z.leb_spec maxSize (Map_size m)); [lia|reflexivity].
Qed.

(** The loop always ends within its fuel: more fuel changes nothing. *)
Lemma evict_fuel maxSize m n :
  Map_wf m -> (length m <= n)%nat -> evictLoop n maxSize m = evict maxSize m.
Proof.
  unfold evict. revert m. induction n as [|n IH]; intros m Hwf Hn.
  - destruct m; [reflexivity | simpl in Hn; lia].
  - destruct m as [|[k e] m]; simpl.
    + destruct (maxSize <=? Map_size []); reflexivity.
    + destruct (maxSize <=? Map_size ((k, e) :: m)); [|reflexivity].
      rewrite String.eqb_refl.
      assert (Hm : Map_delete k m = m).
      { apply Map_delete_absent. unfold Map_wf in Hwf. simpl in Hwf.
        now apply NoDup_cons in Hwf as [? _]. }
      rewrite Hm. apply IH.
      * unfold Map_wf in *. simpl in Hwf. now apply NoDup_cons in Hwf as [_ ?].
      * simpl in Hn. lia.
Qed.

(** One [set] of a key that is not cached. *)
Lemma set_fresh_below cluster now k d c :
  size c < maxSize c -> scopedKey cluster k ∉ keys (map c) ->
  map (set cluster now k d c)
  = map c ++ [(scopedKey cluster k, {| timestamp := now; data := d |})].
Proof.
  intros Hlt Hni. unfold set; simpl.
  rewrite (evict_below _ _ Hlt). now apply Map_set_fresh.
Qed.

Lemma set_fresh_at_capacity cluster now k d c :
  Map_wf (map c) -> 1 <= maxSize c -> size c = maxSize c ->
  scopedKey cluster k ∉ keys (map c) ->
  map (set cluster now k d c)
  = tl (map c) ++ [(scopedKey cluster k, {| timestamp := now; data := d |})].
Proof.
  intros Hwf Hpos Hsz Hni. unfold set; simpl.
  destruct c as [m mx]; simpl in *.
  destruct m as [|[k0 e0] m].
  - unfold size, Map_size in Hsz. simpl in Hsz. lia.
  - rewrite (evict_at_capacity _ _ _ _ Hwf Hsz). simpl.
    apply Map_set_fresh. simpl in Hni. rewrite not_elem_of_cons in Hni. tauto.
Qed.

(** Filling a cache that has room: the new keys are appended in order. *)
Lemma setAll_below cluster ops : forall c,
  NoDup (keys (map c) ++ List.map (fun op => scopedKey cluster (opKey op)) ops) ->
  size c + Z.of_nat (length ops) <= maxSize c ->
  keys (map (setAll cluster ops c))
  = keys (map c) ++ List.map (fun op => scopedKey cluster (opKey op)) ops
  /\ maxSize (setAll cluster ops c) = maxSize c.
Proof.
  induction ops as [|[[k d] now] ops IH]; intros c Hnd Hsz; simpl.
  - now rewrite app_nil_r.
  - simpl in Hnd. unfold opKey at 1 in Hnd. simpl in Hnd.
    assert (Hni : scopedKey cluster k ∉ keys (map c)).
    { apply NoDup_app in Hnd as (_ & Hdis & _). intros Hin.
      apply (Hdis _ Hin). left. }
    assert (Hmap : keys (map (set cluster now k d c))
                   = keys (map c) ++ [scopedKey cluster k]).
    { rewrite set_fresh_below; [|simpl length in Hsz; lia|exact Hni].
      unfold keys. now rewrite map_app. }
    destruct (IH (set cluster now k d c)) as [IH1 IH2].
    + rewrite Hmap, <- app_assoc. exact Hnd.
    + unfold size, Map_size. change (maxSize (set cluster now k d c)) with (maxSize c).
      assert (Hl : length (map (set cluster now k d c)) = S (length (map c))).
      { rewrite <- (length_map fst (map (set cluster now k d c))).
        change (List.map fst (map (set cluster now k d c)))
          with (keys (map (set cluster now k d c))).
        rewrite Hmap, length_app. unfold keys. rewrite length_map. simpl. lia. }
      rewrite Hl. unfold size, Map_size in Hsz. simpl length in Hsz. lia.
    + unfold opKey at 2. simpl. rewrite IH1, IH2, Hmap, <- app_assoc. now split.
Qed.

Lemma setAll_app cluster ops1 ops2 c :
  setAll cluster (ops1 ++ ops2) c = setAll cluster ops2 (setAll cluster ops1 c).
Proof. unfold setAll. apply fold_left_app. Qed.

Lemma NoDup_scoped cluster (ks : list string) :
  NoDup ks -> NoDup (List.map (scopedKey cluster) ks).
Proof.
  induction 1 as [|k ks Hni Hnd IH]; simpl; constructor; [|exact IH].
  intros Hin. apply Hni. apply list_elem_of_In in Hin. apply in_map_iff in Hin.
  destruct Hin as (k' & Heq & Hin). apply scopedKey_inj in Heq. subst k'.
  now apply list_elem_of_In.
Qed.

Lemma size_keys m : Map_size m = Z.of_nat (length (keys m)).
Proof. unfold Map_size, keys. now rewrite length_map. Qed.

(** A hit within the TTL leaves the cache as it was: reading an entry does
    not move it, so eviction goes by insertion order. *)
Lemma get_hit_unchanged cluster ttl now k c r :
  fst (get cluster ttl now k c) = Some r -> snd (get cluster ttl now k c) = c.
Proof.
  unfold get. destruct (Map_get _ _) as [entry|]; simpl; [|discriminate].
  destruct (ttl <? now - timestamp entry); simpl; [discriminate|reflexivity].
Qed.

(** C6. Inserting [maxSize + 1] distinct keys into a new cache of capacity
    [maxSize] (at least 1), with one active cluster and no reads in
    between, leaves exactly [maxSize] entries: the first-inserted key is
    gone ([get] misses it) and the others are cached in insertion order.
    More generally a [set] of a new key into a cache at capacity removes
    the head of the insertion order, and only it, before appending; a
    [get] that hits does not change that order. *)
Theorem C6_overflow_evicts_first_inserted
    (cluster : string) (capacity : Z)
    (first : string * T * Z) (rest : list (string * T * Z)) :
  1 <= capacity ->
  Z.of_nat (length rest) = capacity ->
  NoDup (List.map opKey (first :: rest)) ->
  let c := setAll cluster (first :: rest) (new capacity) in
  size c = capacity
  /\ Map_get (scopedKey cluster (opKey first)) (map c) = None
  /\ (forall ttl now, fst (get cluster ttl now (opKey first) c) = None)
  /\ keys (map c) = List.map (fun op => scopedKey cluster (opKey op)) rest
  /\ (forall c0 now k d,
        Map_wf (map c0) -> 1 <= maxSize c0 -> size c0 = maxSize c0 ->
        Map_get (scopedKey cluster k) (map c0) = None ->
        map (set cluster now k d c0)
        = tl (map c0) ++ [(scopedKey cluster k, {| timestamp := now; data := d |})])
  /\ (forall c0 ttl now k r,
        fst (get cluster ttl now k c0) = Some r ->
        snd (get cluster ttl now k c0) = c0).
Proof.
  intros Hpos Hlen Hnd c.
  assert (Hstep : forall c0 now k d,
        Map_wf (map c0) -> 1 <= maxSize c0 -> size c0 = maxSize c0 ->
        Map_get (scopedKey cluster k) (map c0) = None ->
        map (set cluster now k d c0)
        = tl (map c0) ++ [(scopedKey cluster k, {| timestamp := now; data := d |})]).
  { intros c0 now k d Hwf H1 Hsz Hget. apply set_fresh_at_capacity; try assumption.
    now apply Map_get_None. }
  assert (Hkeys : keys (map c) = List.map (fun op => scopedKey cluster (opKey op)) rest).
  { destruct (exists_last (l := rest)) as (init & [[kl dl] nowl] & ->).
    { intros ->. simpl in Hlen. lia. }
    subst c. change (first :: init ++ [(kl, dl, nowl)])
      with ((first :: init) ++ [(kl, dl, nowl)]).
    rewrite setAll_app.
    rewrite app_comm_cons, map_app in Hnd.
    assert (Hnds : NoDup (List.map (scopedKey cluster)
                            (List.map opKey (first :: init) ++ [kl]))).
    { apply NoDup_scoped. exact Hnd. }
    rewrite map_app, map_map in Hnds.
    destruct (setAll_below cluster (first :: init) (new capacity)) as [Hk1 Hm1].
    { apply NoDup_app in Hnds as (Hn & _ & _). exact Hn. }
    { unfold size, Map_size. rewrite length_app in Hlen.
      simpl length in *. simpl. lia. }
    remember (setAll cluster (first :: init) (new capacity)) as c1 eqn:Hc1.
    clear Hc1.
    change (keys (map (new capacity))) with (@nil string) in Hk1.
    rewrite app_nil_l in Hk1.
    change (maxSize (new capacity)) with capacity in Hm1.
    change (setAll cluster [(kl, dl, nowl)] c1) with (set cluster nowl kl dl c1).
    rewrite Hstep.
    - unfold keys in *. rewrite !map_app. f_equal.
      destruct (map c1) as [|e1 m1]; [discriminate|].
      simpl in Hk1. injection Hk1 as _ Hk1. exact Hk1.
    - unfold Map_wf. rewrite Hk1. now apply NoDup_app in Hnds as (Hn & _ & _).
    - lia.
    - rewrite Hm1. unfold size. rewrite size_keys, Hk1, length_map.
      rewrite length_app in Hlen. simpl length in *. lia.
    - apply Map_get_None. rewrite Hk1.
      apply NoDup_app in Hnds as (_ & Hdis & _). intros Hin.
      apply (Hdis _ Hin). left. }
  repeat split.
  - unfold size. rewrite size_keys, Hkeys, length_map. exact Hlen.
  - apply Map_get_None. rewrite Hkeys.
    assert (Hnds := NoDup_scoped cluster _ Hnd). simpl in Hnds.
    apply NoDup_cons in Hnds as [Hni _]. now rewrite map_map in Hni.
  - intros ttl now. unfold get.
    assert (Hg : Map_get (scopedKey cluster (opKey first)) (map c) = None).
    { apply Map_get_None. rewrite Hkeys.
      assert (Hnds := NoDup_scoped cluster _ Hnd). simpl in Hnds.
      apply NoDup_cons in Hnds as [Hni _]. now rewrite map_map in Hni. }
    now rewrite Hg.
  - exact Hkeys.
  - exact Hstep.
  - intros c0 ttl now k r. apply get_hit_unchanged.
Qed.

(** C9. A [set] of a key that is already cached, in a cache at capacity,
    still runs the eviction loop first: the oldest-inserted entry is
    deleted and then the key is written.  When the key is not the oldest
    one, another key is lost and the cache ends with [maxSize - 1]
    entries; when it is the oldest one, it is re-inserted at the end. *)
Theorem C9_set_cached_key_at_capacity_evicts
    (cluster : string) (now : Z) (k : string) (d : T) (c : t T)
    (k0 : string) (e0 : CacheEntry T) (rest : JsMap T) :
  Map_wf (map c) ->
  map c = (k0, e0) :: rest ->
  size c = maxSize c ->
  Map_has (scopedKey cluster k) (map c) = true ->
  let sk := scopedKey cluster k in
  let entry := {| timestamp := now; data := d |} in
  let c' := set cluster now k d c in
  map c' = Map_set sk entry rest
  /\ Map_get sk (map c') = Some entry
  /\ (sk <> k0 ->
        Map_get k0 (map c') = None
        /\ keys (map c') = keys rest
        /\ size c' = maxSize c - 1)
  /\ (sk = k0 -> map c' = rest ++ [(sk, entry)] /\ size c' = maxSize c).
Proof.
  intros Hwf Hmap Hsz Hhas sk entry c'.
  destruct c as [m mx]. simpl in Hwf, Hmap, Hhas. unfold size in Hsz.
  simpl in Hsz. subst m. change (maxSize {| map := (k0, e0) :: rest; maxSize := mx |})
    with mx.
  assert (Hev : map c' = Map_set sk entry rest).
  { subst c'. unfold set. simpl.
    now rewrite (evict_at_capacity _ _ _ _ Hwf Hsz). }
  assert (Hk0 : k0 ∉ keys rest).
  { unfold Map_wf in Hwf. simpl in Hwf.
    now apply NoDup_cons in Hwf as [? _]. }
  assert (Hlen : Map_size rest = mx - 1).
  { unfold Map_size in *. simpl length in Hsz. lia. }
  split; [exact Hev|]. split; [rewrite Hev; apply Map_get_set_same|]. split.
  - intros Hne.
    assert (Hin : sk ∈ keys rest).
    { unfold Map_has in Hhas. simpl in Hhas.
      fold sk in Hhas. destruct (String.eqb_spec k0 sk); [congruence|].
      destruct (Map_get sk rest) eqn:Hg; [|discriminate].
      destruct (decide (sk ∈ keys rest)) as [Hi|Hni]; [exact Hi|].
      apply Map_get_None in Hni. congruence. }
    assert (Hks : keys (map c') = keys rest).
    { rewrite Hev. now apply Map_set_keys_present. }
    split; [|split].
    + apply Map_get_None. now rewrite Hks.
    + exact Hks.
    + unfold size. rewrite size_keys, Hks, <- size_keys. exact Hlen.
  - intros Heq. rewrite Hev.
    assert (Hfresh : Map_set sk entry rest = rest ++ [(sk, entry)]).
    { apply Map_set_fresh. now rewrite Heq. }
    split; [exact Hfresh|].
    unfold size. rewrite Hev, Hfresh. unfold Map_size in *.
    rewrite length_app. simpl length. lia.
Qed.

End Facts.

(** *** Sample runs: a cache of capacity 2 in cluster [kind] *)

Lemma NoDup_abc : NoDup (List.map (@opKey nat) three_sets).
Proof. apply (bool_decide_unpack _). vm_compute. exact I. Defined.

Lemma C6_witness :
  let c := setAll "kind" three_sets (new 2) in
  size c = 2
  /\ Map_get (scopedKey "kind" "a") (map c) = None
  /\ keys (map c) = ["kind:b"; "kind:c"].
Proof.
  destruct (C6_overflow_evicts_first_inserted "kind" 2
              ("a", 1%nat, 100) [("b", 2%nat, 101); ("c", 3%nat, 102)])
    as (H1 & H2 & _ & H3 & _).
  - lia.
  - reflexivity.
  - exact NoDup_abc.
  - exact (conj H1 (conj H2 H3)).
Defined.

(** With a capacity of 0 the loop finds the map empty and breaks, and the
    entry is stored: the bound holds for capacities of at least 1. *)
Example capacity_zero_stores_one :
  keys (map (set "kind" 100 "a" 1%nat (new 0))) = ["kind:a"].
Proof. reflexivity. Qed.

Lemma C9_witness :
  let c' := set "kind" 103 "b" 7%nat full_cache in
  keys (map full_cache) = ["kind:a"; "kind:b"]
  /\ keys (map c') = ["kind:b"]
  /\ Map_get "kind:a" (map c') = None
  /\ size c' = 1.
Proof.
  destruct (C9_set_cached_key_at_capacity_evicts "kind" 103 "b" 7%nat full_cache
              "kind:a" {| timestamp := 100; data := 1%nat |}
              [("kind:b", {| timestamp := 101; data := 2%nat |})])
    as (_ & _ & Hne & _).
  - apply (bool_decide_unpack _). vm_compute. exact I.
  - reflexivity.
  - reflexivity.
  - reflexivity.
  - destruct Hne as (Ha & Hk & Hs); [discriminate|].
    split; [reflexivity|]. split; [exact Hk|]. split; [exact Ha|exact Hs].
Defined.

(** *** Further properties of the cache *)

Section More.
Context {T : Type}.
Implicit Types (m : JsMap T) (c : t T) (k : string) (e : CacheEntry T).

Lemma Map_get_delete_same m k : Map_get k (Map_delete k m) = None.
Proof.
  induction m as [|[k' e'] m IH]; simpl; [reflexivity|].
  destruct (String.eqb_spec k' k) as [->|Hne]; [exact IH|].
  simpl. destruct (String.eqb_spec k' k); [congruence|exact IH].
Qed.

Lemma Map_get_delete_other m k k' :
  k' <> k -> Map_get k' (Map_delete k m) = Map_get k' m.
Proof.
  intros Hne. induction m as [|[k1 e1] m IH]; simpl; [reflexivity|].
  destruct (String.eqb_spec k1 k) as [->|Hk].
  - destruct (String.eqb_spec k k'); [congruence|exact IH].
  - simpl. destruct (String.eqb_spec k1 k'); [reflexivity|exact IH].
Qed.

Lemma Map_get_set_other m k k' e :
  k' <> k -> Map_get k' (Map_set k e m) = Map_get k' m.
Proof.
  intros Hne. induction m as [|[k1 e1] m IH]; simpl.
  - destruct (String.eqb_spec k k'); [congruence|reflexivity].
  - destruct (String.eqb_spec k1 k) as [->|Hk]; simpl.
    + destruct (String.eqb_spec k k'); [congruence|reflexivity].
    + destruct (String.eqb_spec k1 k'); [reflexivity|exact IH].
Qed.

Lemma keys_delete_sublist m k : sublist (keys (Map_delete k m)) (keys m).
Proof.
  induction m as [|[k' e'] m IH]; simpl; [constructor|].
  destruct (String.eqb k' k); simpl; [now constructor 3 | now constructor 2].
Qed.

Lemma Map_delete_wf m k : Map_wf m -> Map_wf (Map_delete k m).
Proof. unfold Map_wf. intros H. eapply sublist_NoDup; [exact H|apply keys_delete_sublist]. Qed.

Lemma Map_delete_size m k : Map_size (Map_delete k m) <= Map_size m.
Proof.
  rewrite !size_keys. pose proof (sublist_length _ _ (keys_delete_sublist m k)). lia.
Qed.

Lemma Map_set_wf m k e : Map_wf m -> Map_wf (Map_set k e m).
Proof.
  unfold Map_wf. intros H.
  destruct (decide (k ∈ keys m)) as [Hin|Hni].
  - now rewrite Map_set_keys_present.
  - rewrite Map_set_fresh by exact Hni. unfold keys. rewrite map_app. simpl.
    apply NoDup_app. split; [exact H|]. split.
    + intros x Hx Hx'. apply list_elem_of_singleton in Hx'. subst x. contradiction.
    + apply NoDup_singleton.
Qed.

Lemma Map_set_size m k e : Map_size (Map_set k e m) <= Map_size m + 1.
Proof.
  destruct (decide (k ∈ keys m)) as [Hin|Hni].
  - rewrite (size_keys (Map_set k e m)), Map_set_keys_present, <- size_keys by exact Hin. lia.
  - rewrite Map_set_fresh by exact Hni. unfold Map_size. rewrite length_app. simpl. lia.
Qed.

(** What the eviction loop leaves of a map, for a capacity of at least 1: a
    suffix of the insertion order that is below capacity, and the whole map
    when it was below capacity already. *)
Lemma evict_suffix maxSize m :
  Map_wf m -> 1 <= maxSize ->
  exists n : nat, evict maxSize m = skipn n m /\ Map_size (evict maxSize m) < maxSize.
Proof.
  intros Hwf Hpos. induction m as [|[k e] m IH].
  - exists 0%nat. split; [reflexivity|]. unfold evict, Map_size. simpl. lia.
  - destruct (Z.leb_spec maxSize (Map_size ((k, e) :: m))) as [Hge|Hlt].
    + assert (Hwf' : Map_wf m).
      { unfold Map_wf in *. simpl in Hwf. now apply NoDup_cons in Hwf as [_ ?]. }
      assert (Hev : evict maxSize ((k, e) :: m) = evict maxSize m).
      { unfold evict. change (length ((k, e) :: m)) with (S (length m)).
        cbn [evictLoop firstKey].
        destruct (Z.leb_spec maxSize (Map_size ((k, e) :: m))); [|lia].
        now rewrite (Map_delete_head _ _ _ Hwf). }
      destruct (IH Hwf') as (n & Hn & Hs).
      exists (S n). rewrite Hev. split; [exact Hn|exact Hs].
    + exists 0%nat. rewrite evict_below by exact Hlt. split; [reflexivity|exact Hlt].
Qed.

Lemma skipn_wf m n : Map_wf m -> Map_wf (skipn n m).
Proof.
  unfold Map_wf, keys. intros H. rewrite <- skipn_map.
  eapply sublist_NoDup; [exact H|apply sublist_drop].
Qed.

Lemma evict_wf maxSize m : Map_wf m -> 1 <= maxSize -> Map_wf (evict maxSize m).
Proof.
  intros Hwf Hpos. destruct (evict_suffix maxSize m Hwf Hpos) as (n & -> & _).
  now apply skipn_wf.
Qed.

(** On a well-formed map, a suffix answers a lookup as the map does, or not
    at all. *)
Lemma Map_get_skipn m n k e :
  Map_wf m -> Map_get k (skipn n m) = Some e -> Map_get k m = Some e.
Proof.
  revert m. induction n as [|n IH]; intros m Hwf H; [exact H|].
  destruct m as [|[k' e'] m]; [exact H|].
  simpl in H. unfold Map_wf in Hwf. simpl in Hwf. apply NoDup_cons in Hwf as [Hni Hnd].
  simpl. destruct (String.eqb_spec k' k) as [->|Hne]; [|now apply IH].
  exfalso. specialize (IH m Hnd H).
  assert (Hk : k ∉ keys m) by exact Hni.
  apply Map_get_None in Hk. congruence.
Qed.

Lemma call_bounded c (op : Call T) :
  1 <= maxSize c -> bounded c ->
  bounded (call c op) /\ maxSize (call c op) = maxSize c.
Proof.
  intros Hpos [Hwf Hsz]. unfold bounded, size in *.
  destruct op as [cluster key d now|cluster key ttl now|cluster key|]; cbn [call].
  - unfold set. cbn [map maxSize].
    destruct (evict_suffix (maxSize c) (map c) Hwf Hpos) as (n & Hn & Hs).
    split; [|reflexivity]. split.
    + apply Map_set_wf. now apply evict_wf.
    + pose proof (Map_set_size (evict (maxSize c) (map c)) (scopedKey cluster key)
                    {| timestamp := now; data := d |}). lia.
  - unfold get. destruct (Map_get _ _) as [entry|]; [|now repeat split].
    destruct (ttl <? now - timestamp entry); cbn [snd map maxSize]; [|now repeat split].
    split; [|reflexivity]. split; [now apply Map_delete_wf|].
    pose proof (Map_delete_size (map c) (scopedKey cluster key)). lia.
  - unfold delete. cbn [map maxSize]. split; [|reflexivity].
    split; [now apply Map_delete_wf|].
    pose proof (Map_delete_size (map c) (scopedKey cluster key)). lia.
  - unfold clear. cbn [map maxSize]. split; [|reflexivity].
    split; [apply NoDup_nil_2 | unfold Map_size; simpl; lia].
Qed.

(** X1. A cache with a capacity of at least 1 never holds more entries than
    its capacity, and never two entries for one key: this holds at its
    creation and after any sequence of [set], [get], [delete] and [clear]
    calls, under any clusters, clocks and TTLs. *)
Theorem cache_never_exceeds_capacity (capacity : Z) (ops : list (Call T)) :
  1 <= capacity ->
  let c := calls ops (new capacity) in
  size c <= capacity /\ Map_wf (map c) /\ maxSize c = capacity.
Proof.
  intros Hpos c. subst c.
  assert (H : forall c0 : t T, 1 <= maxSize c0 -> bounded c0 ->
              bounded (calls ops c0) /\ maxSize (calls ops c0) = maxSize c0).
  { induction ops as [|op ops IH]; intros c0 Hp Hb; [now split|].
    cbn [calls fold_left].
    destruct (call_bounded c0 op Hp Hb) as [Hb' Hm'].
    destruct (IH (call c0 op)) as [Hb'' Hm'']; [lia|exact Hb'|].
    split; [exact Hb''|]. unfold calls in Hm''. lia. }
  destruct (H (new capacity)) as [[Hwf Hsz] Hm]; [exact Hpos| |].
  - split; [apply NoDup_nil_2 | unfold size, Map_size; simpl; lia].
  - cbn [maxSize new] in *. rewrite Hm in Hsz. auto.
Qed.

(** X2. What [set] stores, a [get] of the same key under the same cluster
    returns, with the time of the [set], as long as no more than the TTL has
    passed; this holds for any cache, whatever its capacity and content. *)
Theorem get_after_set (cluster key : string) (d : T) (now now' ttl : Z) c :
  now' - now <= ttl ->
  get cluster ttl now' key (set cluster now key d c)
  = (Some (d, now), set cluster now key d c).
Proof.
  intros Hfresh. unfold get.
  assert (Hg : Map_get (scopedKey cluster key) (map (set cluster now key d c))
               = Some {| timestamp := now; data := d |}).
  { unfold set. cbn [map]. apply Map_get_set_same. }
  rewrite Hg. cbn [timestamp data].
  destruct (Z.ltb_spec ttl (now' - now)); [lia|reflexivity].
Qed.

(** X3. A [get] of an entry older than the TTL is a miss and deletes the
    entry: a second [get] misses as well, even with a longer TTL, and the
    entries of the other keys stay as they were. *)
Theorem get_expired_removes (cluster key : string) (ttl now : Z) c e :
  Map_get (scopedKey cluster key) (map c) = Some e ->
  ttl < now - timestamp e ->
  let c' := snd (get cluster ttl now key c) in
  fst (get cluster ttl now key c) = None
  /\ Map_get (scopedKey cluster key) (map c') = None
  /\ (forall ttl' now', fst (get cluster ttl' now' key c') = None)
  /\ (forall k', k' <> scopedKey cluster key ->
        Map_get k' (map c') = Map_get k' (map c)).
Proof.
  intros Hg Hold c'. subst c'. unfold get. rewrite Hg.
  destruct (Z.ltb_spec ttl (now - timestamp e)); [|lia]. cbn [fst snd map].
  split; [reflexivity|]. split; [apply Map_get_delete_same|]. split.
  - intros ttl' now'. now rewrite Map_get_delete_same.
  - intros k' Hne. now apply Map_get_delete_other.
Qed.

(** Scoped keys of clusters whose identifiers have no colon do not collide. *)
Lemma scopedKey_separates (a b k1 k2 : string) :
  colonFree a = true -> colonFree b = true ->
  scopedKey a k1 = scopedKey b k2 -> a = b /\ k1 = k2.
Proof.
  unfold scopedKey, colonFree. revert b.
  induction a as [|x a IH]; intros b Ha Hb H.
  - destruct b as [|y b]; simpl in H.
    + injection H as H. now split.
    + injection H as Hy _. subst y. cbn in Hb. discriminate.
  - destruct b as [|y b]; simpl in H.
    + injection H as Hx _. subst x. cbn in Ha. discriminate.
    + injection H as Hxy H. subst y. simpl in Ha, Hb.
      apply andb_prop in Ha as [_ Ha]. apply andb_prop in Hb as [_ Hb].
      destruct (IH b Ha Hb H) as [-> ->]. now split.
Qed.

(** X4. With cluster identifiers that have no colon, a [set] made under one
    cluster never gives a [get] under another cluster anything to return
    that it would not have returned before: data cached for one cluster is
    not served to another.  (The [set] may evict an entry of the other
    cluster, which then misses.) *)
Theorem set_under_other_cluster_is_not_read
    (a b key key' : string) (d : T) (now ttl now' : Z) c (r : T * Z) :
  colonFree a = true -> colonFree b = true -> a <> b ->
  Map_wf (map c) -> 1 <= maxSize c ->
  fst (get b ttl now' key' (set a now key d c)) = Some r ->
  fst (get b ttl now' key' c) = Some r.
Proof.
  intros Ha Hb Hab Hwf Hpos. unfold get, set. cbn [map].
  assert (Hne : scopedKey b key' <> scopedKey a key).
  { intros H. apply scopedKey_separates in H as [H _]; congruence. }
  rewrite Map_get_set_other by exact Hne.
  destruct (evict_suffix (maxSize c) (map c) Hwf Hpos) as (n & Hn & _).
  rewrite Hn.
  destruct (Map_get (scopedKey b key') (skipn n (map c))) as [e|] eqn:Hg;
    [|discriminate].
  apply Map_get_skipn in Hg; [|exact Hwf]. rewrite Hg.
  destruct (ttl <? now' - timestamp e); [discriminate|]. exact (fun H => H).
Qed.

End More.

Lemma cache_never_exceeds_capacity_witness :
  let c := calls [CallSet "kind" "a" 1%nat 100; CallSet "prod" "a" 2%nat 101;
                  CallGet "kind" "a" 50 200; CallSet "kind" "b" 3%nat 201]
                 (new 2) in
  size c <= 2 /\ Map_wf (map c).
Proof.
  destruct (cache_never_exceeds_capacity (T := nat) 2
              [CallSet "kind" "a" 1%nat 100; CallSet "prod" "a" 2%nat 101;
               CallGet "kind" "a" 50 200; CallSet "kind" "b" 3%nat 201])
    as (H1 & H2 & _); [lia|].
  exact (conj H1 H2).
Defined.

Lemma get_after_set_witness :
  fst (get "kind" 180000 1500 "logs/default/web-0" (set "kind" 1000 "logs/default/web-0" 7%nat (new 200)))
  = Some (7%nat, 1000).
Proof.
  rewrite (get_after_set "kind" "logs/default/web-0" 7%nat 1000 1500 180000 (new 200));
    [reflexivity|lia].
Defined.

Lemma get_expired_removes_witness :
  fst (get "kind" 50 200 "a" full_cache) = None
  /\ Map_get "kind:a" (map (snd (get "kind" 50 200 "a" full_cache))) = None.
Proof.
  destruct (get_expired_removes "kind" "a" 50 200 full_cache
              {| timestamp := 100; data := 1%nat |}) as (H1 & H2 & _).
  - reflexivity.
  - simpl. lia.
  - exact (conj H1 H2).
Defined.

Lemma set_under_other_cluster_is_not_read_witness :
  fst (get "prod" 1000 102 "a" (set "prod" 100 "a" 1%nat (new 5))) = Some (1%nat, 100).
Proof.
  apply (set_under_other_cluster_is_not_read "kind" "prod" "a" "a" 9%nat 101 1000 102
           (set "prod" 100 "a" 1%nat (new 5)) (1%nat, 100)).
  - reflexivity.
  - reflexivity.
  - discriminate.
  - apply (bool_decide_unpack _). vm_compute. exact I.
  - simpl. lia.
  - reflexivity.
Defined.

(** Without that condition two clusters can share a scoped key. *)
Example colon_in_cluster_id_collides :
  scopedKey "eu" "west:logs" = scopedKey "eu:west" "logs".
Proof. reflexivity. Qed.

End BoundedCacheSpec.

(** ** Retry coordinator *)

Module RetrySpec.
Import Retry.
Import RetryRuns.

Section Facts.
Context {T : Type}.
Variable fn : nat -> Outcome T.
Variable signal : option (nat -> bool).
Variable onUnauthorized : option (nat -> Outcome bool).

Lemma aborted_never (tr : Trace) : neverAborted signal -> aborted signal tr = false.
Proof. unfold neverAborted, aborted. destruct signal; auto. Qed.

Lemma wait_never (delay : Z) (tr : Trace) :
  neverAborted signal -> fst (wait signal delay tr) = false.
Proof.
  unfold neverAborted, wait. destruct signal; [|reflexivity].
  intros H. simpl. now rewrite !H.
Qed.

Lemma wait_trace (delay : Z) (tr : Trace) :
  snd (wait signal delay (snd (invoke fn tr))) = advance tr delay.
Proof. unfold wait, invoke, advance. destruct signal; reflexivity. Qed.

(** One turn of the loop on a 503: the operation is invoked, the backoff
    delay is waited and the next attempt starts. *)
Lemma attempts_503 (n attempt : nat) (last : option JsError) (tr : Trace) (err : JsError) :
  neverAborted signal ->
  fn (invocations tr) = Rejected err ->
  statusOf err = Some 503 -> err_name err <> "AbortError" ->
  Z.of_nat attempt < 2 ->
  attempts fn signal 2 onUnauthorized (S n) attempt last tr
  = attempts fn signal 2 onUnauthorized n (S attempt) (Some err)
      (advance tr (delayFor attempt)).
Proof.
  intros Hs Hfn Hst Hname Hatt. cbn [attempts].
  rewrite (aborted_never tr Hs). unfold invoke at 1. rewrite Hfn.
  destruct (String.eqb_spec (err_name err) "AbortError") as [|_]; [contradiction|].
  rewrite Hst. cbn [truthy has NON_RETRYABLE_STATUS_CODES existsb Z.eqb Pos.eqb
                    negb andb orb].
  assert (Hr : isRetryable err = true).
  { unfold isRetryable. rewrite Hst. reflexivity. }
  rewrite Hr. cbn [negb orb].
  destruct (Z.leb_spec 2 (Z.of_nat attempt)) as [|_]; [lia|].
  pose proof (wait_never (delayFor attempt) (snd (invoke fn tr)) Hs) as Hw.
  pose proof (wait_trace (delayFor attempt) tr) as Ht.
  unfold invoke in *. cbn [snd] in *.
  destruct (wait signal (delayFor attempt) _) as [b tr2]. simpl in Hw, Ht.
  subst b tr2. reflexivity.
Qed.

(** C5. With [maxRetries = 2] and a signal that is absent or never aborted:
    an operation that fails with status 503 on its first two invocations
    and succeeds on the third makes the call return that success value
    after exactly 3 invocations (having waited 2000 ms and then 6000 ms);
    an operation that fails with status 403 is invoked exactly once and its
    error is rethrown, with no wait. *)
Theorem C5_retry_503_twice_then_success_and_403_once :
  neverAborted signal ->
  (forall v : T,
      failsWithStatus fn 0 503 -> failsWithStatus fn 1 503 -> fn 2%nat = Resolved v ->
      fst (retryWithBackoff fn signal 2 onUnauthorized) = Resolved v
      /\ invocations (snd (retryWithBackoff fn signal 2 onUnauthorized)) = 3%nat
      /\ waits (snd (retryWithBackoff fn signal 2 onUnauthorized)) = [2000; 6000])
  /\ (forall err : JsError,
      fn 0%nat = Rejected err -> statusOf err = Some 403 ->
      fst (retryWithBackoff fn signal 2 onUnauthorized) = Rejected err
      /\ invocations (snd (retryWithBackoff fn signal 2 onUnauthorized)) = 1%nat
      /\ waits (snd (retryWithBackoff fn signal 2 onUnauthorized)) = []).
Proof.
  intros Hs. split.
  - intros v (e1 & Hf1 & Hs1 & Hn1) (e2 & Hf2 & Hs2 & Hn2) Hf3.
    unfold retryWithBackoff. change (Z.to_nat (2 + 1)) with 3%nat.
    rewrite (attempts_503 2 0 None start e1 Hs Hf1 Hs1 Hn1); [|simpl; lia].
    rewrite (attempts_503 1 1 (Some e1) (advance start (delayFor 0)) e2 Hs Hf2 Hs2 Hn2);
      [|simpl; lia].
    cbn [attempts]. rewrite (aborted_never _ Hs).
    unfold invoke. cbn [advance invocations start]. rewrite Hf3.
    cbn. auto.
  - intros err Hf Hst.
    unfold retryWithBackoff. change (Z.to_nat (2 + 1)) with 3%nat.
    cbn [attempts]. rewrite (aborted_never _ Hs).
    unfold invoke. cbn [invocations start]. rewrite Hf.
    destruct (String.eqb (err_name err) "AbortError"); [auto|].
    rewrite Hst. simpl. auto.
Qed.

End Facts.

(** *** Sample runs *)

(** With a signal that is aborted from the start the operation is never
    invoked, and an abort during the first backoff wait ends the call after
    one invocation: the counts of C5 are those of a call that is not
    cancelled. *)
Example aborted_from_the_start :
  retryWithBackoff flaky (Some (fun _ => true)) 2 None
  = (Rejected AbortError, start).
Proof. reflexivity. Qed.

Example aborted_during_first_wait :
  fst (retryWithBackoff flaky (Some (fun t => (2 <=? t)%nat)) 2 None)
  = Rejected AbortError
  /\ invocations (snd (retryWithBackoff flaky (Some (fun t => (2 <=? t)%nat)) 2 None))
     = 1%nat.
Proof. split; reflexivity. Qed.

(** A 401 with a refresh callback that succeeds is retried at once, with no
    backoff wait. *)
Example refresh_then_retry_without_wait :
  retryWithBackoff expiredOnce None 2 (Some (fun _ => Resolved true))
  = (Resolved 7,
     {| invocations := 2; refreshes := 1; waits := []; tick := 3 |}).
Proof. reflexivity. Qed.

Lemma C5_witness :
  (fst (retryWithBackoff flaky None 2 None) = Resolved 42
   /\ invocations (snd (retryWithBackoff flaky None 2 None)) = 3%nat)
  /\ (fst (retryWithBackoff denied None 2 None) = Rejected forbidden
      /\ invocations (snd (retryWithBackoff denied None 2 None)) = 1%nat).
Proof.
  split.
  - destruct (C5_retry_503_twice_then_success_and_403_once flaky None None I)
      as [H _].
    destruct (H 42) as (H1 & H2 & _).
    + exists overloaded. split; [reflexivity|]. split; [reflexivity|discriminate].
    + exists overloaded. split; [reflexivity|]. split; [reflexivity|discriminate].
    + reflexivity.
    + exact (conj H1 H2).
  - destruct (C5_retry_503_twice_then_success_and_403_once denied None None I)
      as [_ H].
    destruct (H forbidden) as (H1 & H2 & _); [reflexivity|reflexivity|].
    exact (conj H1 H2).
Defined.

(** *** Further properties of the retry loop *)

Section More.
Context {T : Type}.
Variable fn : nat -> Outcome T.
Variable signal : option (nat -> bool).
Variable onUnauthorized : option (nat -> Outcome bool).

Ltac split_matches :=
  repeat match goal with
         | |- context [match ?x with _ => _ end] => destruct x eqn:?
         | |- context [if ?x then _ else _] => destruct x eqn:?
         end.

Lemma wait_pair (delay : Z) (tr : Trace) :
  wait signal delay tr
  = (fst (wait signal delay tr),
     {| invocations := invocations tr; refreshes := refreshes tr;
        waits := waits tr ++ [delay]; tick := S (tick tr) |}).
Proof. unfold wait. destruct signal; reflexivity. Qed.

(** Each turn of the loop invokes the operation at most once and waits at
    most once, and only when another turn follows. *)
Lemma attempts_bounds (maxRetries : Z) (n : nat) :
  forall (attempt : nat) (last : option JsError) (tr : Trace),
  Z.of_nat attempt + Z.of_nat n = maxRetries + 1 ->
  let tr' := snd (attempts fn signal maxRetries onUnauthorized n attempt last tr) in
  (invocations tr' <= invocations tr + n)%nat
  /\ (length (waits tr') <= length (waits tr) + (n - 1))%nat.
Proof.
  induction n as [|n IH]; intros attempt last tr Hinv; cbn [attempts].
  - cbn. lia.
  - destruct (aborted signal tr); [cbn; lia|].
    unfold invoke, refresh. rewrite wait_pair. cbn zeta.
    destruct (fn (invocations tr)) as [v|err]; [cbn; lia|].
    split_matches; subst; cbn [snd invocations waits];
      try solve [lia];
      repeat match goal with
             | H : (_ <=? _) = false |- _ => apply Z.leb_gt in H
             | H : (_ <? _) = true |- _ => apply Z.ltb_lt in H
             | H : (_ || _)%bool = false |- _ => apply orb_false_elim in H as [? ?]
             end;
      rewrite ?length_app; cbn [length];
      match goal with
      | |- context [attempts _ _ _ _ n (S attempt) ?l ?t] =>
          destruct (IH (S attempt) l t) as [Hi Hw]; [lia|];
          cbn [invocations waits] in Hi, Hw; rewrite ?length_app in Hw;
          cbn [length] in Hw; lia
      | |- _ => lia
      end.
Qed.

(** X5. A call of [retryWithBackoff] invokes the operation at most
    [maxRetries + 1] times and waits at most [maxRetries] times, whatever
    the operation, the signal and the refresh callback do. *)
Theorem retry_invokes_at_most_maxRetries_plus_one (maxRetries : Z) :
  let tr := snd (retryWithBackoff fn signal maxRetries onUnauthorized) in
  (invocations tr <= Z.to_nat (maxRetries + 1))%nat
  /\ (length (waits tr) <= Z.to_nat maxRetries)%nat.
Proof.
  unfold retryWithBackoff.
  destruct (Z.le_gt_cases 0 (maxRetries + 1)) as [Hge|Hlt].
  - destruct (attempts_bounds maxRetries (Z.to_nat (maxRetries + 1)) 0 None start)
      as [Hi Hw]; [lia|].
    cbn [invocations waits start length] in Hi, Hw. cbn zeta. split; lia.
  - assert (Hz : Z.to_nat (maxRetries + 1) = 0%nat) by lia.
    rewrite Hz. cbn. lia.
Qed.

(** A transient error passes the tests that end the loop. *)
Lemma transient_is_retried (err : JsError) :
  transient err ->
  String.eqb (err_name err) "AbortError" = false
  /\ isRetryable err = true
  /\ (statusOf err = Some 429 \/ statusOf err = Some 503 \/ statusOf err = Some 529
      \/ statusOf err = None).
Proof.
  intros [Hname Hst]. split; [now apply String.eqb_neq|]. split; [|exact Hst].
  unfold isRetryable. destruct Hst as [H|[H|[H|H]]]; rewrite H; reflexivity.
Qed.

(** One turn of the loop on a transient error, when another turn follows
    and when none does. *)
Lemma attempts_transient (maxRetries : Z) (n attempt : nat) (last : option JsError)
    (tr : Trace) (err : JsError) :
  neverAborted signal ->
  fn (invocations tr) = Rejected err -> transient err ->
  attempts fn signal maxRetries onUnauthorized (S n) attempt last tr
  = if Z.of_nat attempt <? maxRetries
    then attempts fn signal maxRetries onUnauthorized n (S attempt) (Some err)
           (advance tr (delayFor attempt))
    else (Rejected err, snd (invoke fn tr)).
Proof.
  intros Hs Hfn Htr. destruct (transient_is_retried err Htr) as (Hname & Hret & Hst).
  cbn [attempts]. rewrite (aborted_never signal tr Hs).
  unfold invoke at 1. rewrite Hfn, Hname, Hret.
  pose proof (wait_never signal (delayFor attempt) (snd (invoke fn tr)) Hs) as Hw.
  pose proof (wait_trace fn signal (delayFor attempt) tr) as Ht.
  unfold invoke in *. cbn [snd] in *.
  destruct (wait signal (delayFor attempt) _) as [b tr2]. cbn [fst snd] in Hw, Ht.
  subst b tr2.
  destruct (Z.ltb_spec (Z.of_nat attempt) maxRetries) as [Hlt|Hge];
    destruct (Z.leb_spec maxRetries (Z.of_nat attempt)) as [Hle|Hgt]; try lia;
    destruct Hst as [H|[H|[H|H]]]; rewrite H; cbn; try reflexivity;
    destruct onUnauthorized; reflexivity.
Qed.

Lemma backedOff_invocations (k : nat) : invocations (backedOff k) = k.
Proof. induction k as [|k IH]; [reflexivity|]. cbn. now rewrite IH. Qed.

Lemma backedOff_waits (k : nat) : waits (backedOff k) = List.map delayFor (seq 0 k).
Proof.
  induction k as [|k IH]; [reflexivity|].
  cbn [backedOff advance waits]. rewrite IH, seq_S, map_app. reflexivity.
Qed.

(** X6. When the operation fails with a transient error at each of its
    invocations and the call is not cancelled, [retryWithBackoff] invokes
    it [maxRetries + 1] times, waits after each failure but the last (2000
    ms, then 6000 ms for every further wait), and rethrows the error of the
    last invocation. *)
Theorem retry_exhausted_rethrows_last_error (N : nat) :
  neverAborted signal ->
  (forall k, (k <= N)%nat -> exists err, fn k = Rejected err /\ transient err) ->
  exists err,
    fn N = Rejected err
    /\ fst (retryWithBackoff fn signal (Z.of_nat N) onUnauthorized) = Rejected err
    /\ invocations (snd (retryWithBackoff fn signal (Z.of_nat N) onUnauthorized)) = S N
    /\ waits (snd (retryWithBackoff fn signal (Z.of_nat N) onUnauthorized))
       = List.map delayFor (seq 0 N).
Proof.
  intros Hs Hfail.
  destruct (Hfail N (le_n N)) as (errN & HfN & HtN).
  exists errN. split; [exact HfN|].
  assert (Hloop : forall n attempt last,
            (attempt + n = N)%nat ->
            attempts fn signal (Z.of_nat N) onUnauthorized (S n) attempt last
              (backedOff attempt)
            = (Rejected errN, snd (invoke fn (backedOff N)))).
  { induction n as [|n IH]; intros attempt last Hn.
    - assert (attempt = N) by lia. subst attempt.
      rewrite (attempts_transient _ _ _ _ _ errN Hs); [| |exact HtN].
      + destruct (Z.ltb_spec (Z.of_nat N) (Z.of_nat N)); [lia|reflexivity].
      + now rewrite backedOff_invocations.
    - destruct (Hfail attempt) as (err & Hf & Ht); [lia|].
      rewrite (attempts_transient _ _ _ _ _ err Hs); [| |exact Ht].
      + destruct (Z.ltb_spec (Z.of_nat attempt) (Z.of_nat N)); [|lia].
        change (advance (backedOff attempt) (delayFor attempt))
          with (backedOff (S attempt)).
        apply IH. lia.
      + now rewrite backedOff_invocations. }
  unfold retryWithBackoff.
  replace (Z.to_nat (Z.of_nat N + 1)) with (S N) by lia.
  change start with (backedOff 0). rewrite Hloop by lia.
  unfold invoke. cbn [fst snd invocations waits].
  rewrite backedOff_invocations, backedOff_waits. auto.
Qed.

(** A status other than 401 never reaches the refresh callback. *)
Ltac not_401 s :=
  destruct s as [[|p|p]|]; try reflexivity;
  repeat (destruct p as [p|p|]; try reflexivity).

(** One turn of the loop on an error that is not retryable. *)
Lemma attempts_fail_fast (maxRetries : Z) (n attempt : nat) (last : option JsError)
    (tr : Trace) (err : JsError) :
  aborted signal tr = false ->
  fn (invocations tr) = Rejected err ->
  isRetryable err = false ->
  onUnauthorized = None \/ statusOf err <> Some 401 ->
  attempts fn signal maxRetries onUnauthorized (S n) attempt last tr
  = (Rejected err, snd (invoke fn tr)).
Proof.
  intros Hab Hfn Hret H401. cbn [attempts]. rewrite Hab.
  unfold invoke. rewrite Hfn. cbn [snd].
  destruct (String.eqb (err_name err) "AbortError"); [reflexivity|].
  rewrite Hret. cbn [negb orb].
  destruct (truthy (statusOf err) && _); [reflexivity|].
  remember (statusOf err) as s eqn:Hs. clear Hs.
  destruct H401 as [Hcb|Hne].
  - rewrite Hcb. not_401 s.
  - destruct onUnauthorized as [cb|]; [|not_401 s].
    destruct (Z.of_nat attempt <? maxRetries); [|not_401 s].
    not_401 s. now contradiction Hne.
Qed.

(** X7. An error that is not retryable ends the call at once: when the
    first invocation rejects with an error that has a status outside 429,
    503 and 529 and no network error code (400, 403, 404, 500, ...), and
    either the status is not 401 or no refresh callback is given, the
    operation is invoked exactly once, nothing is waited for and that error
    is rethrown. *)
Theorem retry_fails_fast_on_non_retryable (maxRetries : Z) (err : JsError) :
  0 <= maxRetries ->
  aborted signal start = false ->
  fn 0%nat = Rejected err ->
  isRetryable err = false ->
  onUnauthorized = None \/ statusOf err <> Some 401 ->
  retryWithBackoff fn signal maxRetries onUnauthorized
  = (Rejected err,
     {| invocations := 1; refreshes := 0; waits := []; tick := 1 |}).
Proof.
  intros Hm Hab Hfn Hret H401. unfold retryWithBackoff.
  destruct (Z.to_nat (maxRetries + 1)) as [|n] eqn:Hn; [lia|].
  now rewrite (attempts_fail_fast maxRetries n 0 None start err).
Qed.

(** X8. On a 401 with a refresh callback and a retry left, the callback is
    called once: when it yields [true] the operation is invoked again at
    once, with no backoff wait, and its success is returned; when it yields
    [false] the 401 is rethrown with no further invocation. *)
Theorem retry_refreshes_on_401 (maxRetries : Z) (err : JsError)
    (cb : nat -> Outcome bool) :
  1 <= maxRetries ->
  neverAborted signal ->
  onUnauthorized = Some cb ->
  fn 0%nat = Rejected err ->
  statusOf err = Some 401 -> err_name err <> "AbortError" ->
  (forall v, cb 0%nat = Resolved true -> fn 1%nat = Resolved v ->
     retryWithBackoff fn signal maxRetries onUnauthorized
     = (Resolved v, {| invocations := 2; refreshes := 1; waits := []; tick := 3 |}))
  /\ (cb 0%nat = Resolved false ->
      retryWithBackoff fn signal maxRetries onUnauthorized
      = (Rejected err, {| invocations := 1; refreshes := 1; waits := []; tick := 2 |})).
Proof.
  intros Hm Hs Hcb Hfn Hst Hname. apply String.eqb_neq in Hname.
  unfold retryWithBackoff.
  destruct (Z.to_nat (maxRetries + 1)) as [|[|n]] eqn:Hn; [lia|lia|].
  assert (Hlt : (Z.of_nat 0 <? maxRetries) = true) by (apply Z.ltb_lt; lia).
  split.
  - intros v Hyes Hf1. cbn [attempts]. rewrite !(aborted_never signal _ Hs).
    unfold invoke, refresh. cbn [invocations refreshes start].
    rewrite Hfn, Hname, Hst, Hcb, Hlt. cbn. rewrite Hyes.
    rewrite (aborted_never signal _ Hs). cbn. rewrite Hf1. reflexivity.
  - intros Hno. cbn [attempts]. rewrite !(aborted_never signal _ Hs).
    unfold invoke, refresh. cbn [invocations refreshes start].
    rewrite Hfn, Hname, Hst, Hcb, Hlt. cbn. rewrite Hno. reflexivity.
Qed.

(** X9. Cancellation.  When the signal is already aborted at the call, the
    operation is never invoked; when it is aborted during the backoff wait
    that follows a transient failure, the wait ends with an abort and the
    operation is not invoked again. *)
Theorem retry_respects_cancellation (maxRetries : Z) (s : nat -> bool) :
  signal = Some s ->
  (0 <= maxRetries -> s 0%nat = true ->
     retryWithBackoff fn signal maxRetries onUnauthorized = (Rejected AbortError, start))
  /\ (forall err,
        1 <= maxRetries ->
        s 0%nat = false -> s 1%nat = false -> s 2%nat = true ->
        fn 0%nat = Rejected err -> transient err ->
        fst (retryWithBackoff fn signal maxRetries onUnauthorized) = Rejected AbortError
        /\ invocations (snd (retryWithBackoff fn signal maxRetries onUnauthorized))
           = 1%nat).
Proof.
  intros Hsig. split.
  - intros Hm H0. unfold retryWithBackoff.
    destruct (Z.to_nat (maxRetries + 1)) as [|n] eqn:Hn; [lia|].
    cbn [attempts]. unfold aborted. rewrite Hsig. cbn [tick start]. rewrite H0.
    reflexivity.
  - intros err Hm H0 H1 H2 Hfn Htr.
    destruct (transient_is_retried err Htr) as (Hname & Hret & Hst).
    unfold retryWithBackoff.
    destruct (Z.to_nat (maxRetries + 1)) as [|[|n]] eqn:Hn; [lia|lia|].
    remember (S n) as n1. cbn [attempts]. unfold aborted, invoke, wait.
    rewrite Hsig. cbn [tick start invocations]. rewrite H0, Hfn, Hname, Hret.
    destruct (Z.leb_spec maxRetries (Z.of_nat 0)) as [Hle|_]; [simpl in Hle; lia|].
    cbn [negb orb].
    destruct Hst as [H|[H|[H|H]]]; rewrite H; cbn;
      destruct onUnauthorized; cbn; rewrite ?H1, ?H2; cbn; auto;
      destruct (0 <? maxRetries); cbn; rewrite ?H1, ?H2; cbn; auto.
Qed.

End More.

Lemma retry_exhausted_witness :
  fst (retryWithBackoff alwaysOverloaded None 3 None) = Rejected overloaded
  /\ invocations (snd (retryWithBackoff alwaysOverloaded None 3 None)) = 4%nat
  /\ waits (snd (retryWithBackoff alwaysOverloaded None 3 None)) = [2000; 6000; 6000].
Proof.
  destruct (retry_exhausted_rethrows_last_error alwaysOverloaded None None 3 I)
    as (err & Hf & H1 & H2 & H3).
  - intros k _. exists overloaded. split; [reflexivity|].
    split; [discriminate|]. right. left. reflexivity.
  - injection Hf as <-. exact (conj H1 (conj H2 H3)).
Defined.

Lemma retry_fails_fast_witness :
  retryWithBackoff (fun _ => Rejected serverError : Outcome Z) None 2
    (Some (fun _ => Resolved true))
  = (Rejected serverError,
     {| invocations := 1; refreshes := 0; waits := []; tick := 1 |}).
Proof.
  apply (retry_fails_fast_on_non_retryable
           (fun _ => Rejected serverError : Outcome Z) None
           (Some (fun _ => Resolved true)) 2 serverError).
  - lia.
  - reflexivity.
  - reflexivity.
  - reflexivity.
  - right. discriminate.
Defined.

Lemma retry_refreshes_witness :
  retryWithBackoff expiredOnce None 2 (Some (fun _ => Resolved true))
  = (Resolved 7, {| invocations := 2; refreshes := 1; waits := []; tick := 3 |}).
Proof.
  destruct (retry_refreshes_on_401 expiredOnce None (Some (fun _ => Resolved true))
              2 unauthorized (fun _ => Resolved true)) as [H _].
  - lia.
  - exact I.
  - reflexivity.
  - reflexivity.
  - reflexivity.
  - discriminate.
  - apply (H 7); reflexivity.
Defined.

Lemma retry_cancellation_witness :
  retryWithBackoff flaky (Some (fun _ => true)) 2 None = (Rejected AbortError, start).
Proof.
  destruct (retry_respects_cancellation flaky (Some (fun _ => true)) None 2
              (fun _ => true)) as [H _]; [reflexivity|].
  apply H; [lia|reflexivity].
Defined.

End RetrySpec.

(** ** Configuration *)

Module ConfigSpec.
Import Config.
Import ConfigRuns.

Lemma Math_round_integer (n : Z) : Math_round (inject_Z n) = n.
Proof.
  unfold Math_round.
  assert (H : (inject_Z n + (1 # 2) == (2 * n + 1) # 2)%Q).
  { unfold Qeq, Qplus, inject_Z. simpl. lia. }
  rewrite H. unfold Qfloor. symmetry.
  apply Z.div_unique with (r := 1); simpl; lia.
Qed.

Lemma field_of_validateConfig (raw : gmap string JsValue) (t : Tunable) :
  t ∈ tunables ->
  field t (validateConfig raw)
  = clampInt (match raw !! key t with
              | Some v => Some v
              | None => Some (VNumber (inject_Z (fallback t)))
              end) (lo t) (hi t) (fallback t).
Proof.
  unfold tunables. rewrite !elem_of_cons, elem_of_nil.
  intros [->|[->|[->|[->|[->|[->|[]]]]]]]; cbn [field key lo hi fallback];
    unfold validateConfig;
    cbn [logTailLines analysisMaxTokens apiTimeoutMs resourceCacheTtlMs
         logCacheTtlMs maxRelationshipChildren];
    rewrite lookup_union; destruct (raw !! _); reflexivity.
Qed.

Lemma fallback_in_range (t : Tunable) : t ∈ tunables -> lo t <= fallback t <= hi t.
Proof.
  unfold tunables. rewrite !elem_of_cons, elem_of_nil.
  intros [->|[->|[->|[->|[->|[->|[]]]]]]]; simpl; lia.
Qed.

Lemma defaults_are_fallbacks (t : Tunable) : t ∈ tunables -> field t DEFAULTS = fallback t.
Proof.
  unfold tunables. rewrite !elem_of_cons, elem_of_nil.
  intros [->|[->|[->|[->|[->|[->|[]]]]]]]; reflexivity.
Qed.

(** C8, as the code has it.  For each of the six numeric tunables, loading
    the configuration yields the hardcoded fallback when the persisted
    value is absent or is not a finite number (and when the file cannot be
    read); a persisted number is rounded to the nearest integer and clamped
    into the documented range: below the range it yields the lower bound,
    above it the upper bound, and inside it the rounded value, so an
    integer within the range is kept as it is. *)
Theorem C8_tunables_fallback_or_clamped (raw : gmap string JsValue) (t : Tunable) :
  t ∈ tunables ->
  let loaded := field t (getConfig (Some raw)) in
  match raw !! key t with
  | None | Some VNonFinite | Some VNotNumber => loaded = fallback t
  | Some (VNumber q) =>
      (Math_round q < lo t -> loaded = lo t)
      /\ (hi t < Math_round q -> loaded = hi t)
      /\ (lo t <= Math_round q <= hi t -> loaded = Math_round q)
      /\ (forall n : Z, q = inject_Z n -> lo t <= n <= hi t -> loaded = n)
  end
  /\ field t (getConfig None) = fallback t
  /\ lo t <= loaded <= hi t.
Proof.
  intros Ht loaded. subst loaded. unfold getConfig.
  rewrite (field_of_validateConfig raw t Ht).
  pose proof (fallback_in_range t Ht) as Hr.
  split; [|split; [now apply defaults_are_fallbacks|]].
  - destruct (raw !! key t) as [[q| |]|]; cbn [clampInt]; try reflexivity.
    + repeat split; intros; subst; rewrite ?Math_round_integer; lia.
    + rewrite Math_round_integer. lia.
  - destruct (raw !! key t) as [[q| |]|]; cbn [clampInt];
      rewrite ?Math_round_integer; lia.
Qed.

Lemma C8_witness :
  logTailLines (getConfig (Some tail5)) = 10
  /\ logTailLines (getConfig None) = 500.
Proof.
  destruct (C8_tunables_fallback_or_clamped tail5
              (mkTunable "logTailLines" logTailLines 10 10000 500))
    as (H & Hnone & _).
  - left.
  - change (tail5 !! "logTailLines") with (Some (VNumber (inject_Z 5))) in H.
    destruct H as (Hlow & _). split; [apply Hlow; reflexivity | exact Hnone].
Defined.

(** The claim as worded fails: an out-of-range value does not load as the
    fallback.  [logTailLines = 5] loads as 10, the lower bound, not as the
    fallback 500. *)
Lemma C8_counterexample :
  ~ (forall (raw : gmap string JsValue) (t : Tunable) (n : Z),
        t ∈ tunables ->
        raw !! key t = Some (VNumber (inject_Z n)) ->
        n < lo t \/ hi t < n ->
        field t (getConfig (Some raw)) = fallback t).
Proof.
  intros H.
  specialize (H tail5 (mkTunable "logTailLines" logTailLines 10 10000 500) 5).
  assert (Hv : logTailLines (getConfig (Some tail5)) = 10) by reflexivity.
  cbn [field fallback key lo hi] in H. rewrite Hv in H.
  assert (10 = 500) as Habs; [|discriminate Habs].
  apply H; [left | reflexivity | left; reflexivity].
Qed.

End ConfigSpec.

(** ** Safe regular expressions *)

Module SafeRegexSpec.
Import JsString RegExp SafeRegex.
Import SafeRegexRuns.

Example rejects_nested_quantifier :
  existsb (fun h => h "(a+)+") REDOS_HEURISTICS = true.
Proof. reflexivity. Qed.

Example rejects_quantified_alternation :
  existsb (fun h => h "x(a|b)**") REDOS_HEURISTICS = true.
Proof. reflexivity. Qed.

Example accepts_plain_group :
  existsb (fun h => h "(ab)+|c+(d|e)*") REDOS_HEURISTICS = false.
Proof. reflexivity. Qed.

Example safeRegex_alternation :
  safeRegex literalEngine "error|warn" = Some ["error"; "warn"].
Proof. reflexivity. Qed.

Example safeRegexTest_ignores_case :
  safeRegexTest literalEngine ["error"; "warn"] "12:00 WARN disk low" = true.
Proof. reflexivity. Qed.

(** *** The heuristics and the truncation, for every engine *)







Lemma substring_prefix (s t : string) :
  String.substring 0 (String.length s) (s +:+ t) = s.
Proof. induction s as [|c s IH]; simpl; [now destruct t|now rewrite IH]. Qed.

Lemma append_empty_r (s : string) : s +:+ "" = s.
Proof.
  induction s as [|c s IH]; [reflexivity|].
  change (String c (s +:+ "") = String c s). now rewrite IH.
Qed.

Lemma length_append (s t : string) :
  String.length (s +:+ t) = (String.length s + String.length t)%nat.
Proof. induction s as [|c s IH]; simpl; [reflexivity|now rewrite IH]. Qed.

(** X11. [safeRegexTest] looks at the first 5000 characters of its input
    only: a text of up to 5000 characters is tested as it is, and whatever
    follows the first 5000 characters of a longer text has no effect on the
    result. *)
Theorem safeRegexTest_reads_first_5000
    (E : Engine) (regex : RegExp E) (input rest : string) :
  (String.length input <= 5000)%nat ->
  safeRegexTest E regex input = test E regex input
  /\ (String.length input = 5000%nat ->
      safeRegexTest E regex (input +:+ rest) = test E regex input).
Proof.
  intros Hlen. unfold safeRegexTest. split.
  - destruct (Nat.ltb_spec 5000 (String.length input)); [lia|reflexivity].
  - intros H5. rewrite length_append.
    destruct (Nat.ltb_spec 5000 (String.length input + String.length rest)) as [Hlt|Hge].
    + pose proof (substring_prefix input rest) as Hp. rewrite H5 in Hp.
      cbv zeta. now rewrite Hp.
    + assert (Hr : rest = "") by (destruct rest; [reflexivity|simpl in Hge; lia]).
      subst rest. cbv zeta. now rewrite append_empty_r.
Qed.

Lemma safeRegexTest_reads_first_5000_witness :
  safeRegexTest literalEngine ["oom"] "before OOM after" = true.
Proof.
  destruct (safeRegexTest_reads_first_5000 literalEngine ["oom"] "before OOM after" "")
    as [H _]; [simpl; lia|].
  rewrite H. reflexivity.
Defined.

End SafeRegexSpec.

(** ** Pattern learning store *)

Module PatternStorageSpec.
Import RegExp SafeRegex PatternStorage.
Import PatternStorageRuns.

Lemma updateFirst_none (p : StoredPattern -> bool) (f : StoredPattern -> StoredPattern)
    (l : list StoredPattern) :
  (forall e, e ∈ l -> p e = false) -> updateFirst p f l = None.
Proof.
  induction l as [|e l IH]; intros H; simpl; [reflexivity|].
  rewrite (H e) by left. rewrite IH; [reflexivity|].
  intros e' He'. apply H. now right.
Qed.

Lemma updateFirst_first (p : StoredPattern -> bool) (f : StoredPattern -> StoredPattern)
    (pre post : list StoredPattern) (e : StoredPattern) :
  (forall e', e' ∈ pre -> p e' = false) -> p e = true ->
  updateFirst p f (pre ++ e :: post) = Some (pre ++ f e :: post).
Proof.
  induction pre as [|x pre IH]; intros Hpre He; simpl.
  - now rewrite He.
  - rewrite (Hpre x) by left. rewrite IH; [reflexivity| |exact He].
    intros e' He'. apply Hpre. now right.
Qed.

Lemma updateFirst_length (p : StoredPattern -> bool) (f : StoredPattern -> StoredPattern)
    (l l' : list StoredPattern) :
  updateFirst p f l = Some l' -> length l' = length l.
Proof.
  revert l'. induction l as [|e l IH]; intros l'; simpl; [discriminate|].
  destruct (p e).
  - intros [= <-]. reflexivity.
  - destruct (updateFirst p f l) as [l''|]; [|discriminate].
    intros [= <-]. simpl. now rewrite (IH l'').
Qed.

Section Facts.
Variable E : Engine.
Variable generateId : nat -> string.
Variable Date_now : nat -> Z.
Variable examples : option (gmap string string).
Variable logLines : option (list string).

Abbreviation mergeOne := (mergeOne E generateId Date_now examples logLines).
Abbreviation mergeLoop := (mergeLoop E generateId Date_now examples logLines).
Abbreviation mergeAIPatterns := (mergeAIPatterns E generateId Date_now examples logLines).

Lemma mergeLoop_app (l1 l2 : list PatternRegex) (st : list StoredPattern * nat) :
  mergeLoop (l1 ++ l2) st = mergeLoop l2 (mergeLoop l1 st).
Proof. unfold PatternStorage.mergeLoop. apply fold_left_app. Qed.

Lemma mergeOne_uncompilable (np : PatternRegex) (st : list StoredPattern * nat) :
  compile E (pr_regex np) "i" = None -> mergeOne np st = st.
Proof.
  intros H. unfold PatternStorage.mergeOne. destruct st as [existing pushed].
  now rewrite H.
Qed.

(** C1, as the code has it.  A candidate whose regex does not compile
    ([new RegExp(regex, "i")] throws) is skipped by [mergeAIPatterns]: the
    loop body leaves the scope's patterns as they are, and the store after
    the call is the one obtained without that candidate, so nothing is
    inserted or modified on its account. *)
Theorem C1_uncompilable_candidate_is_skipped
    (store : PatternStore) (scope : string)
    (before after : list PatternRegex) (np : PatternRegex) :
  compile E (pr_regex np) "i" = None ->
  (forall st, mergeOne np st = st)
  /\ mergeAIPatterns store scope (before ++ np :: after)
     = mergeAIPatterns store scope (before ++ after).
Proof.
  intros H. split; [intros st; now apply mergeOne_uncompilable|].
  unfold PatternStorage.mergeAIPatterns.
  rewrite !mergeLoop_app.
  change (mergeLoop (np :: after) ?st) with (mergeLoop after (mergeOne np st)).
  now rewrite mergeOne_uncompilable.
Qed.

(** A candidate that compiles and is no exact duplicate is stored when no
    log lines are given, whatever [safeRegex] would say of it: the loop
    body consults [new RegExp] only. *)
Lemma mergeOne_compilable_is_stored
    (np : PatternRegex) (newRegex : RegExp E) (existing : list StoredPattern) (n : nat) :
  logLines = None ->
  compile E (pr_regex np) "i" = Some newRegex ->
  (forall e, e ∈ existing -> sp_regex e <> pr_regex np) ->
  mergeOne np (existing, n)
  = (existing ++ [ {| sp_id := generateId n; sp_label := pr_label np;
                      sp_regex := pr_regex np; sp_level := pr_level np;
                      sp_discoveredAt := Date_now n; sp_hitCount := 1;
                      sp_description := pr_description np;
                      sp_example := exampleFor examples np |} ],
     S n).
Proof.
  intros Hl Hc Hne. unfold PatternStorage.mergeOne. rewrite Hc, Hl.
  rewrite updateFirst_none; [reflexivity|].
  intros e He. apply String.eqb_neq. now apply Hne.
Qed.

(** A candidate whose matched lines all match an existing pattern overlaps
    it in full, which is above the threshold. *)
Lemma subset_is_near_duplicate (newMatches : list string) (ep : StoredPattern)
    (existingRegex : RegExp E) :
  compile E (sp_regex ep) "i" = Some existingRegex ->
  (forall l, l ∈ newMatches -> test E existingRegex l = true) ->
  isNearDuplicateOf E newMatches ep = true.
Proof.
  intros Hc Hall. unfold isNearDuplicateOf. rewrite Hc.
  assert (Hf : List.filter (test E existingRegex) newMatches = newMatches).
  { induction newMatches as [|l ls IH]; simpl; [reflexivity|].
    rewrite (Hall l) by left. rewrite IH; [reflexivity|].
    intros l' Hl'. apply Hall. now right. }
  rewrite Hf. unfold overlaps. apply Z.leb_le. lia.
Qed.

(** The loop body on a near-duplicate, whatever was pushed before. *)
Lemma mergeOne_near_duplicate
    (lines : list string) (np : PatternRegex) (newRegex : RegExp E)
    (pre post : list StoredPattern) (ep : StoredPattern) (pushed : nat) :
  logLines = Some lines ->
  compile E (pr_regex np) "i" = Some newRegex ->
  (forall e, e ∈ pre ++ ep :: post -> sp_regex e <> pr_regex np) ->
  List.filter (test E newRegex) lines <> [] ->
  (forall e, e ∈ pre ->
     isNearDuplicateOf E (List.filter (test E newRegex) lines) e = false) ->
  isNearDuplicateOf E (List.filter (test E newRegex) lines) ep = true ->
  mergeOne np (pre ++ ep :: post, pushed) = (pre ++ bump ep :: post, pushed).
Proof.
  intros Hlines Hc Hnodup Hm Hpre Hep.
  unfold PatternStorage.mergeOne. rewrite Hc, Hlines.
  rewrite updateFirst_none.
  2:{ intros e He. apply String.eqb_neq. now apply Hnodup. }
  destruct lines as [|l ls]; [now contradiction Hm|].
  destruct (List.filter (test E newRegex) (l :: ls)) as [|m ms] eqn:Hnm;
    [contradiction|].
  now rewrite (updateFirst_first _ _ pre post ep).
Qed.

(** C7. Let [mergeAIPatterns] run with a non-empty [logLines] on a candidate
    that compiles, is no exact regex duplicate and matches at least one
    line.  If some existing pattern of the scope compiles and matches at
    least 0.8 of the candidate's matched lines, then the first such pattern
    gets its [hitCount] incremented by 1 and nothing else changes: the
    scope keeps its length, so no new pattern is added.  This holds for the
    loop body and, when the scope is within its cap, for the store after a
    call with that candidate. *)
Theorem C7_near_duplicate_bumps_first_overlapping
    (lines : list string) (np : PatternRegex) (newRegex existingRegex : RegExp E)
    (pre post : list StoredPattern) (ep : StoredPattern) (pushed : nat) :
  logLines = Some lines ->
  lines <> [] ->
  compile E (pr_regex np) "i" = Some newRegex ->
  (forall e, e ∈ pre ++ ep :: post -> sp_regex e <> pr_regex np) ->
  let newMatches := List.filter (test E newRegex) lines in
  newMatches <> [] ->
  (forall e, e ∈ pre -> isNearDuplicateOf E newMatches e = false) ->
  compile E (sp_regex ep) "i" = Some existingRegex ->
  4 * Z.of_nat (length newMatches)
    <= 5 * Z.of_nat (length (List.filter (test E existingRegex) newMatches)) ->
  mergeOne np (pre ++ ep :: post, pushed) = (pre ++ bump ep :: post, pushed)
  /\ sp_hitCount (bump ep) = sp_hitCount ep + 1
  /\ length (pre ++ bump ep :: post) = length (pre ++ ep :: post)
  /\ (forall store scope,
        scopes store !! scope = Some (pre ++ ep :: post) ->
        (length (pre ++ ep :: post) <= MAX_PATTERNS_PER_SCOPE)%nat ->
        scopes (mergeAIPatterns store scope [np]) !! scope
        = Some (pre ++ bump ep :: post)).
Proof.
  intros Hlines Hne Hc Hnodup newMatches Hm Hpre Hce Hov.
  assert (Hep : isNearDuplicateOf E newMatches ep = true).
  { unfold isNearDuplicateOf. rewrite Hce. unfold overlaps. now apply Z.leb_le. }
  assert (Hl : length (pre ++ bump ep :: post) = length (pre ++ ep :: post))
    by (rewrite !length_app; reflexivity).
  split; [now apply (mergeOne_near_duplicate lines np newRegex)|].
  split; [reflexivity|]. split; [exact Hl|].
  intros store scope Hsc Hcap.
  unfold PatternStorage.mergeAIPatterns. rewrite Hsc.
  unfold PatternStorage.mergeLoop. cbn [fold_left].
  rewrite (mergeOne_near_duplicate lines np newRegex pre post ep 0) by assumption.
  cbn [scopes]. rewrite lookup_insert_eq. f_equal.
  unfold cap. rewrite Hl.
  destruct (Nat.ltb_spec MAX_PATTERNS_PER_SCOPE (length (pre ++ ep :: post)));
    [lia|reflexivity].
Qed.

End Facts.

(** *** Concrete runs, with the engine of literal alternatives *)

Lemma C1_witness :
  compile literalEngine (pr_regex brokenCandidate) "i" = None
  /\ mergeAIPatterns literalEngine ids clock None None defaultStore "ns:default"
       ([oomCandidate] ++ brokenCandidate :: [])
     = mergeAIPatterns literalEngine ids clock None None defaultStore "ns:default"
         ([oomCandidate] ++ []).
Proof.
  split; [reflexivity|].
  apply (C1_uncompilable_candidate_is_skipped literalEngine ids clock None None
           defaultStore "ns:default" [oomCandidate] [] brokenCandidate).
  reflexivity.
Defined.

(** Merging the same candidate twice into an empty scope leaves one stored
    pattern, with a hit count of 2. *)
Example merging_twice_counts_two_hits :
  scopes (mergeAIPatterns literalEngine ids clock None None defaultStore
            "deploy:web" [oomCandidate; oomCandidate]) !! "deploy:web"
  = Some [ {| sp_id := "id0"; sp_label := "OOM"; sp_regex := "OOM";
              sp_level := critical; sp_discoveredAt := 1000; sp_hitCount := 2;
              sp_description := "d"; sp_example := "" |} ].
Proof. vm_compute. reflexivity. Qed.

(** The candidate [OOM] matches the first two lines; the stored pattern
    [timeout] matches none of them and [oom|killed] both. *)
Lemma C7_witness :
  PatternStorage.mergeOne literalEngine ids clock None (Some recentLines) oomCandidate
    ([stored "timeout" 4] ++ stored "oom|killed" 1 :: [], 0%nat)
  = ([stored "timeout" 4] ++ stored "oom|killed" 2 :: [], 0%nat).
Proof.
  destruct (C7_near_duplicate_bumps_first_overlapping literalEngine ids clock None
              (Some recentLines) recentLines oomCandidate ["oom"] ["oom"; "killed"]
              [stored "timeout" 4] [] (stored "oom|killed" 1) 0)
    as (H & _).
  - reflexivity.
  - discriminate.
  - reflexivity.
  - intros e He. apply list_elem_of_In in He. simpl in He.
    destruct He as [<-|[<-|[]]]; discriminate.
  - vm_compute. discriminate.
  - intros e He. apply list_elem_of_In in He. simpl in He.
    destruct He as [<-|[]]. reflexivity.
  - reflexivity.
  - vm_compute. discriminate.
  - exact H.
Defined.

(** The claim as worded fails: [safeRegex] rejects the long candidate, and
    [mergeAIPatterns] stores it all the same. *)
Lemma C1_counterexample :
  safeRegex literalEngine (pr_regex longCandidate) = None
  /\ scopes (mergeAIPatterns literalEngine ids clock None None defaultStore
               "ns:default" [longCandidate]) !! "ns:default"
     = Some [ {| sp_id := "id0"; sp_label := "long";
                 sp_regex := repeatChar 501 "a"; sp_level := error;
                 sp_discoveredAt := 1000; sp_hitCount := 1;
                 sp_description := "d"; sp_example := "" |} ].
Proof. split; vm_compute; reflexivity. Qed.

(** *** Further properties of the pattern store *)

Lemma updateFirst_shape (p : StoredPattern -> bool) (f : StoredPattern -> StoredPattern)
    (l l' : list StoredPattern) :
  updateFirst p f l = Some l' ->
  exists pre e post,
    l = pre ++ e :: post /\ l' = pre ++ f e :: post /\ p e = true
    /\ (forall x, x ∈ pre -> p x = false).
Proof.
  revert l'. induction l as [|x l IH]; intros l'; simpl; [discriminate|].
  destruct (p x) eqn:Hp.
  - intros [= <-]. exists [], x, l. repeat split; auto. intros y Hy. inversion Hy.
  - destruct (updateFirst p f l) as [l''|]; [|discriminate].
    intros [= <-]. destruct (IH l'' eq_refl) as (pre & e & post & -> & -> & He & Hpre).
    exists (x :: pre), e, post. repeat split; auto.
    intros y Hy. apply elem_of_cons in Hy as [->|Hy]; auto.
Qed.

Lemma updateFirst_none_inv (p : StoredPattern -> bool) (f : StoredPattern -> StoredPattern)
    (l : list StoredPattern) :
  updateFirst p f l = None -> forall e, e ∈ l -> p e = false.
Proof.
  induction l as [|x l IH]; simpl; intros H e He; [inversion He|].
  destruct (p x) eqn:Hp; [discriminate|].
  destruct (updateFirst p f l); [discriminate|].
  apply elem_of_cons in He as [->|He]; auto.
Qed.

Lemma evolves_refl (e : StoredPattern) : evolves e e.
Proof. unfold evolves. repeat split; lia. Qed.

Lemma evolves_trans (a b c : StoredPattern) : evolves a b -> evolves b c -> evolves a c.
Proof. unfold evolves. intros (?&?&?&?&?&?) (?&?&?&?&?&?). repeat split; try congruence; lia. Qed.

Lemma Forall2_evolves_refl (l : list StoredPattern) : Forall2 evolves l l.
Proof. induction l; constructor; auto using evolves_refl. Qed.

Lemma Forall2_evolves_trans (l1 l2 l3 : list StoredPattern) :
  Forall2 evolves l1 l2 -> Forall2 evolves l2 l3 -> Forall2 evolves l1 l3.
Proof.
  intros H. revert l3. induction H; intros l3 H3; inversion H3; subst; constructor;
    eauto using evolves_trans.
Qed.

Lemma updateFirst_evolves (p : StoredPattern -> bool) (f : StoredPattern -> StoredPattern)
    (l l' : list StoredPattern) :
  (forall e, evolves e (f e)) ->
  updateFirst p f l = Some l' -> Forall2 evolves l l'.
Proof.
  intros Hf H. apply updateFirst_shape in H as (pre & e & post & -> & -> & _ & _).
  apply Forall2_app; [apply Forall2_evolves_refl|].
  constructor; [apply Hf|apply Forall2_evolves_refl].
Qed.

Lemma evolves_refresh (np : PatternRegex) (e : StoredPattern) : evolves e (refresh np e).
Proof. unfold evolves. cbn. repeat split; lia. Qed.

Lemma evolves_bump (e : StoredPattern) : evolves e (bump e).
Proof. unfold evolves. cbn. repeat split; lia. Qed.

Lemma evolves_regexes (l l' : list StoredPattern) :
  Forall2 evolves l l' -> List.map sp_regex l' = List.map sp_regex l.
Proof. induction 1 as [|a b l l' (_ & Hr & _) _ IH]; simpl; congruence. Qed.

Section More.
Variable E : Engine.
Variable generateId : nat -> string.
Variable Date_now : nat -> Z.
Variable examples : option (gmap string string).
Variable logLines : option (list string).

Abbreviation mergeOne := (mergeOne E generateId Date_now examples logLines).
Abbreviation mergeLoop := (mergeLoop E generateId Date_now examples logLines).
Abbreviation mergeAIPatterns := (mergeAIPatterns E generateId Date_now examples logLines).

(** The three outcomes of the loop body: the existing patterns evolve in
    place and nothing is added, or one pattern is appended, for a candidate
    that compiles and whose regex no existing pattern has. *)
Lemma mergeOne_cases (np : PatternRegex) (existing : list StoredPattern) (n : nat) :
  (exists kept, mergeOne np (existing, n) = (kept, n) /\ Forall2 evolves existing kept)
  \/ (exists new,
        mergeOne np (existing, n) = (existing ++ [new], S n)
        /\ sp_regex new = pr_regex np /\ sp_hitCount new = 1
        /\ sp_id new = generateId n
        /\ compile E (pr_regex np) "i" <> None
        /\ pr_regex np ∉ List.map sp_regex existing).
Proof.
  unfold PatternStorage.mergeOne.
  destruct (compile E (pr_regex np) "i") as [newRegex|] eqn:Hc.
  2:{ left. exists existing. split; [reflexivity|apply Forall2_evolves_refl]. }
  destruct (updateFirst _ (refresh np) existing) as [l'|] eqn:Hex.
  { left. exists l'. split; [reflexivity|].
    eapply updateFirst_evolves; [apply evolves_refresh|exact Hex]. }
  assert (Hfresh : pr_regex np ∉ List.map sp_regex existing).
  { intros Hin. apply list_elem_of_In, in_map_iff in Hin as (e & He & Hin).
    apply list_elem_of_In in Hin.
    pose proof (updateFirst_none_inv _ _ _ Hex e Hin) as Hp. cbn in Hp.
    apply String.eqb_neq in Hp. congruence. }
  destruct logLines as [[|l ls]|];
    try (right; eexists; split; [reflexivity|]; cbn; repeat split; auto; discriminate).
  destruct (List.filter (test E newRegex) (l :: ls)) as [|m ms];
    try (right; eexists; split; [reflexivity|]; cbn; repeat split; auto; discriminate).
  destruct (updateFirst _ bump existing) as [l'|] eqn:Hdup;
    try (right; eexists; split; [reflexivity|]; cbn; repeat split; auto; discriminate).
  left. exists l'. split; [reflexivity|].
  eapply updateFirst_evolves; [apply evolves_bump|exact Hdup].
Qed.

(** X12. A candidate that compiles and whose regex an existing pattern of
    the scope already has adds nothing: the first pattern with that regex
    gets one more hit and the candidate's label and description, and keeps
    its identifier, level, discovery time and example; the other patterns
    are untouched.  Log lines play no part. *)
Theorem exact_duplicate_refreshes_existing
    (np : PatternRegex) (newRegex : RegExp E) (pre post : list StoredPattern)
    (ep : StoredPattern) (n : nat) :
  compile E (pr_regex np) "i" = Some newRegex ->
  sp_regex ep = pr_regex np ->
  (forall e, e ∈ pre -> sp_regex e <> pr_regex np) ->
  mergeOne np (pre ++ ep :: post, n)
  = (pre ++ {| sp_id := sp_id ep; sp_label := pr_label np; sp_regex := sp_regex ep;
               sp_level := sp_level ep; sp_discoveredAt := sp_discoveredAt ep;
               sp_hitCount := sp_hitCount ep + 1;
               sp_description := pr_description np;
               sp_example := sp_example ep |} :: post, n).
Proof.
  intros Hc Hr Hpre. unfold PatternStorage.mergeOne. rewrite Hc.
  rewrite (updateFirst_first _ _ pre post ep); [reflexivity| |].
  - intros e He. apply String.eqb_neq. now apply Hpre.
  - now apply String.eqb_eq.
Qed.

(** What a run of the loop does to the patterns it starts from and what it
    adds. *)
Lemma mergeLoop_evolves (newPatterns : list PatternRegex) :
  forall (existing : list StoredPattern) (n : nat),
  exists kept added,
    fst (mergeLoop newPatterns (existing, n)) = kept ++ added
    /\ Forall2 evolves existing kept
    /\ Forall (fun p => exists np, np ∈ newPatterns
                                   /\ sp_regex p = pr_regex np
                                   /\ compile E (pr_regex np) "i" <> None) added
    /\ (NoDup (List.map sp_regex existing) ->
        NoDup (List.map sp_regex (kept ++ added))).
Proof.
  induction newPatterns as [|np nps IH]; intros existing n.
  - exists existing, []. cbn. rewrite app_nil_r.
    repeat split; auto using Forall2_evolves_refl.
  - unfold PatternStorage.mergeLoop. cbn [fold_left].
    fold (mergeLoop nps (mergeOne np (existing, n))).
    destruct (mergeOne_cases np existing n)
      as [(kept0 & Heq & Hev)|(new & Heq & Hr & Hh & Hid & Hc & Hfresh)]; rewrite Heq.
    + destruct (IH kept0 n) as (kept & added & Hres & Hev' & Hadd & Hnd).
      exists kept, added. split; [exact Hres|]. split; [|split].
      * eauto using Forall2_evolves_trans.
      * eapply Forall_impl; [exact Hadd|]. intros p (np' & Hin & H1 & H2).
        exists np'. split; [now right|auto].
      * intros H. apply Hnd. now rewrite (evolves_regexes _ _ Hev).
    + destruct (IH (existing ++ [new]) (S n)) as (kept & added & Hres & Hev' & Hadd & Hnd).
      apply Forall2_app_inv_l in Hev' as (k1 & k2 & Hk1 & Hk2 & ->).
      exists k1, (k2 ++ added). split; [now rewrite Hres, <- app_assoc|].
      split; [exact Hk1|]. split.
      * apply Forall_app. split.
        -- inversion Hk2 as [|? y ? ? Hy Hnil]; subst. inversion Hnil; subst.
           constructor; [|constructor]. exists np. split; [left|].
           destruct Hy as (_ & Hy & _). split; [congruence|exact Hc].
        -- eapply Forall_impl; [exact Hadd|]. intros p (np' & Hin & H1 & H2).
           exists np'. split; [now right|auto].
      * intros H. rewrite app_assoc. apply Hnd.
        rewrite map_app. cbn. apply NoDup_app. split; [exact H|]. split.
        -- intros x Hx Hx'. apply list_elem_of_singleton in Hx'. subst x.
           rewrite Hr in Hx. contradiction.
        -- apply NoDup_singleton.
Qed.

End More.

(** *** The cap *)

Lemma ranksBefore_compare (a b : StoredPattern) :
  ranksBefore a b <-> compareForCap a b <= 0.
Proof.
  unfold ranksBefore, compareForCap. cbv zeta.
  destruct (Z.eqb_spec (sp_hitCount b - sp_hitCount a) 0); lia.
Qed.

Lemma ranksBefore_trans (a b c : StoredPattern) :
  ranksBefore a b -> ranksBefore b c -> ranksBefore a c.
Proof. unfold ranksBefore. lia. Qed.

Lemma ranksBefore_total (a b : StoredPattern) : ranksBefore a b \/ ranksBefore b a.
Proof. unfold ranksBefore. lia. Qed.

Lemma insertSorted_perm (x : StoredPattern) (l : list StoredPattern) :
  insertSorted x l ≡ₚ x :: l.
Proof.
  induction l as [|y l IH]; simpl; [reflexivity|].
  destruct (0 <? compareForCap y x); [reflexivity|].
  rewrite IH. apply Permutation_swap.
Qed.

Lemma insertSorted_sorted (x : StoredPattern) (l : list StoredPattern) :
  StronglySorted ranksBefore l -> StronglySorted ranksBefore (insertSorted x l).
Proof.
  induction 1 as [|y l Hs IH Hall]; simpl.
  - constructor; [constructor|constructor].
  - destruct (Z.ltb_spec 0 (compareForCap y x)) as [Hlt|Hge].
    + assert (Hxy : ranksBefore x y).
      { destruct (ranksBefore_total x y) as [H|H]; [exact H|].
        apply ranksBefore_compare in H. lia. }
      constructor; [now constructor|].
      constructor; [exact Hxy|].
      eapply Forall_impl; [exact Hall|]. intros z Hz. eauto using ranksBefore_trans.
    + constructor; [exact IH|].
      rewrite insertSorted_perm. constructor; [|exact Hall].
      now apply ranksBefore_compare.
Qed.

Lemma sortForCap_spec (l : list StoredPattern) :
  sortForCap l ≡ₚ l /\ StronglySorted ranksBefore (sortForCap l).
Proof.
  unfold sortForCap.
  assert (H : forall acc, StronglySorted ranksBefore acc ->
            fold_left (fun acc x => insertSorted x acc) l acc ≡ₚ acc ++ l
            /\ StronglySorted ranksBefore
                 (fold_left (fun acc x => insertSorted x acc) l acc)).
  { induction l as [|x l IH]; intros acc Hacc; cbn [fold_left].
    - rewrite app_nil_r. now split.
    - destruct (IH (insertSorted x acc) (insertSorted_sorted x acc Hacc)) as [Hp Hs].
      split; [|exact Hs]. rewrite Hp, insertSorted_perm.
      cbn. apply Permutation_middle. }
  destruct (H [] (SSorted_nil _)) as [Hp Hs]. now split.
Qed.

(** X13. When a scope holds more than 50 patterns, the cap keeps exactly 50
    of them and drops the others, and every pattern kept ranks before every
    pattern dropped: it has more hits, or as many hits and a discovery time
    that is not earlier.  A scope of at most 50 patterns is left as it is. *)
Theorem cap_keeps_the_most_evidenced (l : list StoredPattern) :
  ((length l <= MAX_PATTERNS_PER_SCOPE)%nat -> cap l = l)
  /\ ((MAX_PATTERNS_PER_SCOPE < length l)%nat ->
      exists dropped,
        cap l ++ dropped ≡ₚ l
        /\ length (cap l) = MAX_PATTERNS_PER_SCOPE
        /\ (forall a b, a ∈ cap l -> b ∈ dropped -> ranksBefore a b)).
Proof.
  unfold cap. split; intros Hlen.
  - destruct (Nat.ltb_spec MAX_PATTERNS_PER_SCOPE (length l)); [lia|reflexivity].
  - destruct (Nat.ltb_spec MAX_PATTERNS_PER_SCOPE (length l)); [|lia].
    destruct (sortForCap_spec l) as [Hp Hs].
    exists (skipn MAX_PATTERNS_PER_SCOPE (sortForCap l)).
    rewrite firstn_skipn. split; [exact Hp|]. split.
    + rewrite length_take, (Permutation_length Hp). lia.
    + intros a b Ha Hb. rewrite <- (firstn_skipn MAX_PATTERNS_PER_SCOPE) in Hs.
      eapply StronglySorted_app_1_elem_of; eauto.
Qed.


Lemma cap_NoDup (l : list StoredPattern) :
  NoDup (List.map sp_regex l) -> NoDup (List.map sp_regex (cap l)).
Proof.
  unfold cap. destruct (_ <? _)%nat; [|auto]. intros H.
  destruct (sortForCap_spec l) as [Hp _].
  eapply sublist_NoDup.
  - rewrite <- (fmap_Permutation sp_regex _ _ Hp) in H. exact H.
  - rewrite <- firstn_map. apply sublist_take.
Qed.

Section Store.
Variable E : Engine.
Variable generateId : nat -> string.
Variable Date_now : nat -> Z.
Variable examples : option (gmap string string).
Variable logLines : option (list string).

Abbreviation mergeLoop := (mergeLoop E generateId Date_now examples logLines).
Abbreviation mergeAIPatterns := (mergeAIPatterns E generateId Date_now examples logLines).

Lemma scopeOf_merge (store : PatternStore) (scope : string)
    (newPatterns : list PatternRegex) :
  scopeOf (mergeAIPatterns store scope newPatterns) scope
  = cap (fst (mergeLoop newPatterns (scopeOf store scope, 0%nat))).
Proof.
  unfold scopeOf, PatternStorage.mergeAIPatterns.
  destruct (mergeLoop _ _) as [existing' n]. cbn [scopes fst].
  now rewrite lookup_insert_eq.
Qed.


(** X15. Regexes stay unique within a scope: if no two patterns of the
    scope have the same regex before [mergeAIPatterns], none have after,
    whatever the candidates (which may repeat a regex, among themselves or
    of the scope). *)
Theorem merge_keeps_regexes_unique
    (store : PatternStore) (scope : string) (newPatterns : list PatternRegex) :
  NoDup (List.map sp_regex (scopeOf store scope)) ->
  NoDup (List.map sp_regex (scopeOf (mergeAIPatterns store scope newPatterns) scope)).
Proof.
  intros H. rewrite scopeOf_merge. apply cap_NoDup.
  destruct (mergeLoop_evolves E generateId Date_now examples logLines newPatterns
              (scopeOf store scope) 0) as (kept & added & -> & _ & _ & Hnd).
  now apply Hnd.
Qed.

(** X16. Merging never rewrites what was learnt: up to the cap, the scope
    after [mergeAIPatterns] is the patterns it had, in their order and each
    with its identifier, regex, level, discovery time and example and with
    no fewer hits, followed by new patterns, each of which has the regex of
    a candidate that compiles. *)
Theorem merge_evolves_existing_and_appends
    (store : PatternStore) (scope : string) (newPatterns : list PatternRegex) :
  exists kept added,
    scopeOf (mergeAIPatterns store scope newPatterns) scope = cap (kept ++ added)
    /\ Forall2 evolves (scopeOf store scope) kept
    /\ Forall (fun p => exists np, np ∈ newPatterns
                                   /\ sp_regex p = pr_regex np
                                   /\ compile E (pr_regex np) "i" <> None) added.
Proof.
  destruct (mergeLoop_evolves E generateId Date_now examples logLines newPatterns
              (scopeOf store scope) 0) as (kept & added & Heq & Hev & Hadd & _).
  exists kept, added. rewrite scopeOf_merge, Heq. auto.
Qed.

End Store.

(** *** Sample runs of the further properties *)

Lemma exact_duplicate_witness :
  PatternStorage.mergeOne literalEngine ids clock None (Some recentLines) oomCandidate
    ([stored "timeout" 4] ++ stored "OOM" 2 :: [], 0%nat)
  = ([stored "timeout" 4]
       ++ {| sp_id := "p-OOM"; sp_label := "OOM"; sp_regex := "OOM"; sp_level := error;
             sp_discoveredAt := 1; sp_hitCount := 3; sp_description := "d";
             sp_example := "" |} :: [], 0%nat).
Proof.
  apply (exact_duplicate_refreshes_existing literalEngine ids clock None
           (Some recentLines) oomCandidate ["oom"] [stored "timeout" 4] []
           (stored "OOM" 2) 0).
  - reflexivity.
  - reflexivity.
  - intros e He. apply list_elem_of_In in He. simpl in He.
    destruct He as [<-|[]]. discriminate.
Defined.

Lemma merge_keeps_regexes_unique_witness :
  NoDup (List.map sp_regex
           (scopeOf (PatternStorage.mergeAIPatterns literalEngine ids clock None None
                       sampleStore "deploy:web"
                       [oomCandidate; diskCandidate; diskCandidate])
                    "deploy:web")).
Proof.
  apply (merge_keeps_regexes_unique literalEngine ids clock None None sampleStore
           "deploy:web" [oomCandidate; diskCandidate; diskCandidate]).
  apply (bool_decide_unpack _). vm_compute. exact I.
Defined.

Lemma cap_keeps_the_most_evidenced_witness :
  exists dropped,
    cap manyPatterns ++ dropped ≡ₚ manyPatterns
    /\ length (cap manyPatterns) = MAX_PATTERNS_PER_SCOPE
    /\ (forall a b, a ∈ cap manyPatterns -> b ∈ dropped -> ranksBefore a b).
Proof.
  apply (proj2 (cap_keeps_the_most_evidenced manyPatterns)). vm_compute. lia.
Defined.

(** *** Scopes *)

Lemma seen_spec (l : list StoredPattern) (x : string) :
  forall s0 : gset string,
  x ∈ fold_left (fun seen p => {[ sp_regex p ]} ∪ seen) l s0
  <-> x ∈ s0 \/ x ∈ List.map sp_regex l.
Proof.
  induction l as [|p l IH]; intros s0; cbn [fold_left List.map].
  - rewrite elem_of_nil. tauto.
  - rewrite IH, elem_of_union, elem_of_singleton, elem_of_cons. tauto.
Qed.

(** X17. [getPatternsForScope] returns the patterns of the resolved scope,
    in their order, followed by those patterns of the [global] scope whose
    regex no pattern of the resolved scope has: on a shared regex the
    scope's own pattern is the one returned.  If regexes are unique within
    each of the two scopes, they are unique in the result. *)
Theorem getPatternsForScope_scope_first_then_global
    (store : PatternStore) (namespace : string) (workloadScope appIdentity : option string) :
  let own := scopeOf store (resolveScopeKey namespace workloadScope appIdentity) in
  let global := scopeOf store "global" in
  exists extra,
    getPatternsForScope store namespace workloadScope appIdentity = own ++ extra
    /\ (forall p, p ∈ extra <-> p ∈ global /\ sp_regex p ∉ List.map sp_regex own)
    /\ sublist extra global
    /\ (NoDup (List.map sp_regex own) -> NoDup (List.map sp_regex global) ->
        NoDup (List.map sp_regex
                 (getPatternsForScope store namespace workloadScope appIdentity))).
Proof.
  intros own global. unfold getPatternsForScope. fold (scopeOf store "global").
  fold (scopeOf store (resolveScopeKey namespace workloadScope appIdentity)).
  fold own. fold global.
  set (seen := fold_left _ own ∅).
  exists (List.filter (fun p => negb (bool_decide (sp_regex p ∈ seen))) global).
  assert (Hseen : forall x, x ∈ seen <-> x ∈ List.map sp_regex own).
  { intros x. unfold seen. rewrite seen_spec. rewrite elem_of_empty. tauto. }
  assert (Hextra : forall p,
            p ∈ List.filter (fun p => negb (bool_decide (sp_regex p ∈ seen))) global
            <-> p ∈ global /\ sp_regex p ∉ List.map sp_regex own).
  { intros p. rewrite !list_elem_of_In, filter_In, negb_true_iff, bool_decide_eq_false.
    rewrite Hseen, <- !list_elem_of_In. tauto. }
  split; [reflexivity|]. split; [exact Hextra|]. split.
  - clear. induction global as [|p g IH]; cbn; [constructor|].
    destruct (negb _); [now constructor 2 | now constructor 3].
  - intros Hown Hglob. rewrite map_app. apply NoDup_app. split; [exact Hown|]. split.
    + intros x Hx Hx'.
      apply list_elem_of_In, in_map_iff in Hx' as (p & <- & Hp).
      apply list_elem_of_In, Hextra in Hp as [_ Hp]. contradiction.
    + eapply sublist_NoDup; [exact Hglob|]. apply (fmap_sublist sp_regex).
      clear. induction global as [|p g IH]; cbn; [constructor|].
      destruct (negb _); [now constructor 2 | now constructor 3].
Qed.

Lemma lastIndexFrom_absent (c : ascii) (s : string) :
  forall (i : nat) (found : option nat),
  JsString.allChars (fun x => negb (Ascii.eqb x c)) s = true ->
  lastIndexFrom c s i found = found.
Proof.
  induction s as [|x s IH]; intros i found H; cbn [lastIndexFrom]; [reflexivity|].
  cbn [JsString.allChars] in H. apply andb_prop in H as [Hx Hs].
  apply negb_true_iff in Hx. rewrite Hx. now apply IH.
Qed.

Lemma lastIndexFrom_last (c : ascii) (a h : string) :
  forall (i : nat) (found : option nat),
  JsString.allChars (fun x => negb (Ascii.eqb x c)) h = true ->
  lastIndexFrom c (a +:+ String c h) i found = Some (i + String.length a)%nat.
Proof.
  induction a as [|x a IH]; intros i found Hh.
  - change ("" +:+ String c h) with (String c h). cbn [lastIndexFrom String.length].
    rewrite Ascii.eqb_refl, lastIndexFrom_absent by exact Hh. f_equal. lia.
  - change (String x a +:+ String c h) with (String x (a +:+ String c h)).
    cbn [lastIndexFrom String.length]. rewrite IH by exact Hh. f_equal. lia.
Qed.

(** X18. A pod whose chosen owner (the first owner marked as controller,
    or else the first owner) is a ReplicaSet named as a Deployment's: a
    non-empty name, a hyphen and a suffix without hyphen, is given the
    scope of that Deployment, [deploy:] followed by the name before the
    last hyphen.  A ReplicaSet whose name has no hyphen is given [rs:] and
    its name. *)
Theorem replicaSet_owner_resolves_to_deployment
    (pod : Pod) (o : PodOwner) (d h : string) :
  pickOwner (podOwners pod) = Some o ->
  po_kind o = Some "ReplicaSet" ->
  d <> "" -> noDash h = true ->
  (po_name o = Some (d +:+ String "-" h) ->
   extractWorkloadScope pod = Some ("deploy:" +:+ d))
  /\ (po_name o = Some d -> noDash d = true ->
      extractWorkloadScope pod = Some ("rs:" +:+ d)).
Proof.
  intros Hpick Hkind Hd Hh. unfold extractWorkloadScope. rewrite Hpick, Hkind.
  split.
  - intros Hname. rewrite Hname.
    assert (Ht : JsString.truthy (d +:+ String "-" h) = true).
    { destruct d; [contradiction|reflexivity]. }
    rewrite Ht. cbn [JsString.truthy String.eqb negb orb Ascii.eqb Bool.eqb].
    change (String.eqb "ReplicaSet" "ReplicaSet") with true. cbv iota.
    unfold lastIndexOf. rewrite lastIndexFrom_last by exact Hh. cbn [Nat.add].
    destruct (Nat.ltb_spec 0 (String.length d)) as [_|Hz].
    + now rewrite SafeRegexSpec.substring_prefix.
    + destruct d; [contradiction|cbn in Hz; lia].
  - intros Hname Hnd. rewrite Hname.
    assert (Ht : JsString.truthy d = true) by (destruct d; [contradiction|reflexivity]).
    rewrite Ht. change (String.eqb "ReplicaSet" "ReplicaSet") with true.
    cbn [JsString.truthy String.eqb negb orb]. cbv iota.
    unfold lastIndexOf. now rewrite lastIndexFrom_absent by exact Hnd.
Qed.

Lemma replicaSet_owner_witness :
  extractWorkloadScope ownedPod = Some "deploy:web-api".
Proof.
  apply (proj1 (replicaSet_owner_resolves_to_deployment ownedPod
                  (mkPodOwner (Some "ReplicaSet") (Some "web-api-7f9c8d6b5") true)
                  "web-api" "7f9c8d6b5"
                  eq_refl eq_refl ltac:(discriminate) eq_refl)).
  reflexivity.
Defined.

Example sample_scope_lookup :
  List.map (fun p => (sp_regex p, sp_hitCount p))
    (getPatternsForScope sampleStore "default" (Some "deploy:web") None)
  = [("timeout", 4); ("OOM", 2); ("panic", 1)].
Proof. reflexivity. Qed.

End PatternStorageSpec.

(** ** Log analysis: validation of the returned pattern regexes *)

Module LogAnalyzeSpec.
Import RegExp SafeRegex PatternStorage LogAnalyze.
Import Retry (Outcome, Resolved, Rejected).
Import LogAnalyzeRuns.

Section Facts.
Variable E : Engine.

(** The early return of the counting loop does not change its answer: it
    tells whether at least three lines match. *)
Lemma countMatches_spec (regex : RegExp E) (lines : list string) (k : nat) :
  (k < MIN_PATTERN_MATCHES)%nat ->
  countMatches E regex lines k = true
  <-> (MIN_PATTERN_MATCHES <= k + length (List.filter (safeRegexTest E regex) lines))%nat.
Proof.
  revert k.
  induction lines as [|line lines IH]; intros k Hk; cbn [countMatches List.filter].
  - simpl. split; [discriminate | lia].
  - destruct (safeRegexTest E regex line); cbn [length].
    + destruct (Nat.leb_spec MIN_PATTERN_MATCHES (S k)) as [Hge|Hlt].
      * split; [lia | reflexivity].
      * rewrite IH by exact Hlt. lia.
    + now apply IH.
Qed.

Lemma keeps_spec (lines : list string) (p : LogPatternRegex) :
  keeps E lines p = true
  <-> exists regex, safeRegex E (pr_regex p) = Some regex
      /\ (3 <= length (List.filter (safeRegexTest E regex) lines))%nat.
Proof.
  unfold keeps. destruct (safeRegex E (pr_regex p)) as [regex|].
  - rewrite countMatches_spec by (unfold MIN_PATTERN_MATCHES; lia).
    unfold MIN_PATTERN_MATCHES. split.
    + intros H. exists regex. split; [reflexivity | lia].
    + intros (r & [= <-] & H). lia.
  - split; [discriminate | intros (r & Hr & _); discriminate].
Qed.

Lemma regexesOf_validated (data : LogAnalysis) (lines : list string) :
  regexesOf (withValidatedRegexes E data lines)
  = List.filter (keeps E lines) (regexesOf data).
Proof.
  unfold withValidatedRegexes, regexesOf.
  destruct (patternRegexes data) as [[|p ps]|] eqn:Hd; cbn [patternRegexes];
    rewrite ?Hd; reflexivity.
Qed.

(** C10. When log analysis asks the backend (the cache is bypassed or
    misses, and there are logs) and the backend answers [data], the analysis
    returned is [data] with its pattern regexes filtered, and that same
    analysis is what is cached with the log lines.  A returned regex is
    kept exactly when [safeRegex] accepts it and at least 3 of the analysed
    log lines match it under [safeRegexTest]; the others are dropped, with
    no error, and nothing else of the analysis changes. *)
Theorem C10_returned_regexes_are_validated
    (cluster : string) (ttl nowGet nowSet : Z) (namespace podName : string)
    (container : option string) (force : bool) (logs : string)
    (data : LogAnalysis) (cache : BoundedCache.t LogCacheData) :
  force = true
  \/ fst (BoundedCache.get cluster ttl nowGet
            (getCacheKey namespace podName container) cache) = None ->
  isBlank logs = false ->
  let run := analyzeLogsFn E cluster ttl nowGet nowSet namespace podName container
               force (Resolved logs) (Resolved data) cache in
  let lines := splitLines logs "" in
  exists data',
    fst run = Resolved data'
    /\ (forall p, p ∈ regexesOf data' <->
          p ∈ regexesOf data
          /\ exists regex, safeRegex E (pr_regex p) = Some regex
               /\ (3 <= length (List.filter (safeRegexTest E regex) lines))%nat)
    /\ regexesOf data' = List.filter (keeps E lines) (regexesOf data)
    /\ (summary data', health data', patterns data', anomalies data',
        recommendations data', errorCount data', warningCount data')
       = (summary data, health data, patterns data, anomalies data,
          recommendations data, errorCount data, warningCount data)
    /\ BoundedCache.Map_get
         (BoundedCache.scopedKey cluster (getCacheKey namespace podName container))
         (BoundedCache.map (snd run))
       = Some {| BoundedCache.timestamp := nowSet;
                 BoundedCache.data := {| analysis := data'; logLines := lines |} |}.
Proof.
  intros Hmiss Hblank run lines.
  exists (withValidatedRegexes E data lines).
  assert (Hrun : run = (Resolved (withValidatedRegexes E data lines),
                        BoundedCache.set cluster nowSet
                          (getCacheKey namespace podName container)
                          {| analysis := withValidatedRegexes E data lines;
                             logLines := lines |}
                          (if force then cache
                           else snd (BoundedCache.get cluster ttl nowGet
                                       (getCacheKey namespace podName container) cache)))).
  { subst run. unfold analyzeLogsFn. destruct force.
    - now rewrite Hblank.
    - destruct Hmiss as [Hf|Hget]; [discriminate|].
      destruct (BoundedCache.get _ _ _ _ _) as [cached cache1]. simpl in Hget.
      subst cached. now rewrite Hblank. }
  rewrite Hrun. cbn [fst snd].
  split; [reflexivity|]. split; [|split; [apply regexesOf_validated|split]].
  - intros p. rewrite regexesOf_validated, !list_elem_of_In, filter_In.
    now rewrite keeps_spec.
  - unfold withValidatedRegexes.
    destruct (patternRegexes data) as [[|p ps]|]; reflexivity.
  - unfold BoundedCache.set. cbn [BoundedCache.map].
    apply BoundedCacheSpec.Map_get_set_same.
Qed.

End Facts.

(** A run with the engine of literal alternatives: of the three regexes the
    backend returns, [timeout] matches three lines and is kept, [oom]
    matches one line and [(a+)+] is refused by [safeRegex]. *)

Lemma C10_witness :
  exists data',
    fst (analyzeLogsFn literalEngine "kind" 180000 5 6 "default" "web-0" None true
           (Resolved fourLines) (Resolved answer) (BoundedCache.new 200))
    = Resolved data'
    /\ regexesOf data' = [rx "timeout"].
Proof.
  destruct (C10_returned_regexes_are_validated literalEngine "kind" 180000 5 6
              "default" "web-0" None true fourLines answer (BoundedCache.new 200))
    as (data' & Hrun & _ & Hkept & _).
  - now left.
  - reflexivity.
  - exists data'. split; [exact Hrun|]. rewrite Hkept. reflexivity.
Defined.

(** *** Log truncation *)

Lemma append_assoc (a b c : string) : (a +:+ b) +:+ c = a +:+ (b +:+ c).
Proof.
  induction a as [|x a IH]; [reflexivity|].
  change (String x ((a +:+ b) +:+ c) = String x (a +:+ (b +:+ c))). now rewrite IH.
Qed.

Lemma splitLines_cons (s cur : string) :
  exists x xs, splitLines s cur = x :: xs.
Proof.
  revert cur. induction s as [|c s IH]; intros cur; cbn [splitLines]; [eauto|].
  destruct (Ascii.eqb c "010"); eauto.
Qed.

(** Joining the lines of a text with line feeds gives the text back. *)
Lemma join_splitLines (s cur : string) :
  JsString.join NL (splitLines s cur) = cur +:+ s.
Proof.
  revert cur. induction s as [|c s IH]; intros cur; cbn [splitLines].
  - cbn [JsString.join]. now rewrite SafeRegexSpec.append_empty_r.
  - destruct (Ascii.eqb_spec c "010") as [->|Hc].
    + destruct (splitLines_cons s "") as (x & xs & Hx).
      pose proof (IH "") as Hj. rewrite Hx in *.
      change (JsString.join NL (cur :: x :: xs))
        with (cur +:+ NL +:+ JsString.join NL (x :: xs)).
      rewrite Hj. reflexivity.
    + rewrite IH, append_assoc. reflexivity.
Qed.

Lemma sliceFrom_split (n : nat) (s : string) :
  exists pre, s = pre +:+ sliceFrom n s
              /\ String.length (sliceFrom n s) = (String.length s - n)%nat.
Proof.
  revert s. induction n as [|n IH]; intros s.
  - exists "". cbn. split; [reflexivity|lia].
  - destruct s as [|c s]; [exists ""; now split|].
    destruct (IH s) as (pre & Hp & Hl). exists (String c pre). cbn [sliceFrom].
    split; [|cbn; exact Hl].
    change (String c s = String c (pre +:+ sliceFrom n s)). now f_equal.
Qed.

Lemma indexOf_bound (c : ascii) (s : string) (i : nat) :
  indexOf c s = Some i -> (i < String.length s)%nat.
Proof.
  revert i. induction s as [|x s IH]; intros i; cbn [indexOf]; [discriminate|].
  destruct (Ascii.eqb x c).
  - intros [= <-]. cbn. lia.
  - destruct (indexOf c s) as [j|]; [|discriminate]. intros [= <-].
    specialize (IH j eq_refl). cbn. lia.
Qed.

(** X19. Logs whose lines have at most 2000 characters each and 120000
    characters in all are passed on unchanged. *)
Theorem truncateLogs_small_is_identity (logs : string) :
  Forall (fun line => len line <= MAX_LINE_LENGTH) (splitLines logs "") ->
  len logs <= MAX_LOG_CHARS ->
  truncateLogs logs = logs.
Proof.
  intros Hlines Hlen. unfold truncateLogs.
  assert (Hmap : List.map truncateLine (splitLines logs "") = splitLines logs "").
  { induction Hlines as [|l ls Hl _ IH]; [reflexivity|]. cbn [List.map].
    rewrite IH. f_equal. unfold truncateLine.
    destruct (Z.ltb_spec MAX_LINE_LENGTH (len l)); [lia|reflexivity]. }
  rewrite Hmap, join_splitLines. change ("" +:+ logs) with logs. cbv zeta.
  destruct (Z.ltb_spec MAX_LOG_CHARS (len logs)); [lia|reflexivity].
Qed.

Lemma truncateLogs_small_witness :
  truncateLogs ("ready" +:+ NL +:+ "listening on :8080" +:+ NL)
  = "ready" +:+ NL +:+ "listening on :8080" +:+ NL.
Proof.
  apply truncateLogs_small_is_identity.
  - vm_compute. repeat constructor; discriminate.
  - vm_compute. discriminate.
Defined.

(** X20. Of logs that, with their long lines cut, exceed 120000 characters,
    [truncateLogs] keeps a tail: the result is the notice followed by the
    last characters of the text, at most 120000 of them and at least 96000;
    nothing of the kept part is changed.  A text within the limit is
    returned as it is once its long lines are cut. *)
Theorem truncateLogs_keeps_recent_tail (logs : string) :
  let joined := JsString.join NL (List.map truncateLine (splitLines logs "")) in
  (len joined <= MAX_LOG_CHARS -> truncateLogs logs = joined)
  /\ (MAX_LOG_CHARS < len joined ->
      exists dropped kept,
        joined = dropped +:+ kept
        /\ truncateLogs logs = TRUNCATED_NOTICE +:+ kept
        /\ MAX_LOG_CHARS - 24000 <= len kept <= MAX_LOG_CHARS).
Proof.
  intros joined. unfold truncateLogs. fold joined. cbv zeta.
  split; intros Hlen.
  - destruct (Z.ltb_spec MAX_LOG_CHARS (len joined)); [lia|reflexivity].
  - destruct (Z.ltb_spec MAX_LOG_CHARS (len joined)); [|lia].
    set (k := (String.length joined - Z.to_nat MAX_LOG_CHARS)%nat).
    destruct (sliceFrom_split k joined) as (pre & Hpre & Hl).
    set (tail := sliceFrom k joined) in *.
    assert (Htail : len tail = MAX_LOG_CHARS).
    { unfold len in *. rewrite Hl. unfold k, MAX_LOG_CHARS in *. lia. }
    destruct (indexOf "010" tail) as [firstNL|] eqn:Hi.
    + destruct ((0 <? Z.of_nat firstNL) && (5 * Z.of_nat firstNL <? MAX_LOG_CHARS))
        eqn:Hcut.
      * apply andb_prop in Hcut as [_ Hlt]. apply Z.ltb_lt in Hlt.
        destruct (sliceFrom_split (firstNL + 1) tail) as (pre' & Hpre' & Hl').
        exists (pre +:+ pre'), (sliceFrom (firstNL + 1) tail).
        split; [now rewrite append_assoc, <- Hpre'|]. split; [reflexivity|].
        apply indexOf_bound in Hi. unfold len in *. rewrite Hl'.
        unfold MAX_LOG_CHARS in *. lia.
      * exists pre, tail. split; [exact Hpre|]. split; [reflexivity|].
        unfold MAX_LOG_CHARS in *. lia.
    + exists pre, tail. split; [exact Hpre|]. split; [reflexivity|].
      unfold MAX_LOG_CHARS in *. lia.
Qed.

(** *** The cache of analyses *)

Section Memo.
Variable E : Engine.

(** X21. Once an analysis has come from the backend, a later call for the
    same pod and container under the same cluster that does not force,
    made no more than the TTL after the first, returns that same analysis
    and leaves the cache as it is, whatever the log fetch and the backend
    would give: neither is consulted. *)
Theorem analysis_is_served_from_cache_within_ttl
    (cluster : string) (ttl ttl' nowGet nowSet nowGet' nowSet' : Z)
    (namespace podName : string) (container : option string) (force : bool)
    (logs : string) (data : LogAnalysis) (cache : BoundedCache.t LogCacheData)
    (logs' : Outcome string) (backend' : Outcome LogAnalysis) :
  force = true
  \/ fst (BoundedCache.get cluster ttl nowGet
            (getCacheKey namespace podName container) cache) = None ->
  isBlank logs = false ->
  nowGet' - nowSet <= ttl' ->
  let first := analyzeLogsFn E cluster ttl nowGet nowSet namespace podName container
                 force (Resolved logs) (Resolved data) cache in
  analyzeLogsFn E cluster ttl' nowGet' nowSet' namespace podName container
    false logs' backend' (snd first)
  = (fst first, snd first).
Proof.
  intros Hmiss Hlogs Hfresh first. subst first. unfold analyzeLogsFn at 2 3 4.
  set (key := getCacheKey namespace podName container) in *.
  set (got := if force then (None, cache) else BoundedCache.get cluster ttl nowGet key cache).
  assert (Hgot : fst got = None).
  { subst got. destruct force; [reflexivity|]. destruct Hmiss; [discriminate|assumption]. }
  destruct got as [cached cache1]. cbn [fst] in Hgot. subst cached.
  rewrite Hlogs. cbn [fst snd].
  unfold analyzeLogsFn. fold key.
  set (entry := {| analysis := _; logLines := _ |}).
  unfold BoundedCache.get.
  assert (Hg : BoundedCache.Map_get (BoundedCache.scopedKey cluster key)
                 (BoundedCache.map (BoundedCache.set cluster nowSet key entry cache1))
               = Some {| BoundedCache.timestamp := nowSet; BoundedCache.data := entry |}).
  { unfold BoundedCache.set. cbn [BoundedCache.map].
    apply BoundedCacheSpec.Map_get_set_same. }
  rewrite Hg. cbn [BoundedCache.timestamp BoundedCache.data].
  destruct (Z.ltb_spec ttl' (nowGet' - nowSet)); [lia|reflexivity].
Qed.

End Memo.

Lemma analysis_is_served_from_cache_witness :
  let first := analyzeLogsFn literalEngine "kind" 180000 5 6 "default" "web-0" None true
                 (Resolved fourLines) (Resolved answer) (BoundedCache.new 200) in
  analyzeLogsFn literalEngine "kind" 180000 9 10 "default" "web-0" None false
    (Rejected RetryRuns.serverError) (Rejected RetryRuns.serverError) (snd first)
  = (fst first, snd first).
Proof.
  apply (analysis_is_served_from_cache_within_ttl literalEngine "kind" 180000 180000
           5 6 9 10 "default" "web-0" None true fourLines answer (BoundedCache.new 200)).
  - now left.
  - reflexivity.
  - lia.
Defined.

End LogAnalyzeSpec.

(** ** From an analysis to the pattern store *)

Module PatternManagerStoreSpec.
Import RegExp SafeRegex PatternStorage LogAnalyze PatternManagerStore.
Import Retry (Outcome, Resolved, Rejected).
Import PatternStorageRuns LogAnalyzeRuns.

Section Pipeline.
Variable E : Engine.
Variable generateId : nat -> string.
Variable Date_now : nat -> Z.

Lemma cap_elem_of (l : list StoredPattern) (p : StoredPattern) :
  p ∈ cap l -> p ∈ l.
Proof.
  unfold cap. destruct (_ <? _)%nat; [|auto]. intros H.
  destruct (PatternStorageSpec.sortForCap_spec l) as [Hp _].
  rewrite <- Hp. exact (subseteq_take _ _ _ H).
Qed.

Lemma analyzeLogsFn_asks_backend
    (cluster : string) (ttl nowGet nowSet : Z) (namespace podName : string)
    (container : option string) (force : bool) (logs : string)
    (data : LogAnalysis) (cache : BoundedCache.t LogCacheData) :
  force = true
  \/ fst (BoundedCache.get cluster ttl nowGet
            (getCacheKey namespace podName container) cache) = None ->
  isBlank logs = false ->
  fst (analyzeLogsFn E cluster ttl nowGet nowSet namespace podName container force
         (Resolved logs) (Resolved data) cache)
  = Resolved (withValidatedRegexes E data (splitLines logs "")).
Proof.
  intros Hmiss Hlogs. unfold analyzeLogsFn.
  set (got := if force then _ else _).
  assert (Hgot : fst got = None).
  { subst got. destruct force; [reflexivity|]. destruct Hmiss; [discriminate|assumption]. }
  destruct got as [cached cache1]. cbn [fst] in Hgot. subst cached.
  now rewrite Hlogs.
Qed.

(** X22. The patterns a scope holds after an analysis obtained from the
    backend is handed to [updatePatternsFromAnalysis] are the patterns it
    held, each with no fewer hits and otherwise the same, and new patterns
    whose regex [safeRegex] accepts and at least 3 of the analysed log
    lines match: no regex that the safety check refuses enters the store
    this way, whatever the log cache holds at the time of the update. *)
Theorem patterns_stored_from_an_analysis_are_validated
    (cluster : string) (ttl nowGet nowSet ttl' now' : Z) (namespace podName : string)
    (container : option string) (force : bool) (logs : string)
    (data analysis : LogAnalysis) (cache cache' : BoundedCache.t LogCacheData)
    (patternStore : PatternStore) (workloadScope appIdentity pod : option string) :
  force = true
  \/ fst (BoundedCache.get cluster ttl nowGet
            (getCacheKey namespace podName container) cache) = None ->
  isBlank logs = false ->
  fst (analyzeLogsFn E cluster ttl nowGet nowSet namespace podName container force
         (Resolved logs) (Resolved data) cache) = Resolved analysis ->
  let scope := resolveScopeKey namespace workloadScope appIdentity in
  let after := fst (updatePatternsFromAnalysis E generateId Date_now cluster ttl' now'
                      patternStore namespace analysis workloadScope appIdentity
                      pod container cache') in
  forall p, p ∈ scopeOf after scope ->
    (exists old, old ∈ scopeOf patternStore scope /\ evolves old p)
    \/ (exists regex, safeRegex E (sp_regex p) = Some regex
          /\ (3 <= length (List.filter (safeRegexTest E regex)
                             (splitLines logs "")))%nat).
Proof.
  intros Hmiss Hlogs Hrun scope after p Hp. subst after.
  rewrite analyzeLogsFn_asks_backend in Hrun by assumption.
  injection Hrun as <-.
  set (lines := splitLines logs "") in *.
  pose proof (LogAnalyzeSpec.regexesOf_validated E data lines) as Hval.
  unfold regexesOf in Hval at 1. unfold updatePatternsFromAnalysis in Hp.
  destruct (patternRegexes (withValidatedRegexes E data lines)) as [[|pr prs]|] eqn:Hprs;
    cbn [fst] in Hp;
    try (left; exists p; split; [exact Hp | apply PatternStorageSpec.evolves_refl]).
  fold scope in Hp.
  set (examples := buildExamples _ _) in Hp.
  set (got := match pod with Some _ => _ | None => _ end) in Hp.
  destruct got as [logLines cache1]. cbn [fst] in Hp.
  rewrite PatternStorageSpec.scopeOf_merge in Hp. apply cap_elem_of in Hp.
  destruct (PatternStorageSpec.mergeLoop_evolves E generateId Date_now (Some examples)
              (Some logLines) (pr :: prs) (scopeOf patternStore scope) 0)
    as (kept & added & Heq & Hev & Hadd & _).
  rewrite Heq in Hp. apply elem_of_app in Hp as [Hk|Ha].
  - left. apply list_elem_of_lookup in Hk as (i & Hi).
    destruct (Forall2_lookup_r _ _ _ _ _ Hev Hi) as (old & Hold & Hevo).
    exists old. split; [eapply list_elem_of_lookup_2; eauto | exact Hevo].
  - right. rewrite Forall_forall in Hadd.
    destruct (Hadd p Ha) as (np & Hin & Hre & _).
    rewrite Hval in Hin. apply list_elem_of_In, filter_In in Hin as [_ Hkeep].
    apply (LogAnalyzeSpec.keeps_spec E) in Hkeep. now rewrite Hre.
Qed.

End Pipeline.

Lemma patterns_stored_from_an_analysis_witness :
  Forall (fun p =>
            (exists old, old ∈ scopeOf sampleStore "deploy:web" /\ evolves old p)
            \/ (exists regex, safeRegex literalEngine (sp_regex p) = Some regex
                  /\ (3 <= length (List.filter (safeRegexTest literalEngine regex)
                                     (splitLines fourLines "")))%nat))
    (scopeOf (fst (updatePatternsFromAnalysis literalEngine ids clock "kind" 180000 7
                     sampleStore "default"
                     (withValidatedRegexes literalEngine answer (splitLines fourLines ""))
                     (Some "deploy:web") None (Some "web-0") None
                     (BoundedCache.new 200)))
             "deploy:web").
Proof.
  apply Forall_forall.
  apply (patterns_stored_from_an_analysis_are_validated literalEngine ids clock
           "kind" 180000 5 6 180000 7 "default" "web-0" None true fourLines answer
           (withValidatedRegexes literalEngine answer (splitLines fourLines ""))
           (BoundedCache.new 200) (BoundedCache.new 200) sampleStore
           (Some "deploy:web") None (Some "web-0")).
  - now left.
  - reflexivity.
  - reflexivity.
Defined.

Example sample_pipeline_run :
  List.map (fun p => (sp_regex p, sp_hitCount p))
    (scopeOf (fst (updatePatternsFromAnalysis literalEngine ids clock "kind" 180000 7
                     sampleStore "default"
                     (withValidatedRegexes literalEngine answer (splitLines fourLines ""))
                     (Some "deploy:web") None (Some "web-0") None
                     (BoundedCache.new 200)))
             "deploy:web")
  = [("timeout", 5); ("OOM", 2)].
Proof. reflexivity. Qed.

End PatternManagerStoreSpec.

(** ** Relationship discovery *)

Module RelationshipDiscoverySpec.
Import JsString RelationshipDiscovery.
Import Retry (Outcome, Resolved, Rejected, JsError).
Import RelationshipDiscoveryRuns.

(** *** The entry point *)

(** C4. [discoverRelationships] never rejects, whatever the object and
    whatever the four strategies do: each strategy that rejects contributes
    the empty sequence to its category, and each strategy that resolves
    contributes its result, also when others reject. *)
Theorem C4_discoverRelationships_never_rejects
    (Object : Type) (S : Strategies Object) (object : Object) (log : Log) :
  let a := s_walkOwnersUp S object log in
  let b := s_findChildren S object (snd a) in
  let c := s_resolveSelectorTargets S object (snd b) in
  let d := s_resolveSpecReferences S object (snd c) in
  discoverRelationships S object log
  = (Resolved {| owners := orEmpty (fst a);
                 children := orEmpty (fst b);
                 selectorTargets := orEmpty (fst c);
                 specReferences := orEmpty (fst d) |},
     snd d).
Proof.
  intros a b c d. subst a b c d.
  unfold discoverRelationships, all4, catch.
  destruct (s_walkOwnersUp S object log) as [[o|eo] log1]; cbn [fst snd];
  destruct (s_findChildren S object log1) as [[ch|ec] log2]; cbn [fst snd];
  destruct (s_resolveSelectorTargets S object log2) as [[st|es] log3]; cbn [fst snd];
  destruct (s_resolveSpecReferences S object log3) as [[sr|er] log4]; cbn [fst snd];
  reflexivity.
Qed.

(** A call in which the child search rejects: the owners found by the walk
    are returned and the children are empty. *)
Example rejecting_child_search_is_isolated :
  exists rels log,
    discoverRelationships sampleStrategies pod [] = (Resolved rels, log)
    /\ length (owners rels) = 5%nat /\ children rels = []
    /\ selectorTargets rels = [] /\ specReferences rels = [].
Proof. eexists. eexists. split; [vm_compute; reflexivity|]. repeat split. Qed.

(** *** The owner walk on a chain whose second owner cannot be fetched *)

(** C3 (the code at the failing input).  The pod's owner, at depth 0, is
    fetched; its own owner, at depth 1, cannot be.  The walk does not stop
    there: it repeats the unfetchable reference at depths 2, 3 and 4, with
    one more request each time. *)
Theorem C3_walk_goes_on_after_unfetchable_owner :
  walkOwnersUp onlyReplicaSet pod []
  = ([ ownerEntry replicaSetRef "direct owner" (Some "3/3 ready");
       ownerEntry deploymentRef "owner (depth 2)" None;
       ownerEntry deploymentRef "owner (depth 3)" None;
       ownerEntry deploymentRef "owner (depth 4)" None;
       ownerEntry deploymentRef "owner (depth 5)" None ],
     [ mkRequest OwnerLookup "/apis/apps/v1/namespaces/default/replicasets/web-7f9c8d6b5";
       mkRequest OwnerLookup "/apis/apps/v1/namespaces/default/deployments/web";
       mkRequest OwnerLookup "/apis/apps/v1/namespaces/default/deployments/web";
       mkRequest OwnerLookup "/apis/apps/v1/namespaces/default/deployments/web";
       mkRequest OwnerLookup "/apis/apps/v1/namespaces/default/deployments/web" ]).
Proof. vm_compute. reflexivity. Qed.

(** *** The requests of the child search *)

Section Requests.
Variable cluster : list string -> string -> option Response.
Variable batchTimeout : list string -> bool.
Variable config : Config.FreeLensAIConfig.

Lemma apiGetSafe_sites (s : Site) (p : string) (log : Log) :
  List.map site (snd (apiGetSafe cluster s p log)) = List.map site log ++ [s].
Proof. unfold apiGetSafe, apiGet, bind, ret. cbn. now rewrite map_app. Qed.

Lemma searchOne_sites (b : nat) (uid : string) (ns : option string) (sp : SearchPath)
    (log : Log) :
  List.map site (snd (searchOne cluster b uid ns sp log))
  = List.map site log ++ [ChildBatch b].
Proof.
  unfold searchOne, bind.
  pose proof (apiGetSafe_sites (ChildBatch b)
                (listPathOf (if includes (groupVersion sp) "/"
                             then "/apis/" +:+ groupVersion sp
                             else "/api/" +:+ groupVersion sp) ns (resource sp)) log) as H.
  destruct (apiGetSafe _ _ _ log) as [result log1]. cbn [snd] in H.
  destruct (itemsOf result); exact H.
Qed.

Lemma searchAll_sites (b : nat) (uid : string) (ns : option string)
    (sps : list SearchPath) : forall log : Log,
  List.map site (snd (searchAll cluster b uid ns sps log))
  = List.map site log ++ repeat (ChildBatch b) (length sps).
Proof.
  induction sps as [|sp sps IH]; intros log; cbn [searchAll length repeat].
  - unfold ret. cbn. now rewrite app_nil_r.
  - unfold bind.
    pose proof (searchOne_sites b uid ns sp log) as H1.
    destruct (searchOne _ _ _ _ _ log) as [r log1]. cbn [snd] in H1.
    pose proof (IH log1) as H2.
    destruct (searchAll _ _ _ _ _ log1) as [rs log2]. cbn [snd] in H2 |- *.
    unfold ret. cbn [snd]. rewrite H2, H1, <- app_assoc. reflexivity.
Qed.

Lemma searchBatch_sites (b : nat) (uid : string) (ns : option string)
    (sps : list SearchPath) (log : Log) :
  List.map site (snd (searchBatch cluster batchTimeout b uid ns sps log))
  = List.map site log ++ repeat (ChildBatch b) (length sps).
Proof.
  unfold searchBatch.
  pose proof (searchAll_sites b uid ns sps log) as H.
  destruct (searchAll _ _ _ _ _ log) as [results log1]. cbn [snd] in H.
  destruct (batchTimeout _); exact H.
Qed.

(** The loop over the well-known list runs whole batches, in order, and
    never a batch beyond the fifth, whatever the number of turns allowed. *)
Lemma searchBatches_sites (uid : string) (ns : option string) (turns : nat) :
  forall (j : nat) (children : list RelatedResource) (log : Log),
  exists k : nat,
    (k = 0%nat \/ (j + k <= 5)%nat)
    /\ List.map site (snd (searchBatches cluster batchTimeout config turns
                             (batchSize * j) uid ns children log))
       = List.map site log ++ sitesOfBatches j k.
Proof.
  induction turns as [|turns IH]; intros j children log.
  - exists 0%nat. split; [now left|]. cbn. now rewrite app_nil_r.
  - cbn [searchBatches].
    change (length CHILD_SEARCH_PATHS) with 21%nat.
    destruct (Nat.ltb_spec (batchSize * j) 21) as [Hlt|Hge].
    + unfold bind.
      pose proof (searchBatch_sites (batchSize * j / batchSize) uid ns
                    (firstn batchSize (skipn (batchSize * j) CHILD_SEARCH_PATHS)) log) as H1.
      destruct (searchBatch _ _ _ _ _ _ log) as [results log1]. cbn [snd] in H1.
      assert (Hj : (batchSize * j / batchSize = j)%nat).
      { rewrite Nat.mul_comm. apply Nat.div_mul. discriminate. }
      rewrite Hj in H1. fold (batchSites j) in H1.
      assert (Hj5 : (j < 5)%nat) by (unfold batchSize in Hlt; lia).
      destruct (Config.maxRelationshipChildren config <=? _).
      * exists 1%nat. split; [right; lia|].
        unfold ret. cbn [snd]. rewrite H1. unfold sitesOfBatches. cbn.
        now rewrite app_nil_r.
      * assert (Hi : (batchSize * j + batchSize = batchSize * S j)%nat) by lia.
        rewrite Hi.
        destruct (IH (S j) (children ++ concat results) log1) as (k & Hk & Hs).
        exists (S k). split; [right; lia|].
        rewrite Hs, H1, <- app_assoc. reflexivity.
    + exists 0%nat. split; [now left|]. unfold ret. cbn. now rewrite app_nil_r.
Qed.

(** The number of turns given to the loop, the length of the list, is
    enough: the loop leaves through its own test, and further turns would
    change nothing. *)
Lemma searchBatches_turns_enough (uid : string) (ns : option string) (turns : nat) :
  forall (j : nat) (children : list RelatedResource) (log : Log),
  (5 <= j + turns)%nat ->
  searchBatches cluster batchTimeout config (S turns) (batchSize * j) uid ns children log
  = searchBatches cluster batchTimeout config turns (batchSize * j) uid ns children log.
Proof.
  induction turns as [|turns IH]; intros j children log Hj.
  - cbn [searchBatches]. change (length CHILD_SEARCH_PATHS) with 21%nat.
    destruct (Nat.ltb_spec (batchSize * j) 21) as [Hlt|_]; [|reflexivity].
    unfold batchSize in Hlt. lia.
  - remember (S turns) as t eqn:Ht. cbn [searchBatches]. subst t.
    cbn [searchBatches].
    destruct (batchSize * j <? length CHILD_SEARCH_PATHS)%nat; [|reflexivity].
    unfold bind.
    destruct (searchBatch _ _ _ _ _ _ log) as [results log1].
    destruct (Config.maxRelationshipChildren config <=? _); [reflexivity|].
    assert (Hi : (batchSize * j + batchSize = batchSize * S j)%nat) by lia.
    rewrite Hi. apply IH. lia.
Qed.

Lemma searchGroup_sites (objApiVersion uid : string) (ns : option string)
    (resources : list APIResource) :
  forall (children : list RelatedResource) (log : Log),
  exists n : nat,
    (n <= length resources)%nat
    /\ List.map site (snd (searchGroup cluster config objApiVersion uid ns
                             resources children log))
       = List.map site log ++ repeat GroupList n.
Proof.
  induction resources as [|res resources IH]; intros children log.
  - exists 0%nat. split; [reflexivity|]. cbn. now rewrite app_nil_r.
  - cbn [searchGroup]. unfold bind.
    pose proof (apiGetSafe_sites GroupList
                  (listPathOf ("/apis/" +:+ objApiVersion) ns (res_name res)) log) as H1.
    destruct (apiGetSafe _ _ _ log) as [result log1]. cbn [snd] in H1.
    destruct (itemsOf result) as [items|].
    + destruct (Config.maxRelationshipChildren config <=? _).
      * exists 1%nat. split; [cbn; lia|]. unfold ret. cbn [snd]. exact H1.
      * destruct (IH (children ++
                        List.map (fun item =>
                          {| rr_kind := orElse (res_kind res)
                                          (orElse (kind item) (res_name res));
                             rr_apiVersion := objApiVersion;
                             rr_name := name item;
                             rr_namespace := namespace item;
                             relationship := "child (owned)";
                             status := Some (summarizeStatus item);
                             detail := None |})
                          (List.filter (ownedBy uid) items)) log1) as (n & Hn & Hs).
        exists (S n). split; [cbn; lia|].
        rewrite Hs, H1, <- app_assoc. reflexivity.
    + destruct (IH children log1) as (n & Hn & Hs).
      exists (S n). split; [cbn; lia|].
      rewrite Hs, H1, <- app_assoc. reflexivity.
Qed.

(** The requests of one call of [findChildren]: at most five batches of the
    well-known list, in order, then possibly one discovery request followed
    by at most ten list requests. *)
Lemma findChildren_sites (object : KubeObject) (log : Log) :
  exists (k n : nat) (discovered : bool),
    (k <= 5)%nat /\ (n <= 10)%nat
    /\ List.map site (snd (findChildren cluster batchTimeout config object log))
       = List.map site log ++ sitesOfBatches 0 k ++ supplementalSites discovered n.
Proof.
  unfold findChildren.
  destruct (uid object) as [u|].
  2:{ exists 0%nat, 0%nat, false. repeat split; try lia. cbn. now rewrite app_nil_r. }
  destruct (truthy u); cbn [negb].
  2:{ exists 0%nat, 0%nat, false. repeat split; try lia. cbn. now rewrite app_nil_r. }
  unfold bind.
  destruct (searchBatches_sites u (namespace object) (length CHILD_SEARCH_PATHS)
              0 [] log) as (k & Hk & Hs).
  change (batchSize * 0)%nat with 0%nat in Hs.
  destruct (searchBatches _ _ _ _ _ _ _ _ log) as [children log1]. cbn [snd] in Hs.
  assert (Hk5 : (k <= 5)%nat) by lia.
  destruct (includes _ "/" && _ && _).
  - unfold discoverGroupResources, bind, apiGet. cbn [ret].
    set (resources := List.filter _ _).
    destruct (searchGroup_sites (orElse (apiVersion object) "") u (namespace object)
                (firstn 10 resources) children
                (log1 ++ [mkRequest GroupDiscovery
                            (if includes (orElse (apiVersion object) "") "/"
                             then "/apis/" +:+ orElse (apiVersion object) ""
                             else "/api/" +:+ orElse (apiVersion object) "")]))
      as (n & Hn & Hg).
    exists k, n, true. split; [exact Hk5|]. split.
    + rewrite length_firstn in Hn. lia.
    + unfold ret. rewrite Hg, map_app, Hs. cbn. now rewrite <- !app_assoc.
  - exists k, 0%nat, false. split; [exact Hk5|]. split; [lia|].
    unfold ret. cbn [snd supplementalSites]. now rewrite Hs, app_nil_r.
Qed.

Lemma supplemental_no_batch (d : bool) (n : nat) :
  omap batchOf (supplementalSites d n) = [].
Proof.
  destruct d; [|reflexivity]. cbn. induction n as [|n IH]; [reflexivity|exact IH].
Qed.

Lemma supplemental_not_in_batch (b : nat) (d : bool) (n : nat) :
  requestsInBatch b (supplementalSites d n) = 0%nat.
Proof.
  unfold requestsInBatch. destruct d; [|reflexivity]. cbn.
  induction n as [|n IH]; [reflexivity|exact IH].
Qed.

Lemma supplemental_lists (d : bool) (n : nat) :
  (groupListRequests (supplementalSites d n) <= n)%nat.
Proof.
  unfold groupListRequests. destruct d; [|cbn; lia]. cbn.
  induction n as [|n IH]; cbn; lia.
Qed.

Lemma supplemental_discovery (d : bool) (n : nat) :
  (groupDiscoveryRequests (supplementalSites d n) <= 1)%nat.
Proof.
  unfold groupDiscoveryRequests. destruct d; [|cbn; lia]. cbn.
  assert (H : List.filter isGroupDiscovery (repeat GroupList n) = []).
  { induction n as [|n IH]; [reflexivity|exact IH]. }
  rewrite H. cbn. lia.
Qed.

(** C2, as the code has it.  For any single object, any cluster and any
    timing of the batch timers, the child search issues its requests over
    the well-known list in at most ceil(21/5) = 5 batches of at most 5 list
    requests each, 21 requests at most in all (the list has 21 entries),
    and then at most 10 supplemental list requests over the object's API
    group, after at most one discovery request for that group. *)
Theorem C2_child_search_requests_are_bounded (object : KubeObject) :
  let sites :=
    List.map site (snd (findChildren cluster batchTimeout config object [])) in
  (length (batchesIssued sites) <= 5)%nat
  /\ (forall b, (requestsInBatch b sites <= 5)%nat)
  /\ (builtinRequests sites <= 21)%nat
  /\ (groupListRequests sites <= 10)%nat
  /\ (groupDiscoveryRequests sites <= 1)%nat.
Proof.
  intros sites.
  destruct (findChildren_sites object []) as (k & n & d & Hk & Hn & Hs).
  fold sites in Hs. cbn [List.map app] in Hs. rewrite Hs. clear Hs sites.
  pose proof (supplemental_lists d n) as Hl.
  pose proof (supplemental_discovery d n) as Hd.
  unfold batchesIssued, builtinRequests, groupListRequests, groupDiscoveryRequests,
    requestsInBatch in *.
  rewrite omap_app, supplemental_no_batch, app_nil_r, !List.filter_app, !length_app.
  pose proof (fun b => supplemental_not_in_batch b d n) as Hb.
  unfold requestsInBatch in Hb.
  destruct k as [|[|[|[|[|[|k]]]]]]; [| | | | | |lia];
    (split; [vm_compute; lia|]);
    (split; [intros b; rewrite List.filter_app, length_app, Hb;
             destruct b as [|[|[|[|[|b]]]]]; vm_compute; lia|]);
    (split; [vm_compute; lia|]);
    (split; [change (length (List.filter isGroupList (sitesOfBatches 0 _))) with 0%nat; lia|]);
    change (length (List.filter isGroupDiscovery (sitesOfBatches 0 _))) with 0%nat; lia.
Qed.

End Requests.

(** *** A run of the child search *)

(** The claim as worded fails: the well-known list has 21 entries, so a
    search that finds fewer children than the configured maximum runs a
    fifth batch, for the last entry. *)
Lemma C2_counterexample :
  let sites :=
    List.map site
      (snd (findChildren emptyCluster noTimeout Config.DEFAULTS deployment [])) in
  batchesIssued sites = [0; 1; 2; 3; 4]%nat
  /\ builtinRequests sites = 21%nat
  /\ requestsInBatch 4 sites = 1%nat
  /\ ~ (length (batchesIssued sites) <= 4)%nat.
Proof.
  vm_compute. repeat split. intros H.
  repeat (apply le_S_n in H). inversion H.
Qed.

(** *** The owner walk when the first owner cannot be fetched *)

Section Walk.
Variable cluster : list string -> string -> option Response.

(** References after the first never move the walk. *)
Lemma walkRefs_later (refs : list OwnerReference) (depth : nat) :
  forall (idx : nat) (w : Walk) (log : Log),
  idx <> 0%nat ->
  let w' := fst (walkRefs cluster refs idx depth w log) in
  current w' = current w /\ atStart w' = atStart w
  /\ length (pushed w') = (length (pushed w) + length refs)%nat.
Proof.
  induction refs as [|ref refs IH]; intros idx w log Hidx; cbn [walkRefs].
  - cbn. repeat split. lia.
  - unfold bind.
    destruct (resolveOwnerRef cluster ref (namespace (current w)) log) as [ownerObj log1].
    destruct (Nat.eqb_spec idx 0) as [|_]; [contradiction|].
    destruct (asObject ownerObj) as [o|];
      match goal with
      | |- context [walkRefs cluster refs (S idx) depth ?w1 log1] =>
          destruct (IH (S idx) w1 log1) as (Hc & Ha & Hp); [discriminate|];
          cbn [current atStart pushed] in Hc, Ha, Hp;
          rewrite Hc, Ha, Hp, length_app; cbn [length]; repeat split; lia
      end.
Qed.

(** At depth 0 the guard works: when the first owner of the object cannot
    be fetched, the walk ends after the object's own references, with one
    entry for each of them and no deeper entry. *)
Lemma walk_stops_when_first_owner_unfetchable
    (object : KubeObject) (ref : OwnerReference) (refs : list OwnerReference)
    (log : Log) :
  ownerReferences object = ref :: refs ->
  asObject (fst (resolveOwnerRef cluster ref (namespace object) log)) = None ->
  length (fst (walkOwnersUp cluster object log)) = S (length refs).
Proof.
  intros Hrefs Hnone. unfold walkOwnersUp. cbn [walkDepths current].
  rewrite Hrefs. cbn [walkRefs]. unfold bind at 1 2. cbn [current].
  destruct (resolveOwnerRef cluster ref (namespace object) log) as [ownerObj log1].
  cbn [fst] in Hnone. rewrite Hnone.
  match goal with
  | |- context [walkRefs cluster refs 1 0 ?w1 log1] =>
      pose proof (walkRefs_later refs 0 1 w1 log1) as H;
      destruct (walkRefs cluster refs 1 0 w1 log1) as [w' log2]
  end.
  destruct H as (_ & Ha & Hp); [discriminate|].
  cbn [fst atStart pushed] in Ha, Hp. rewrite Ha. cbn [andb Nat.eqb ret fst].
  rewrite Hp. cbn. reflexivity.
Qed.

End Walk.

(** *** The owner walk up a chain *)

Section Walk.
Variable cluster : list string -> string -> option Response.

Lemma walkDepths_chain (turns : nat) :
  forall (depth : nat) (w : Walk) (log : Log) chain,
  Chain cluster (current w) chain ->
  walkDepths cluster turns depth w log
  = (pushed w ++ firstn turns (chainEntries (current w) chain depth),
     log ++ firstn turns (chainRequests (current w) chain)).
Proof.
  induction turns as [|turns IH]; intros depth w log chain Hchain.
  - cbn [walkDepths firstn]. unfold ret. now rewrite !app_nil_r.
  - cbn [walkDepths].
    inversion Hchain as [o Hrefs|o ref owner rest Hrefs Hget Hrest]; subst.
    + rewrite Hrefs. unfold ret. cbn [chainEntries chainRequests firstn].
      now rewrite !app_nil_r.
    + rewrite Hrefs. unfold bind at 1. cbn [walkRefs].
      unfold bind at 1. unfold resolveOwnerRef, apiGetSafe, apiGet, bind, ret.
      rewrite Hget. cbn [asObject Nat.eqb current atStart pushed andb].
      rewrite (IH (S depth) _ _ rest) by (cbn [current]; exact Hrest).
      cbn [current pushed chainEntries chainRequests firstn].
      rewrite <- !app_assoc. reflexivity.
Qed.

(** X23. Up a chain of owners that the cluster serves, each object having
    one owner reference, the walk returns one entry per owner, nearest
    first and at most five: the entry has the kind and name of the owner
    reference, the namespace of the object that holds the reference, the
    status of the owner fetched, and the label [direct owner] for the first
    and [owner (depth d)] for the d-th; and it issues one request per
    entry. *)
Theorem walk_follows_owner_chain (object : KubeObject) chain (log : Log) :
  Chain cluster object chain ->
  walkOwnersUp cluster object log
  = (firstn 5 (chainEntries object chain 0),
     log ++ firstn 5 (chainRequests object chain)).
Proof.
  intros Hchain. unfold walkOwnersUp.
  now rewrite (walkDepths_chain 5 0 _ log chain) by exact Hchain.
Qed.

End Walk.

Lemma walk_follows_owner_chain_witness :
  List.map (fun r => (rr_kind r, rr_name r, relationship r, status r))
    (fst (walkOwnersUp bothOwners pod []))
  = [("ReplicaSet", Some "web-7f9c8d6b5", "direct owner", Some "3/3 ready");
     ("Deployment", Some "web", "owner (depth 2)", Some "3/3 ready")].
Proof.
  rewrite (walk_follows_owner_chain bothOwners pod
             [(replicaSetRef, replicaSet); (deploymentRef, deployment)] []).
  - reflexivity.
  - apply Chain_step; [reflexivity | reflexivity |].
    apply Chain_step; [reflexivity | reflexivity |].
    apply Chain_top. reflexivity.
Defined.

(** *** What the child search returns *)

Section Children.
Variable cluster : list string -> string -> option Response.
Variable batchTimeout : list string -> bool.
Variable config : Config.FreeLensAIConfig.

Lemma apiGetSafe_items (s : Site) (p : string) (log : Log) (items : list KubeObject) :
  itemsOf (fst (apiGetSafe cluster s p log)) = Some items ->
  cluster (List.map path log) p = Some (RList items).
Proof.
  unfold apiGetSafe, apiGet, bind, ret. cbn [fst].
  destruct (cluster (List.map path log) p) as [[o|its|rs|]|]; cbn [itemsOf];
    try discriminate.
  now intros [= ->].
Qed.

Lemma owned_items_served (uid : string) (s : Site) (p : string) (log : Log)
    (items : list KubeObject)
    (entry : KubeObject -> RelatedResource) :
  itemsOf (fst (apiGetSafe cluster s p log)) = Some items ->
  (forall item, rr_name (entry item) = name item
                /\ rr_namespace (entry item) = namespace item
                /\ relationship (entry item) = "child (owned)"
                /\ status (entry item) = Some (summarizeStatus item)) ->
  Forall (servedChild cluster uid)
         (List.map entry (List.filter (ownedBy uid) items)).
Proof.
  intros Hitems Hentry. apply apiGetSafe_items in Hitems.
  apply Forall_forall. intros c Hc.
  apply list_elem_of_In, in_map_iff in Hc as (item & <- & Hin).
  apply filter_In in Hin as [Hin Hown].
  destruct (Hentry item) as (H1 & H2 & H3 & H4).
  exists (List.map path log), p, items, item.
  rewrite list_elem_of_In. auto 10.
Qed.

Lemma searchOne_sound (b : nat) (uid : string) (ns : option string) (sp : SearchPath)
    (log : Log) :
  Forall (servedChild cluster uid) (fst (searchOne cluster b uid ns sp log)).
Proof.
  unfold searchOne, bind.
  set (p := listPathOf _ ns (resource sp)).
  pose proof (owned_items_served uid (ChildBatch b) p log) as H.
  destruct (apiGetSafe cluster (ChildBatch b) p log) as [result log1].
  cbn [fst] in H.
  destruct (itemsOf result) as [items|]; unfold ret; cbn [fst]; [|constructor].
  apply H; [reflexivity|]. intros item. cbn. auto.
Qed.

Lemma searchAll_sound (b : nat) (uid : string) (ns : option string)
    (sps : list SearchPath) : forall log : Log,
  Forall (Forall (servedChild cluster uid)) (fst (searchAll cluster b uid ns sps log)).
Proof.
  induction sps as [|sp sps IH]; intros log; cbn [searchAll].
  - constructor.
  - unfold bind. pose proof (searchOne_sound b uid ns sp log) as H1.
    destruct (searchOne cluster b uid ns sp log) as [r log1].
    specialize (IH log1).
    destruct (searchAll cluster b uid ns sps log1) as [rs log2].
    unfold ret. cbn [fst] in *. now constructor.
Qed.

Lemma searchBatch_sound (b : nat) (uid : string) (ns : option string)
    (sps : list SearchPath) (log : Log) :
  Forall (servedChild cluster uid)
         (List.concat (fst (searchBatch cluster batchTimeout b uid ns sps log))).
Proof.
  unfold searchBatch. pose proof (searchAll_sound b uid ns sps log) as H.
  destruct (searchAll cluster b uid ns sps log) as [results log1]. cbn [fst] in H.
  destruct (batchTimeout _); cbn [fst List.concat]; [constructor|].
  now apply Forall_concat.
Qed.

Lemma searchBatches_sound (uid : string) (ns : option string) (turns : nat) :
  forall (i : nat) (children : list RelatedResource) (log : Log),
  Forall (servedChild cluster uid) children ->
  Forall (servedChild cluster uid)
         (fst (searchBatches cluster batchTimeout config turns i uid ns children log)).
Proof.
  induction turns as [|turns IH]; intros i children log Hch; cbn [searchBatches].
  - exact Hch.
  - destruct (i <? _)%nat; [|exact Hch]. unfold bind.
    pose proof (searchBatch_sound (i / batchSize) uid ns
                  (firstn batchSize (skipn i CHILD_SEARCH_PATHS)) log) as Hb.
    destruct (searchBatch cluster batchTimeout _ uid ns _ log) as [results log1].
    cbn [fst] in Hb.
    assert (Hall : Forall (servedChild cluster uid) (children ++ List.concat results))
      by (apply Forall_app; auto).
    destruct (_ <=? _); [exact Hall|]. now apply IH.
Qed.

Lemma searchGroup_sound (objApiVersion uid : string) (ns : option string)
    (resources : list APIResource) :
  forall (children : list RelatedResource) (log : Log),
  Forall (servedChild cluster uid) children ->
  Forall (servedChild cluster uid)
         (fst (searchGroup cluster config objApiVersion uid ns resources children log)).
Proof.
  induction resources as [|res resources IH]; intros children log Hch;
    cbn [searchGroup].
  - exact Hch.
  - unfold bind.
    set (p := listPathOf _ ns (res_name res)).
    pose proof (owned_items_served uid GroupList p log) as H.
    destruct (apiGetSafe cluster GroupList p log) as [result log1]. cbn [fst] in H.
    destruct (itemsOf result) as [items|]; [|now apply IH].
    match goal with
    | |- context [children ++ List.map ?f ?l] =>
        assert (Hall : Forall (servedChild cluster uid) (children ++ List.map f l))
    end.
    { apply Forall_app. split; [exact Hch|].
      apply H; [reflexivity|]. intros item. cbn. auto. }
    destruct (_ <=? _); [exact Hall|]. now apply IH.
Qed.

(** X24. Every child that [findChildren] returns is an item that the
    cluster served in a list and that names the object's uid among its
    owner references; the entry carries the name, the namespace and the
    status of that item and the relationship [child (owned)].  This holds
    whatever the cluster answers, whichever batches time out and wherever
    the search stops. *)
Theorem findChildren_returns_only_owned_items (object : KubeObject) (log : Log) :
  Forall (fun c => exists u, uid object = Some u /\ servedChild cluster u c)
         (fst (findChildren cluster batchTimeout config object log)).
Proof.
  unfold findChildren. destruct (uid object) as [u|]; [|constructor].
  destruct (negb (truthy u)); [constructor|].
  eapply Forall_impl with (P := servedChild cluster u); [|intros c Hc; eauto].
  unfold bind.
  pose proof (searchBatches_sound u (namespace object) (length CHILD_SEARCH_PATHS)
                0 [] log (Forall_nil_2 _)) as Hb.
  destruct (searchBatches cluster batchTimeout config _ 0 u (namespace object) [] log)
    as [children log1]. cbn [fst] in Hb.
  destruct (_ && _); [|exact Hb].
  destruct (discoverGroupResources cluster _ log1) as [resources log2].
  now apply searchGroup_sound.
Qed.

End Children.

(** The ReplicaSet's children in a cluster whose pod list holds a pod of
    the ReplicaSet and a pod of another owner. *)
Example sample_child_search :
  List.map (fun r => (rr_kind r, rr_name r, relationship r, status r))
    (fst (findChildren twoPods noTimeout Config.DEFAULTS replicaSet []))
  = [("Pod", Some "web-7f9c8d6b5-x2x4q", "child (owned)", Some "Running")].
Proof. vm_compute. reflexivity. Qed.

End RelationshipDiscoverySpec.
